(** * go-env: binding environment variables into tagged records

    A shallow embedding of [configs.go] (package [lib]): [LoadConfig],
    [LoadEnv], [loadInto], [getenv], [setValueFromString], [splitComma] and
    [fieldErr], together with the properties stated about them.

    The Go code drives everything through [reflect]: a [reflect.Value] is a
    typed, addressable location.  Here a location is a pair of a static type
    ([ty]) and its current contents ([value]); a function that mutates its
    argument returns the new contents, also when it returns an error.
    In the first part contents are trees: a non-nil pointer holds the
    contents of its pointee, which describes a target none of whose storage
    is shared.  The second part writes the same functions on a heap of
    objects, where a pointer is an address and two fields may reach the same
    storage, and shows that the two agree on a target that owns its
    storage. *)

From Stdlib Require Import ZArith Lia Ascii String.
From stdpp Require Import base option list strings gmap.

Set Warnings "-register-all".

Local Open Scope string_scope.
Local Open Scope list_scope.
Local Open Scope Z_scope.

(** ** Static types

    [reflect.Type] as far as the binder looks at it.  Go rejects a struct type
    that contains itself by value, so a cycle of the type graph always passes
    through an indirection; the element of a pointer or of a slice is
    therefore a reference [tref]: either a type written in place or the name
    of a declared struct type, resolved in the table of declarations. *)

Inductive ty : Type :=
| TString
| TBool
| TInt (bits : Z)                (* int, int8 .. int64: Bits() *)
| TUint (bits : Z)               (* uint, uint8 .. uint64, uintptr *)
| TFloat (bits : Z)              (* float32, float64 *)
| TDuration                      (* time.Duration, Kind Int64 *)
| TTime                          (* time.Time, Kind Struct *)
| TSlice (elem : tref)
| TPtr (elem : tref)
| TStruct (fields : list field)
| TOther (name : string)         (* map, chan, func, interface, array, ... *)
with tref : Type :=
| Here (t : ty)
| Decl (name : string)
with field : Type :=
| StructField (Name : string) (PkgPath : string) (Tag : string) (Type_ : ty).

Definition Name (sf : field) : string :=
  match sf with StructField n _ _ _ => n end.
(** [PkgPath] is empty exactly for exported fields. *)
Definition PkgPath (sf : field) : string :=
  match sf with StructField _ p _ _ => p end.
(** The result of [sf.Tag.Get("env")]: empty when the field has no such tag. *)
Definition Tag (sf : field) : string :=
  match sf with StructField _ _ g _ => g end.
Definition Type_ (sf : field) : ty :=
  match sf with StructField _ _ _ t => t end.

Inductive Kind : Type :=
| Invalid | KString | KBool | KInt | KUint | KFloat
| KSlice | KPointer | KStruct | KOther.

Definition kind (t : ty) : Kind :=
  match t with
  | TString => KString
  | TBool => KBool
  | TInt _ => KInt
  | TUint _ => KUint
  | TFloat _ => KFloat
  | TDuration => KInt
  | TTime => KStruct
  | TSlice _ => KSlice
  | TPtr _ => KPointer
  | TStruct _ => KStruct
  | TOther _ => KOther
  end.

Definition Kind_eqb (a b : Kind) : bool :=
  match a, b with
  | Invalid, Invalid | KString, KString | KBool, KBool | KInt, KInt
  | KUint, KUint | KFloat, KFloat | KSlice, KSlice | KPointer, KPointer
  | KStruct, KStruct | KOther, KOther => true
  | _, _ => false
  end.

(** ** Values *)

(** A point in time: the instant and the zone offset of [time.Time]. *)
Record Time : Type := mkTime { unixNano : Z; zoneOffset : Z }.

Inductive value : Type :=
| VString (s : string)
| VBool (b : bool)
| VInt (i : Z)                   (* every signed kind, time.Duration included *)
| VUint (u : Z)
| VFloat (f : Z)                 (* a float64, as math.Float64bits *)
| VTime (t : Time)
| VNil                           (* the nil pointer and the nil slice *)
| VPtr (pointee : value)
| VSlice (elems : list value)
| VStruct (fields : list value)
| VOther.

(** The zero [time.Time] is January 1, year 1, 00:00 UTC. *)
Definition zeroTime : Time := mkTime (-62135596800 * 1000000000) 0.

(** The fields of [time.Time]; all three are unexported. *)
Definition timeFields : list field :=
  [ StructField "wall" "time" "" (TUint 64);
    StructField "ext" "time" "" (TInt 64);
    StructField "loc" "time" "" (TPtr (Decl "time.Location")) ].

(** [reflect.Zero]: pointers and slices are nil, so no reference is followed. *)
Fixpoint zero (t : ty) : value :=
  match t with
  | TString => VString ""
  | TBool => VBool false
  | TInt _ => VInt 0
  | TUint _ => VUint 0
  | TFloat _ => VFloat 0
  | TDuration => VInt 0
  | TTime => VTime zeroTime
  | TSlice _ => VNil
  | TPtr _ => VNil
  | TStruct fs =>
      VStruct ((fix zeros (l : list field) : list value :=
                  match l with
                  | [] => []
                  | sf :: l' => zero (Type_ sf) :: zeros l'
                  end) fs)
  | TOther _ => VOther
  end.

(** ** The library functions the binder calls

    Go strings are byte sequences; [string] is a list of bytes ([ascii]). *)

Module strings.

(** [strings.Split(s, sep)] for a one-byte separator: the pieces between
    the separators, so one piece more than there are separators. *)
Fixpoint Split (s : string) (sep : ascii) : list string :=
  match s with
  | EmptyString => [EmptyString]
  | String c s' =>
      if Ascii.eqb c sep then EmptyString :: Split s' sep
      else match Split s' sep with
           | p :: ps => String c p :: ps
           | [] => [String c EmptyString]
           end
  end.

(** [asciiSpace]: '\t', '\n', '\v', '\f', '\r' and ' '. *)
Definition asciiSpace (c : ascii) : bool :=
  let n := N_of_ascii c in ((9 <=? n) && (n <=? 13) || (n =? 32))%N.

(** [unicode.IsSpace] on the UTF-8 encodings of two and three bytes:
    U+0085, U+00A0; U+1680, U+2000..U+200A, U+2028, U+2029, U+202F,
    U+205F, U+3000. *)
Definition space2 (c1 c2 : ascii) : bool :=
  let a := N_of_ascii c1 in let b := N_of_ascii c2 in
  ((a =? 194) && ((b =? 133) || (b =? 160)))%N.

Definition space3 (c1 c2 c3 : ascii) : bool :=
  let a := N_of_ascii c1 in let b := N_of_ascii c2 in
  let c := N_of_ascii c3 in
  ((a =? 225) && (b =? 154) && (c =? 128)
   || (a =? 226) && (b =? 128)
      && ((128 <=? c) && (c <=? 138) || (c =? 168) || (c =? 169) || (c =? 175))
   || (a =? 226) && (b =? 129) && (c =? 159)
   || (a =? 227) && (b =? 128) && (c =? 128))%N.

(** [TrimLeftFunc(s, unicode.IsSpace)]. *)
Fixpoint trimLeft (s : string) : string :=
  match s with
  | EmptyString => s
  | String c1 r1 =>
      if asciiSpace c1 then trimLeft r1
      else match r1 with
           | String c2 r2 =>
               if space2 c1 c2 then trimLeft r2
               else match r2 with
                    | String c3 r3 =>
                        if space3 c1 c2 c3 then trimLeft r3 else s
                    | EmptyString => s
                    end
           | EmptyString => s
           end
  end.

Fixpoint rev (s acc : string) : string :=
  match s with
  | EmptyString => acc
  | String c s' => rev s' (String c acc)
  end.

(** The same scan from the end of the text, on the reversed bytes. *)
Fixpoint trimLeftRev (s : string) : string :=
  match s with
  | EmptyString => s
  | String c1 r1 =>
      if asciiSpace c1 then trimLeftRev r1
      else match r1 with
           | String c2 r2 =>
               if space2 c2 c1 then trimLeftRev r2
               else match r2 with
                    | String c3 r3 =>
                        if space3 c3 c2 c1 then trimLeftRev r3 else s
                    | EmptyString => s
                    end
           | EmptyString => s
           end
  end.

Definition trimRight (s : string) : string :=
  rev (trimLeftRev (rev s EmptyString)) EmptyString.

(** [strings.TrimSpace]: leading and trailing white space removed. *)
Definition TrimSpace (s : string) : string := trimRight (trimLeft s).

End strings.

Module strconv.

(** [strconv.ParseBool]. *)
Definition ParseBool (s : string) : option bool :=
  if (String.eqb s "1" || String.eqb s "t" || String.eqb s "T"
      || String.eqb s "TRUE" || String.eqb s "true" || String.eqb s "True")%bool
  then Some true
  else if (String.eqb s "0" || String.eqb s "f" || String.eqb s "F"
           || String.eqb s "FALSE" || String.eqb s "false"
           || String.eqb s "False")%bool
  then Some false
  else None.

Definition digit (c : ascii) : option Z :=
  let n := Z.of_N (N_of_ascii c) in
  if (48 <=? n) && (n <=? 57) then Some (n - 48) else None.

(** The digits of a base-10 numeral, most significant first. *)
Fixpoint digits (s : string) (acc : Z) : option Z :=
  match s with
  | EmptyString => Some acc
  | String c s' =>
      match digit c with
      | Some d => digits s' (10 * acc + d)
      | None => None
      end
  end.

(** [strconv.ParseUint(s, 10, bitSize)]: [None] when it returns an error
    (syntax or range). *)
Definition ParseUint (s : string) (bitSize : Z) : option Z :=
  match s with
  | EmptyString => None
  | _ =>
      match digits s 0 with
      | Some n => if n <=? 2 ^ bitSize - 1 then Some n else None
      | None => None
      end
  end.

(** [strconv.ParseInt(s, 10, bitSize)]: an optional sign, then digits; the
    value must fit the signed width. *)
Definition ParseInt (s : string) (bitSize : Z) : option Z :=
  match s with
  | EmptyString => None
  | String c s' =>
      let neg := Ascii.eqb c "-"%char in
      let body := if (Ascii.eqb c "+"%char || neg)%bool then s' else s in
      match body with
      | EmptyString => None
      | _ =>
          match digits body 0 with
          | Some un =>
              let cutoff := 2 ^ (bitSize - 1) in
              if neg then (if un <=? cutoff then Some (- un) else None)
              else (if un <? cutoff then Some un else None)
          | None => None
          end
      end
  end.

End strconv.

(** ** Errors, outcomes and the world around the binder *)

Inductive error : Type :=
| ErrNilTarget                          (* "nil target" *)
| ErrNotStructPointer       (* "LoadEnv requires a pointer to a struct" *)
| ErrUnsupported (t : ty)   (* "unsupported field type: " + v.Type().String() *)
| ErrParse (fn : string) (text : string)    (* the error of a library parser *)
| ErrField (name : string) (cause : error). (* sf.Name + ": " + err.Error() *)

(** How a call ends.  [Returned s err] carries the contents of the target as
    the call leaves them, with the returned error ([None] for [nil]). *)
Inductive outcome (S : Type) : Type :=
| Returned (s : S) (err : option error)
| Exited                                (* log.Fatalf: the process exits *)
| Panicked                              (* reflect panics: ill-shaped contents *)
| OutOfFuel.                            (* the call has not returned yet *)

Arguments Returned {S} s err.
Arguments Exited {S}.
Arguments Panicked {S}.
Arguments OutOfFuel {S}.

(** What Go passes as [any]: the nil interface, or a dynamic type with its
    contents.  A pointer argument is [Any (TPtr r) (VPtr p)], with [p] the
    contents of the record it points to. *)
Inductive any : Type :=
| AnyNil
| Any (t : ty) (v : value).

Inductive StatResult : Type :=
| StatOk (IsDir : bool)
| StatNotExist
| StatError.

(** The declared struct types, the process environment, the file system and
    the library functions that are taken as given. *)
Record World : Type := mkWorld {
  decls : string -> list field;
  environ : gmap string string;
  ParseFloat : string -> Z -> option Z;       (* strconv.ParseFloat(s, bits) *)
  ParseDuration : string -> option Z;         (* time.ParseDuration *)
  ParseRFC3339 : string -> option Time;       (* time.Parse(time.RFC3339, s) *)
  Stat : string -> StatResult;                (* os.Stat *)
  DecodeFile : string -> any -> any * bool    (* toml.DecodeFile; true: error *)
}.

Definition fieldErr (sf : field) (err : error) : error :=
  ErrField (Name sf) err.

Definition splitComma (s : string) : list string :=
  let raw := strings.Split s ","%char in
  foldl (fun (out : list string) r =>
           let r := strings.TrimSpace r in
           if negb (String.eqb r "") then (out ++ [r])%list else out)
        [] raw.

(** The loop [for i := range parts] of the slice case: element [i] of the
    fresh slice is set from [parts[i]]; the first error ends it. *)
Fixpoint fillSlice (set : value -> string -> outcome value)
    (parts : list string) (i : nat) (slice : list value)
  : outcome (list value) :=
  match parts with
  | [] => Returned slice None
  | p :: rest =>
      match slice !! i with
      | None => Panicked
      | Some x =>
          match set x p with
          | Returned x' None => fillSlice set rest (S i) (<[i:=x']> slice)
          | Returned x' (Some err) => Returned (<[i:=x']> slice) (Some err)
          | Exited => Exited
          | Panicked => Panicked
          | OutOfFuel => OutOfFuel
          end
      end
  end.

Definition fromOption (fn s : string) (old : value) (parsed : option value)
  : outcome value :=
  match parsed with
  | Some x => Returned x None
  | None => Returned old (Some (ErrParse fn s))
  end.

(** The type an element reference stands for, in the declarations [d]. *)
Definition resolve (d : string -> list field) (r : tref) : ty :=
  match r with
  | Here t => t
  | Decl n => TStruct (d n)
  end.

Section Binder.

Variable w : World.

Definition getenv (name : string) : option string := environ w !! name.

Fixpoint setValueFromString (t : ty) (v : value) (s : string) {struct t}
  : outcome value :=
  match t with
  | TDuration => fromOption "ParseDuration" s v (VInt <$> ParseDuration w s)
  | TString => Returned (VString s) None
  | TBool => fromOption "ParseBool" s v (VBool <$> strconv.ParseBool s)
  | TInt bits => fromOption "ParseInt" s v (VInt <$> strconv.ParseInt s bits)
  | TUint bits => fromOption "ParseUint" s v (VUint <$> strconv.ParseUint s bits)
  | TFloat bits => fromOption "ParseFloat" s v (VFloat <$> ParseFloat w s bits)
  | TSlice r =>
      let set :=
        match r with
        | Here e => setValueFromString e
        | Decl _ =>
            fun x _ => Returned x (Some (ErrUnsupported (resolve (decls w) r)))
        end in
      let parts := splitComma s in
      let slice := replicate (length parts) (zero (resolve (decls w) r)) in
      match fillSlice set parts 0 slice with
      | Returned slice' None => Returned (VSlice slice') None
      | Returned _ (Some err) => Returned v (Some err)
      | Exited => Exited
      | Panicked => Panicked
      | OutOfFuel => OutOfFuel
      end
  | TPtr r =>
      let set :=
        match r with
        | Here e => setValueFromString e
        | Decl _ =>
            fun x _ => Returned x (Some (ErrUnsupported (resolve (decls w) r)))
        end in
      let v1 :=
        match v with
        | VNil => VPtr (zero (resolve (decls w) r))
        | _ => v
        end in
      match v1 with
      | VPtr x =>
          match set x s with
          | Returned x' err => Returned (VPtr x') err
          | Exited => Exited
          | Panicked => Panicked
          | OutOfFuel => OutOfFuel
          end
      | _ => Panicked
      end
  | TTime | TStruct _ | TOther _ => Returned v (Some (ErrUnsupported t))
  end.

(** [v.Field(i)] and the assignment to it. *)
Definition Field (v : value) (i : nat) : option value :=
  match v with
  | VStruct vs => vs !! i
  | _ => None
  end.

Definition SetField (v : value) (i : nat) (x : value) : value :=
  match v with
  | VStruct vs => VStruct (<[i:=x]> vs)
  | _ => v
  end.

(** [t.NumField()] and [t.Field(i)] of a type of kind Struct. *)
Definition fieldsOf (t : ty) : list field :=
  match t with
  | TStruct fs => fs
  | TTime => timeFields
  | _ => []
  end.

Definition noTag (tag : string) : bool :=
  (String.eqb tag "" || String.eqb tag "-")%bool.

(** The end of the loop body: the field's own tag. *)
Definition bindLeaf (sf : field) (fv : value) : outcome value :=
  let tag := Tag sf in
  if noTag tag then Returned fv None
  else match getenv tag with
       | Some s =>
           match setValueFromString (Type_ sf) fv s with
           | Returned fv' (Some err) => Returned fv' (Some (fieldErr sf err))
           | o => o
           end
       | None => Returned fv None
       end.

(** The body of the loop for an exported field with contents [fv];
    [loadInto] is the recursive call. *)
Definition bindField (loadInto : ty -> value -> outcome value)
    (sf : field) (fv : value) : outcome value :=
  match Type_ sf with
  | TTime =>
      let tag := Tag sf in
      if negb (noTag tag) then
        match getenv tag with
        | Some s =>
            match ParseRFC3339 w s with
            | None => Returned fv (Some (fieldErr sf (ErrParse "Parse" s)))
            | Some tm => Returned (VTime tm) None
            end
        | None => Returned fv None
        end
      else Returned fv None
  | TStruct _ => loadInto (Type_ sf) fv
  | TPtr r =>
      let toStruct := Kind_eqb (kind (resolve (decls w) r)) KStruct in
      let fv1 :=
        match fv with
        | VNil => if toStruct then VPtr (zero (resolve (decls w) r)) else fv
        | _ => fv
        end in
      if toStruct then
        match fv1 with
        | VPtr p =>
            match loadInto (resolve (decls w) r) p with
            | Returned p' err => Returned (VPtr p') err
            | o => o
            end
        | _ => Panicked
        end
      else bindLeaf sf fv1
  | _ => bindLeaf sf fv
  end.

(** The loop [for i := 0; i < t.NumField(); i++] from index [i] on, [fs]
    being the fields that remain. *)
Fixpoint loadFields (loadInto : ty -> value -> outcome value)
    (fs : list field) (i : nat) (v : value) : outcome value :=
  match fs with
  | [] => Returned v None
  | sf :: rest =>
      if negb (String.eqb (PkgPath sf) "") then loadFields loadInto rest (S i) v
      else match Field v i with
           | None => Panicked
           | Some fv =>
               match bindField loadInto sf fv with
               | Returned fv' None =>
                   loadFields loadInto rest (S i) (SetField v i fv')
               | Returned fv' (Some err) =>
                   Returned (SetField v i fv') (Some err)
               | o => o
               end
           end
  end.

(** [loadInto] on a location of static type [t]; every call uses one unit
    of [fuel], which bounds the depth of the recursion. *)
Fixpoint loadInto (fuel : nat) (t : ty) (v : value) : outcome value :=
  match fuel with
  | O => OutOfFuel
  | S k =>
      if Kind_eqb (kind t) KStruct
      then loadFields (loadInto k) (fieldsOf t) 0 v
      else Panicked
  end.

(** [rv.Elem().Kind()]: the kind of the pointee, [Invalid] for nil. *)
Definition elemKind (r : tref) (v : value) : Kind :=
  match v with
  | VPtr _ => kind (resolve (decls w) r)
  | _ => Invalid
  end.

Definition LoadEnv (fuel : nat) (out : any) : outcome any :=
  match out with
  | AnyNil => Returned out (Some ErrNilTarget)
  | Any t v =>
      match t with
      | TPtr r =>
          if negb (Kind_eqb (elemKind r v) KStruct)
          then Returned out (Some ErrNotStructPointer)
          else match v with
               | VPtr p =>
                   match loadInto fuel (resolve (decls w) r) p with
                   | Returned p' err => Returned (Any t (VPtr p')) err
                   | Exited => Exited
                   | Panicked => Panicked
                   | OutOfFuel => OutOfFuel
                   end
               | _ => Panicked
               end
      | _ => Returned out (Some ErrNotStructPointer)
      end
  end.

Definition LoadConfig (fuel : nat) (configFile : string) (value : any)
  : outcome any :=
  if negb (String.eqb configFile "") then
    match Stat w configFile with
    | StatOk false =>
        match DecodeFile w configFile value with
        | (_, true) => Exited
        | (value', false) => LoadEnv fuel value'
        end
    | StatError => Exited
    | StatOk true | StatNotExist => LoadEnv fuel value
    end
  else LoadEnv fuel value.

End Binder.
(** ** Paths into a record *)

Definition exported (sf : field) : bool := String.eqb (PkgPath sf) "".

(** The record type the walker recurses into from a field of type [t]:
    a nested struct other than [time.Time], or the target of a pointer to a
    struct. *)
Definition descend (d : string -> list field) (t : ty) : option ty :=
  match t with
  | TStruct _ => Some t
  | TPtr r =>
      if Kind_eqb (kind (resolve d r)) KStruct then Some (resolve d r) else None
  | _ => None
  end.

(** A leaf is a field the walker does not recurse into. *)
Definition isLeaf (d : string -> list field) (t : ty) : bool :=
  match descend d t with
  | Some _ => false
  | None => true
  end.

(** The contents the walker recurses into, for a field of type [t] holding
    [fv]: the struct itself, or the pointee of a non-nil pointer. *)
Definition enter (t : ty) (fv : value) : option value :=
  match t with
  | TPtr _ => match fv with VPtr y => Some y | _ => None end
  | _ => Some fv
  end.

(** The field a path of indices leads to from the record type [t], through
    exported fields only. *)
Fixpoint fieldAt (d : string -> list field) (t : ty) (p : list nat)
  : option field :=
  match p with
  | [] => None
  | i :: p' =>
      match fieldsOf t !! i with
      | None => None
      | Some sf =>
          match p' with
          | [] => Some sf
          | _ :: _ =>
              if exported sf then
                match descend d (Type_ sf) with
                | Some t' => fieldAt d t' p'
                | None => None
                end
              else None
          end
      end
  end.

(** The contents of that field in the record [v] of type [t]; [None] when a
    pointer on the way is nil. *)
Fixpoint valueAt (d : string -> list field) (t : ty) (v : value)
    (p : list nat) : option value :=
  match p with
  | [] => None
  | i :: p' =>
      match fieldsOf t !! i, Field v i with
      | Some sf, Some fv =>
          match p' with
          | [] => Some fv
          | _ :: _ =>
              if exported sf then
                match descend d (Type_ sf), enter (Type_ sf) fv with
                | Some t', Some y => valueAt d t' y p'
                | _, _ => None
                end
              else None
          end
      | _, _ => None
      end
  end.

(** Contents of the shape of a static type, as every [reflect.Value] has
    them. *)
Fixpoint hasType (d : string -> list field) (v : value) (t : ty) {struct v}
  : bool :=
  match v, t with
  | VString _, TString => true
  | VBool _, TBool => true
  | VInt _, TInt _ => true
  | VInt _, TDuration => true
  | VUint _, TUint _ => true
  | VFloat _, TFloat _ => true
  | VTime _, TTime => true
  | VNil, TPtr _ => true
  | VNil, TSlice _ => true
  | VPtr y, TPtr r => hasType d y (resolve d r)
  | VSlice xs, TSlice r => forallb (fun x => hasType d x (resolve d r)) xs
  | VStruct vs, TStruct fs =>
      (fix each (vs : list value) (fs : list field) : bool :=
         match vs, fs with
         | [], [] => true
         | x :: vs', sf :: fs' => hasType d x (Type_ sf) && each vs' fs'
         | _, _ => false
         end) vs fs
  | VOther, TOther _ => true
  | _, _ => false
  end.

(** ** The claims' own words *)

(** The list of segments of a text: split on commas, each piece trimmed,
    the empty ones dropped. *)
Definition segments (s : string) : list string :=
  List.filter (fun r => negb (String.eqb r ""))
    (List.map strings.TrimSpace (strings.Split s ","%char)).

(** The parsed form of a text for a field of type [t]. *)
Definition parsed (w : World) (t : ty) (s : string) : option value :=
  match t with
  | TTime => VTime <$> ParseRFC3339 w s
  | _ =>
      match setValueFromString w t (zero t) s with
      | Returned x None => Some x
      | _ => None
      end
  end.

(** The walk from [t] is finite: every record type the walker recurses into
    from an exported field has a finite walk.  This is well-foundedness of
    the type graph below [t], that is, no cycle can be reached. *)
Inductive finiteWalk (d : string -> list field) : ty -> Prop :=
| finiteWalk_intro t :
    (forall i sf t',
        fieldsOf t !! i = Some sf -> exported sf = true ->
        descend d (Type_ sf) = Some t' -> finiteWalk d t') ->
    finiteWalk d t.

(** The two errors of [LoadEnv] on its argument. *)
Definition InvalidTarget (e : error) : Prop :=
  e = ErrNilTarget \/ e = ErrNotStructPointer.

Scheme ty_mut := Induction for ty Sort Prop
  with tref_mut := Induction for tref Sort Prop
  with field_mut := Induction for field Sort Prop.



(** A call that ended: it returned or it panicked. *)
Definition ended {S : Type} (o : outcome S) : Prop :=
  match o with
  | Returned _ _ | Panicked => True
  | Exited | OutOfFuel => False
  end.


(** ** Records and worlds of the package's tests *)

(** Of [time.ParseDuration], the values the tests use. *)
Definition testDurations (s : string) : option Z :=
  if String.eqb s "5s" then Some 5000000000
  else if String.eqb s "150ms" then Some 150000000
  else if String.eqb s "0s" then Some 0
  else None.

(** A process with the environment [env], the declarations [d] and no
    configuration file. *)
Definition envWorld (d : string -> list field) (env : gmap string string)
  : World :=
  mkWorld d env (fun _ _ => None) testDurations (fun _ => None)
    (fun _ => StatNotExist) (fun _ a => (a, false)).

Definition noDecls : string -> list field := fun _ => [].

(** [NestedConfig] of [TestLoadEnvNested]. *)
Definition Level2 : ty :=
  TStruct [ StructField "Value" "" "LEVEL2_VALUE" (TInt 64);
            StructField "Flag" "" "LEVEL2_FLAG" TBool;
            StructField "Tags" "" "LEVEL2_TAGS" (TSlice (Here (TInt 64)));
            StructField "Label" "" "LEVEL2_LABEL" TString ].

Definition NestedConfig : ty :=
  TStruct [ StructField "Level1" "" ""
              (TStruct [ StructField "Name" "" "LEVEL1_NAME" TString;
                         StructField "Level2" "" "" (TPtr (Here Level2)) ]) ].

Definition nestedEnv : gmap string string :=
  <["LEVEL1_NAME" := "root"]>
    (<["LEVEL2_VALUE" := "42"]>
       (<["LEVEL2_FLAG" := "true"]>
          (<["LEVEL2_TAGS" := "1,2,3"]>
             (<["LEVEL2_LABEL" := "nested"]> ∅)))).

(** [DurConfig] of [TestLoadEnvDuration]. *)
Definition DurConfig : ty :=
  TStruct [ StructField "Timeout" "" "TIMEOUT" TDuration;
            StructField "Backoff" "" "BACKOFF" TDuration;
            StructField "ZeroValue" "" "ZERO_TIMEOUT" TDuration ].

Definition durEnv : gmap string string :=
  <["TIMEOUT" := "5s"]>
    (<["BACKOFF" := "150ms"]> (<["ZERO_TIMEOUT" := "0s"]> ∅)).

(** [TestConfig] of [TestLoadConfigTomlThenEnvOverride], the contents its
    TOML file decodes to, and its environment. *)
Definition TestConfig : ty :=
  TStruct [ StructField "Server" "" ""
              (TStruct [ StructField "Port" "" "SERVER_PORT" (TInt 64);
                         StructField "Host" "" "SERVER_HOST" TString ]);
            StructField "Database" "" ""
              (TStruct [ StructField "User" "" "DB_USER" TString;
                         StructField "Password" "" "DB_PASSWORD" TString;
                         StructField "Name" "" "DB_NAME" TString ]) ].

Definition tomlContents : value :=
  VStruct [ VStruct [VInt 1234; VString "from-toml"];
            VStruct [VString "toml-user"; VString "toml-pass";
                     VString "toml-db"] ].

Definition tomlEnv : gmap string string :=
  <["SERVER_PORT" := "5678"]>
    (<["DB_USER" := "env-user"]> (<["DB_PASSWORD" := "env-pass"]> ∅)).

(** The file exists and decodes to [tomlContents]. *)
Definition tomlWorld : World :=
  mkWorld noDecls tomlEnv (fun _ _ => None) testDurations (fun _ => None)
    (fun _ => StatOk false)
    (fun _ a =>
       match a with
       | Any t (VPtr _) => (Any t (VPtr tomlContents), false)
       | _ => (a, true)
       end).

(** The file exists and does not decode. *)
Definition brokenFileWorld : World :=
  mkWorld noDecls ∅ (fun _ _ => None) testDurations (fun _ => None)
    (fun _ => StatOk false) (fun _ a => (a, true)).

(** A record with one optional integer, [P *int `env:"P"`]. *)
Definition OptionalInt : ty :=
  TStruct [ StructField "P" "" "P" (TPtr (Here (TInt 64))) ].

(** A linked record, [type Node struct { Next *Node }]. *)
Definition nodeDecls : string -> list field :=
  fun n =>
    if String.eqb n "Node"
    then [ StructField "Next" "" "" (TPtr (Decl "Node")) ]
    else [].

(** A record with a tagged text field and a tagged list field holding
    earlier values. *)
Definition TextAndList : ty :=
  TStruct [ StructField "Label" "" "LABEL" TString;
            StructField "Tags" "" "TAGS" (TSlice (Here (TInt 64))) ].

Definition textAndListContents : value :=
  VStruct [ VString "before"; VSlice [VInt 7; VInt 8] ].

(** A depth within which the walk from [t] ends, checked by running it. *)
Fixpoint walkDepth (d : string -> list field) (n : nat) (t : ty) : bool :=
  match n with
  | O => false
  | S k =>
      forallb (fun sf =>
                 if exported sf then
                   match descend d (Type_ sf) with
                   | Some t' => walkDepth d k t'
                   | None => true
                   end
                 else true)
              (fieldsOf t)
  end.

(** ** The statements that the code does not bear out, as they are worded *)

(** "A field with no usable binding tag is never changed by the bind
    operation, at any nesting depth; a tagged field whose variable is unset
    keeps exactly its pre-bind value." *)
Definition untagged_or_unset_never_changed : Prop :=
  forall w fuel r v out' err p sf x,
    LoadEnv w fuel (Any (TPtr r) (VPtr v)) = Returned out' err ->
    fieldAt (decls w) (resolve (decls w) r) p = Some sf ->
    noTag (Tag sf) = true \/ getenv w (Tag sf) = None ->
    valueAt (decls w) (resolve (decls w) r) v p = Some x ->
    exists v', out' = Any (TPtr r) (VPtr v') /\
               valueAt (decls w) (resolve (decls w) r) v' p = Some x.

(** "The bind operation terminates for every record type and every
    environment state." *)
Definition bind_always_terminates : Prop :=
  forall w r v,
    kind (resolve (decls w) r) = KStruct ->
    exists fuel, ended (LoadEnv w fuel (Any (TPtr r) (VPtr v))).

(** The two failures of the file stage. *)
Definition fileStageFails (w : World) (file : string) (target : any) : Prop :=
  Stat w file = StatError \/
  (Stat w file = StatOk false /\ snd (DecodeFile w file target) = true).

(** "File-stage failures are propagated to the caller as a returned
    error." *)
Definition file_failure_is_returned : Prop :=
  forall w fuel file target,
    file <> "" -> fileStageFails w file target ->
    exists out e, LoadConfig w fuel file target = Returned out (Some e).

(** What [LoadEnv] rejects: the nil interface, a nil pointer, a pointer to
    something that is not a struct, and anything that is not a pointer. *)
Definition notStructPointer (d : string -> list field) (out : any) : Prop :=
  out = AnyNil \/
  (exists r, out = Any (TPtr r) VNil) \/
  (exists r p, out = Any (TPtr r) (VPtr p) /\ kind (resolve d r) <> KStruct) \/
  (exists t v, out = Any t v /\ kind t <> KPointer).

(** ** Further notions for the properties of the binder *)

(** The errors of the leaf parser: a library parser refused the text, or
    the type has no rule. *)
Definition leafCause (e : error) : Prop :=
  (exists fn s, e = ErrParse fn s) \/ (exists t, e = ErrUnsupported t).

(** The same process with another environment. *)
Definition withEnviron (w : World) (env : gmap string string) : World :=
  mkWorld (decls w) env (ParseFloat w) (ParseDuration w) (ParseRFC3339 w)
    (Stat w) (DecodeFile w).

(** An argument of [LoadEnv] whose contents have the shape of its type. *)
Definition wellShaped (d : string -> list field) (out : any) : bool :=
  match out with
  | AnyNil => true
  | Any t v => hasType d v t
  end.

(** A text without a comma. *)
Fixpoint noComma (s : string) : bool :=
  match s with
  | EmptyString => true
  | String c s' => negb (Ascii.eqb c ","%char) && noComma s'
  end.

(** A list element as [splitComma] returns it: not empty, without a comma,
    and without white space around it. *)
Definition isSegment (s : string) : Prop :=
  s <> "" /\ noComma s = true /\ strings.TrimSpace s = s.

(** The elements joined by commas. *)
Definition joinComma (xs : list string) : string := String.concat "," xs.

(** The rest of a text behind one leading white-space character, for the
    two- and three-byte tests [sp2] and [sp3]; [None] when the text does not
    start with white space. *)
Definition headSpace (sp2 : ascii -> ascii -> bool)
    (sp3 : ascii -> ascii -> ascii -> bool) (s : string) : option string :=
  match s with
  | String c1 r1 =>
      if strings.asciiSpace c1 then Some r1
      else match r1 with
           | String c2 r2 =>
               if sp2 c1 c2 then Some r2
               else match r2 with
                    | String c3 r3 => if sp3 c1 c2 c3 then Some r3 else None
                    | EmptyString => None
                    end
           | EmptyString => None
           end
  | EmptyString => None
  end.

(** ** The binder on storage that may be shared

    A [reflect.Value] is a location, and the Go code writes through the
    pointers that the target already holds ([fv.Elem()] in [loadInto],
    [v.Elem()] in [setValueFromString]).  When two fields of the target
    reach the same storage, a write through one of them is seen through the
    other; trees cannot express that.  Here the storage is a heap of
    objects, a pointer holds an address, and the same functions are written
    on addresses. *)

(** An object of the heap, and a location inside an object: the path of
    field indices (or element indices) from the object to the location, so
    that [&cfg.N] is the address of a field of [cfg]. *)
Abbreviation loc := nat (only parsing).
Abbreviation addr := (nat * list nat)%type (only parsing).

Inductive hval : Type :=
| HString (s : string)
| HBool (b : bool)
| HInt (i : Z)
| HUint (u : Z)
| HFloat (f : Z)
| HTime (t : Time)
| HNil                           (* the nil pointer and the nil slice *)
| HPtr (a : addr)                (* a pointer: the address it points to *)
| HSlice (l : loc)               (* a slice: its backing array, an object *)
| HStruct (fields : list hval)   (* a record, or the elements of an array *)
| HOther.

(** Object [l] of the heap [h] is [h !! l]; allocation appends. *)
Abbreviation heap := (list hval) (only parsing).

Fixpoint hget (x : hval) (p : list nat) : option hval :=
  match p with
  | [] => Some x
  | i :: p' =>
      match x with
      | HStruct xs =>
          match xs !! i with
          | Some y => hget y p'
          | None => None
          end
      | _ => None
      end
  end.

Fixpoint hset (x : hval) (p : list nat) (y : hval) : hval :=
  match p with
  | [] => y
  | i :: p' =>
      match x with
      | HStruct xs =>
          match xs !! i with
          | Some z => HStruct (<[i:=hset z p' y]> xs)
          | None => x
          end
      | _ => x
      end
  end.

(** What the location [a] holds, and the assignment to it. *)
Definition load (h : heap) (a : addr) : option hval :=
  match h !! a.1 with
  | Some o => hget o a.2
  | None => None
  end.

Definition store (h : heap) (a : addr) (y : hval) : heap :=
  match h !! a.1 with
  | Some o => <[a.1:=hset o a.2 y]> h
  | None => h
  end.

(** [reflect.Zero] on the heap. *)
Fixpoint zeroH (t : ty) : hval :=
  match t with
  | TString => HString ""
  | TBool => HBool false
  | TInt _ => HInt 0
  | TUint _ => HUint 0
  | TFloat _ => HFloat 0
  | TDuration => HInt 0
  | TTime => HTime zeroTime
  | TSlice _ => HNil
  | TPtr _ => HNil
  | TStruct fs =>
      HStruct ((fix zeros (l : list field) : list hval :=
                  match l with
                  | [] => []
                  | sf :: l' => zeroH (Type_ sf) :: zeros l'
                  end) fs)
  | TOther _ => HOther
  end.

(** [reflect.New(t)]: a fresh object holding the zero value of [t]. *)
Definition New (h : heap) (t : ty) : loc * heap :=
  (length h, h ++ [zeroH t]).

(** [reflect.MakeSlice(_, n, n)]: a fresh array of [n] zero elements. *)
Definition MakeSlice (h : heap) (t : ty) (n : nat) : loc * heap :=
  (length h, h ++ [HStruct (replicate n (zeroH t))]).

(** The loop of the slice case on the fresh array [l]. *)
Fixpoint fillSliceH (set : addr -> string -> heap -> outcome heap)
    (parts : list string) (l : loc) (i : nat) (h : heap) : outcome heap :=
  match parts with
  | [] => Returned h None
  | p :: rest =>
      match load h (l, [i]) with
      | None => Panicked
      | Some _ =>
          match set (l, [i]) p h with
          | Returned h' None => fillSliceH set rest l (S i) h'
          | o => o
          end
      end
  end.

Definition fromOptionH (fn s : string) (a : addr) (h : heap)
    (parsed : option hval) : outcome heap :=
  match parsed with
  | Some x => Returned (store h a x) None
  | None => Returned h (Some (ErrParse fn s))
  end.

(** What Go passes as [any], with a pointer as the address it holds. *)
Inductive anyH : Type :=
| AnyNilH
| AnyH (t : ty) (x : hval).

Section SharedBinder.

Variable w : World.

(** [toml.DecodeFile] on the heap; [true]: it returned an error. *)
Variable DecodeFileH : string -> anyH -> heap -> heap * bool.

Fixpoint setValueFromStringH (t : ty) (a : addr) (s : string) (h : heap)
    {struct t} : outcome heap :=
  match t with
  | TDuration =>
      fromOptionH "ParseDuration" s a h (HInt <$> ParseDuration w s)
  | TString => Returned (store h a (HString s)) None
  | TBool => fromOptionH "ParseBool" s a h (HBool <$> strconv.ParseBool s)
  | TInt bits =>
      fromOptionH "ParseInt" s a h (HInt <$> strconv.ParseInt s bits)
  | TUint bits =>
      fromOptionH "ParseUint" s a h (HUint <$> strconv.ParseUint s bits)
  | TFloat bits =>
      fromOptionH "ParseFloat" s a h (HFloat <$> ParseFloat w s bits)
  | TSlice r =>
      let set :=
        match r with
        | Here e => setValueFromStringH e
        | Decl _ =>
            fun _ _ h' =>
              Returned h' (Some (ErrUnsupported (resolve (decls w) r)))
        end in
      let parts := splitComma s in
      let (l, h1) := MakeSlice h (resolve (decls w) r) (length parts) in
      match fillSliceH set parts l 0 h1 with
      | Returned h2 None => Returned (store h2 a (HSlice l)) None
      | o => o
      end
  | TPtr r =>
      let set :=
        match r with
        | Here e => setValueFromStringH e
        | Decl _ =>
            fun _ _ h' =>
              Returned h' (Some (ErrUnsupported (resolve (decls w) r)))
        end in
      match load h a with
      | Some HNil =>
          let (l, h1) := New h (resolve (decls w) r) in
          set (l, []) s (store h1 a (HPtr (l, [])))
      | Some (HPtr a') => set a' s h
      | _ => Panicked
      end
  | TTime | TStruct _ | TOther _ => Returned h (Some (ErrUnsupported t))
  end.

Definition bindLeafH (sf : field) (a : addr) (h : heap) : outcome heap :=
  let tag := Tag sf in
  if noTag tag then Returned h None
  else match getenv w tag with
       | Some s =>
           match setValueFromStringH (Type_ sf) a s h with
           | Returned h' (Some err) => Returned h' (Some (fieldErr sf err))
           | o => o
           end
       | None => Returned h None
       end.

(** The body of the loop for an exported field at the address [a]. *)
Definition bindFieldH (loadInto : ty -> addr -> heap -> outcome heap)
    (sf : field) (a : addr) (h : heap) : outcome heap :=
  match Type_ sf with
  | TTime =>
      let tag := Tag sf in
      if negb (noTag tag) then
        match getenv w tag with
        | Some s =>
            match ParseRFC3339 w s with
            | None => Returned h (Some (fieldErr sf (ErrParse "Parse" s)))
            | Some tm => Returned (store h a (HTime tm)) None
            end
        | None => Returned h None
        end
      else Returned h None
  | TStruct _ => loadInto (Type_ sf) a h
  | TPtr r =>
      if Kind_eqb (kind (resolve (decls w) r)) KStruct then
        match load h a with
        | Some HNil =>
            let (l, h1) := New h (resolve (decls w) r) in
            loadInto (resolve (decls w) r) (l, []) (store h1 a (HPtr (l, [])))
        | Some (HPtr a') => loadInto (resolve (decls w) r) a' h
        | _ => Panicked
        end
      else bindLeafH sf a h
  | _ => bindLeafH sf a h
  end.

(** The loop over the fields of the record at the address [a]. *)
Fixpoint loadFieldsH (loadInto : ty -> addr -> heap -> outcome heap)
    (fs : list field) (i : nat) (a : addr) (h : heap) : outcome heap :=
  match fs with
  | [] => Returned h None
  | sf :: rest =>
      if negb (String.eqb (PkgPath sf) "") then
        loadFieldsH loadInto rest (S i) a h
      else match load h (a.1, a.2 ++ [i]) with
           | None => Panicked
           | Some _ =>
               match bindFieldH loadInto sf (a.1, a.2 ++ [i]) h with
               | Returned h' None => loadFieldsH loadInto rest (S i) a h'
               | o => o
               end
           end
  end.

Fixpoint loadIntoH (fuel : nat) (t : ty) (a : addr) (h : heap)
  : outcome heap :=
  match fuel with
  | O => OutOfFuel
  | S k =>
      if Kind_eqb (kind t) KStruct
      then loadFieldsH (loadIntoH k) (fieldsOf t) 0 a h
      else Panicked
  end.

Definition LoadEnvH (fuel : nat) (out : anyH) (h : heap) : outcome heap :=
  match out with
  | AnyNilH => Returned h (Some ErrNilTarget)
  | AnyH t x =>
      match t, x with
      | TPtr r, HPtr a =>
          if negb (Kind_eqb (kind (resolve (decls w) r)) KStruct)
          then Returned h (Some ErrNotStructPointer)
          else loadIntoH fuel (resolve (decls w) r) a h
      | _, _ => Returned h (Some ErrNotStructPointer)
      end
  end.

Definition LoadConfigH (fuel : nat) (configFile : string) (value : anyH)
    (h : heap) : outcome heap :=
  if negb (String.eqb configFile "") then
    match Stat w configFile with
    | StatOk false =>
        match DecodeFileH configFile value h with
        | (_, true) => Exited
        | (h', false) => LoadEnvH fuel value h'
        end
    | StatError => Exited
    | StatOk true | StatNotExist => LoadEnvH fuel value h
    end
  else LoadEnvH fuel value h.

End SharedBinder.

(** The same way out with another result. *)
Definition mapOutcome {S T : Type} (f : S -> T) (o : outcome S) : outcome T :=
  match o with
  | Returned s err => Returned (f s) err
  | Exited => Exited
  | Panicked => Panicked
  | OutOfFuel => OutOfFuel
  end.

(** ** Targets that own their storage *)

(** [repr h x v L]: in the heap [h] the contents [x] unfold to the tree [v],
    every pointer in them pointing to a whole object; [L] lists the objects
    passed on the way, once for each pointer or slice that leads to them. *)
Inductive repr (h : heap) : hval -> value -> list loc -> Prop :=
| repr_string s : repr h (HString s) (VString s) []
| repr_bool b : repr h (HBool b) (VBool b) []
| repr_int i : repr h (HInt i) (VInt i) []
| repr_uint u : repr h (HUint u) (VUint u) []
| repr_float f : repr h (HFloat f) (VFloat f) []
| repr_time t : repr h (HTime t) (VTime t) []
| repr_nil : repr h HNil VNil []
| repr_ptr l o y L :
    h !! l = Some o -> repr h o y L -> repr h (HPtr (l, [])) (VPtr y) (l :: L)
| repr_slice l xs ys L :
    h !! l = Some (HStruct xs) -> reprAll h xs ys L ->
    repr h (HSlice l) (VSlice ys) (l :: L)
| repr_struct xs vs L :
    reprAll h xs vs L -> repr h (HStruct xs) (VStruct vs) L
| repr_other : repr h HOther VOther []
with reprAll (h : heap) : list hval -> list value -> list loc -> Prop :=
| reprAll_nil : reprAll h [] [] []
| reprAll_cons x v L xs vs M :
    repr h x v L -> reprAll h xs vs M ->
    reprAll h (x :: xs) (v :: vs) (L ++ M).

Scheme repr_mut := Minimality for repr Sort Prop
  with reprAll_mut := Minimality for reprAll Sort Prop.

Combined Scheme repr_both from repr_mut, reprAll_mut.

(** The record at the object [l] holds the tree [v] in storage of its own:
    every pointer and every slice in it leads to a whole object, no object
    is reached twice, and none of them is the record itself.  So no pointer
    points into the record or into another object, and no two fields share
    storage.  The tree is determined by the heap. *)
Definition owns (h : heap) (l : loc) (v : value) : Prop :=
  exists o L, h !! l = Some o /\ repr h o v L /\ NoDup (l :: L).

(** How a call on the location [(l, p)] of the heap [h] corresponds to the
    same call on the tree there: the same result, the location holds the
    new tree, and only the objects of the old tree ([L]) and fresh ones
    were written. *)
Definition sim (h : heap) (l : loc) (p : list nat) (o : hval)
    (L : list loc) (ot : outcome value) (oh : outcome heap) : Prop :=
  match ot with
  | Returned v' e =>
      exists h' x' L',
        oh = Returned h' e /\ h' !! l = Some (hset o p x') /\
        repr h' x' v' L' /\ NoDup L' /\
        (forall k, k ∈ L' -> k ∈ L \/ (length h <= k)%nat) /\
        (length h <= length h')%nat /\
        (forall k, (k < length h)%nat -> k <> l -> k ∉ L ->
                   h' !! k = h !! k)
  | Exited => oh = Exited
  | Panicked => oh = Panicked
  | OutOfFuel => oh = OutOfFuel
  end.

(** ** The parsed form of a text, in the specification's words

    Sections 4.1 and 4.2 of the specification give, type by type, the value
    a text stands for: a duration by the duration grammar, a text verbatim,
    a boolean by its tokens, an integer in base 10 within the declared
    width, a float, a timestamp by RFC 3339, a list by splitting on commas,
    trimming the pieces, dropping the empty ones and parsing each remaining
    piece, and an optional reference as a reference to the parsed pointee.
    No other type has a parsed form.  This is written from those rules, not
    from [setValueFromString]. *)
Fixpoint parsedForm (w : World) (t : ty) (s : string) {struct t}
  : option value :=
  match t with
  | TDuration => VInt <$> ParseDuration w s
  | TString => Some (VString s)
  | TBool => VBool <$> strconv.ParseBool s
  | TInt bits => VInt <$> strconv.ParseInt s bits
  | TUint bits => VUint <$> strconv.ParseUint s bits
  | TFloat bits => VFloat <$> ParseFloat w s bits
  | TTime => VTime <$> ParseRFC3339 w s
  | TSlice r =>
      VSlice <$> mapM (match r with
                       | Here e => parsedForm w e
                       | Decl _ => fun _ => None
                       end) (segments s)
  | TPtr r =>
      VPtr <$> match r with
               | Here e => parsedForm w e s
               | Decl _ => None
               end
  | TStruct _ | TOther _ => None
  end.

(** No variable that is set makes the bind fail: every tagged field that
    the walker binds from the record type [t], and whose variable is set,
    has a text that the binder parses. *)
Definition setVariablesParse (w : World) (t : ty) : Prop :=
  forall p sf s,
    fieldAt (decls w) t p = Some sf -> exported sf = true ->
    isLeaf (decls w) (Type_ sf) = true -> noTag (Tag sf) = false ->
    getenv w (Tag sf) = Some s -> parsed w (Type_ sf) s <> None.

(** The same, checked by a walk of the type down to the depth [n]. *)
Fixpoint variablesParse (w : World) (n : nat) (t : ty) : bool :=
  match n with
  | O => false
  | S k =>
      forallb (fun sf =>
                 if exported sf then
                   match descend (decls w) (Type_ sf) with
                   | Some t' => variablesParse w k t'
                   | None =>
                       if noTag (Tag sf) then true
                       else match getenv w (Tag sf) with
                            | Some s =>
                                match parsed w (Type_ sf) s with
                                | Some _ => true
                                | None => false
                                end
                            | None => true
                            end
                   end
                 else true)
              (fieldsOf t)
  end.

(** The dynamic type of an argument of [LoadEnv]. *)
Definition dynType (out : any) : option ty :=
  match out with
  | AnyNil => None
  | Any t _ => Some t
  end.

(** ** Further records and worlds *)

(** A record with one optional timestamp, [Since *time.Time `env:"SINCE"`]. *)
Definition SinceConfig : ty :=
  TStruct [ StructField "Since" "" "SINCE" (TPtr (Here TTime)) ].

(** 2000-01-01T00:00:00Z and 2024-01-02T03:04:05Z. *)
Definition year2000 : Time := mkTime 946684800000000000 0.
Definition year2024 : Time := mkTime 1704164645000000000 0.

(** The file exists and sets [Since] to the year 2000; the variable SINCE
    holds a timestamp of 2024 that [time.Parse] accepts. *)
Definition sinceWorld : World :=
  mkWorld noDecls {[ "SINCE" := "2024-01-02T03:04:05Z" ]}
    (fun _ _ => None) testDurations
    (fun s => if String.eqb s "2024-01-02T03:04:05Z" then Some year2024
              else None)
    (fun _ => StatOk false)
    (fun _ a =>
       match a with
       | Any t (VPtr _) => (Any t (VPtr (VStruct [VPtr (VTime year2000)])), false)
       | _ => (a, true)
       end).

(** A record with an untagged counter and a tagged optional integer,
    [struct { N int64; P *int64 `env:"P"` }]. *)
Definition CounterAndPointer : ty :=
  TStruct [ StructField "N" "" "" (TInt 64);
            StructField "P" "" "P" (TPtr (Here (TInt 64))) ].

(** A record with an unexported record and an exported reference to a
    record of the same type,
    [struct { hidden Inner; Shown *Inner }] with
    [type Inner struct { Value int64 `env:"VALUE"` }]. *)
Definition Inner : ty :=
  TStruct [ StructField "Value" "" "VALUE" (TInt 64) ].

Definition HiddenAndShown : ty :=
  TStruct [ StructField "hidden" "lib" "" Inner;
            StructField "Shown" "" "" (TPtr (Here Inner)) ].

(** The heap of [TestLoadConfigTomlThenEnvOverride] once the file is
    decoded: one object, the record. *)
Definition tomlHeap : list hval :=
  [ HStruct [ HStruct [HInt 1234; HString "from-toml"];
              HStruct [HString "toml-user"; HString "toml-pass";
                       HString "toml-db"] ] ].

(** ** Further statements that the code does not bear out *)

(** "For every record field F with binding tag whose variable is set to
    text B, after LoadConfig on a file assigning F the value A, F equals the
    parsed form of B; and if F's variable is unset, F equals A." *)
Definition environment_always_overrides_file : Prop :=
  forall w fuel file target r vA out' p sf A,
    file <> "" -> Stat w file = StatOk false ->
    DecodeFile w file target = (Any (TPtr r) (VPtr vA), false) ->
    fieldAt (decls w) (resolve (decls w) r) p = Some sf ->
    exported sf = true -> noTag (Tag sf) = false ->
    valueAt (decls w) (resolve (decls w) r) vA p = Some A ->
    LoadConfig w fuel file target = Returned out' None ->
    exists v',
      out' = Any (TPtr r) (VPtr v') /\
      (forall B, getenv w (Tag sf) = Some B ->
         exists x, parsedForm w (Type_ sf) B = Some x /\
                   valueAt (decls w) (resolve (decls w) r) v' p = Some x) /\
      (getenv w (Tag sf) = None ->
         valueAt (decls w) (resolve (decls w) r) v' p = Some A).

(** ** Proof steps

    A concrete heap that is a tree: every object is found by running down
    the record. *)
Ltac owns_tree :=
  eexists _, _; split; [reflexivity|];
  split;
  [ lazymatch goal with
    | |- repr ?h ?o ?v ?L =>
        let v' := eval cbv in v in change (repr h o v' L)
    end;
    repeat econstructor
  | simpl; apply (bool_decide_unpack _); vm_compute; exact I ].

(** ** The library models and the package's tests, run *)

Example Split_ex : strings.Split "1, 2 ,3" ","%char = ["1"; " 2 "; "3"].
Proof. reflexivity. Qed.

Example Split_empty : strings.Split "" ","%char = [""].
Proof. reflexivity. Qed.

Example TrimSpace_ex : strings.TrimSpace "  a b  " = "a b".
Proof. reflexivity. Qed.

Example ParseInt_ex :
  strconv.ParseInt "-128" 8 = Some (-128) /\ strconv.ParseInt "128" 8 = None
  /\ strconv.ParseInt "+7" 64 = Some 7 /\ strconv.ParseInt "1_0" 64 = None.
Proof. repeat split; reflexivity. Qed.


(** [TestLoadEnvNested]. *)
Example TestLoadEnvNested :
  LoadEnv (envWorld noDecls nestedEnv) 3
    (Any (TPtr (Here NestedConfig)) (VPtr (zero NestedConfig)))
  = Returned
      (Any (TPtr (Here NestedConfig))
         (VPtr (VStruct
                  [VStruct
                     [VString "root";
                      VPtr (VStruct [VInt 42; VBool true;
                                     VSlice [VInt 1; VInt 2; VInt 3];
                                     VString "nested"])]])))
      None.
Proof. vm_compute. reflexivity. Qed.

(** [TestLoadEnvDuration]. *)
Example TestLoadEnvDuration :
  LoadEnv (envWorld noDecls durEnv) 1
    (Any (TPtr (Here DurConfig)) (VPtr (zero DurConfig)))
  = Returned
      (Any (TPtr (Here DurConfig))
         (VPtr (VStruct [VInt 5000000000; VInt 150000000; VInt 0])))
      None.
Proof. vm_compute. reflexivity. Qed.

(** [TestLoadConfigTomlThenEnvOverride]. *)
Example TestLoadConfigTomlThenEnvOverride :
  LoadConfig tomlWorld 2 "config.toml"
    (Any (TPtr (Here TestConfig)) (VPtr (zero TestConfig)))
  = Returned
      (Any (TPtr (Here TestConfig))
         (VPtr (VStruct
                  [VStruct [VInt 5678; VString "from-toml"];
                   VStruct [VString "env-user"; VString "env-pass";
                            VString "toml-db"]])))
      None.
Proof. vm_compute. reflexivity. Qed.
(** ** Lemmas *)

Lemma Kind_eqb_eq a b : Kind_eqb a b = true <-> a = b.
Proof.
  destruct a, b; simpl; split; intros H; try reflexivity; discriminate H.
Qed.


Lemma Field_SetField_eq v i x fv :
  Field v i = Some fv -> Field (SetField v i x) i = Some x.
Proof.
  destruct v; simpl; try discriminate. intros H.
  apply list_lookup_insert_eq. eapply lookup_lt_Some; eauto.
Qed.

Lemma Field_SetField_ne v i j x :
  i <> j -> Field (SetField v i x) j = Field v j.
Proof.
  intros Hne. destruct v; simpl; try reflexivity.
  by apply list_lookup_insert_ne.
Qed.

Section Walk.

Variable w : World.
Variable rec : ty -> value -> outcome value.

(** Frame of the loop: a field either keeps its contents or holds what
    [bindField] left there. *)
Lemma loadFields_frame fs : forall i v v' err,
  loadFields w rec fs i v = Returned v' err ->
  forall j,
    Field v' j = Field v j \/
    exists sf fv fv' e,
      (i <= j)%nat /\ fs !! (j - i)%nat = Some sf /\ exported sf = true /\
      Field v j = Some fv /\ bindField w rec sf fv = Returned fv' e /\
      Field v' j = Some fv'.
Proof.
  induction fs as [|sf rest IH]; intros i v v' err H j; simpl in H.
  - left. congruence.
  - fold (exported sf) in H. destruct (exported sf) eqn:Hex; simpl in H.
    + destruct (Field v i) as [fv|] eqn:Hfv; [|discriminate].
      destruct (bindField w rec sf fv) as [fv' [e|]| | |] eqn:Hb;
        try discriminate.
      * injection H as <- <-.
        destruct (decide (j = i)) as [->|Hne].
        -- right. exists sf, fv, fv', (Some e).
           rewrite Nat.sub_diag. simpl.
           repeat split; eauto using Field_SetField_eq.
        -- left. apply Field_SetField_ne. congruence.
      * destruct (IH _ _ _ _ H j) as [Heq|(sf'&fv0&fv0'&e&Hle&Hl&Hx&Hf&Hb'&Hf')].
        -- destruct (decide (j = i)) as [->|Hne].
           ++ right. exists sf, fv, fv', None.
              rewrite Nat.sub_diag. simpl.
              repeat split; eauto.
              rewrite Heq. eauto using Field_SetField_eq.
           ++ left. rewrite Heq. apply Field_SetField_ne. congruence.
        -- right. exists sf', fv0, fv0', e.
           assert (i <> j) by lia.
           rewrite Field_SetField_ne in Hf by assumption.
           replace (j - i)%nat with (S (j - S i)) by lia. simpl.
           repeat split; eauto. lia.
    + destruct (IH _ _ _ _ H j) as [Heq|(sf'&fv0&fv0'&e&Hle&Hl&Hx&Hf&Hb'&Hf')].
      * by left.
      * right. exists sf', fv0, fv0', e.
        replace (j - i)%nat with (S (j - S i)) by lia. simpl.
        repeat split; eauto. lia.
Qed.

(** A loop that returns [nil] has bound every exported field. *)
Lemma loadFields_bound fs : forall i v v',
  loadFields w rec fs i v = Returned v' None ->
  forall k sf,
    fs !! k = Some sf -> exported sf = true ->
    exists fv fv',
      Field v (i + k)%nat = Some fv /\
      bindField w rec sf fv = Returned fv' None /\
      Field v' (i + k)%nat = Some fv'.
Proof.
  induction fs as [|sf0 rest IH]; intros i v v' H k sf Hk Hex; simpl in H.
  - discriminate.
  - fold (exported sf0) in H. destruct k as [|k]; simpl in Hk.
    + injection Hk as ->. rewrite Hex in H. simpl in H.
      destruct (Field v i) as [fv|] eqn:Hfv; [|discriminate].
      destruct (bindField w rec sf fv) as [fv' [e|]| | |] eqn:Hb;
        try discriminate.
      exists fv, fv'. rewrite Nat.add_0_r. repeat split; auto.
      destruct (loadFields_frame _ _ _ _ _ H i)
        as [Heq|(?&?&?&?&Hle&_)]; [|lia].
      rewrite Heq. eauto using Field_SetField_eq.
    + replace (i + S k)%nat with (S i + k)%nat by lia.
      destruct (exported sf0); simpl in H.
      * destruct (Field v i) as [fv|] eqn:Hfv; [|discriminate].
        destruct (bindField w rec sf0 fv) as [fv' [e|]| | |] eqn:Hb;
          try discriminate.
        destruct (IH _ _ _ H k sf Hk Hex) as (x&x'&Hx&Hbx&Hx').
        exists x, x'. repeat split; auto.
        rewrite Field_SetField_ne in Hx by lia. exact Hx.
      * eauto.
Qed.

End Walk.

Lemma fillSlice_ended set parts : forall i slice,
  (forall x p, ended (set x p)) -> ended (fillSlice set parts i slice).
Proof.
  induction parts as [|p rest IH]; intros i slice Hset; simpl; [exact I|].
  destruct (slice !! i) as [x|]; [|exact I].
  pose proof (Hset x p) as Hx.
  destruct (set x p) as [x' [e|]| | |]; simpl in *; auto.
Qed.

(** The leaf parser needs no fuel and never ends the process. *)
Lemma setValueFromString_ended w t : forall v s,
  ended (setValueFromString w t v s).
Proof.
  induction t using ty_mut with
    (P0 := fun r => match r with
                    | Here e => forall v s, ended (setValueFromString w e v s)
                    | Decl _ => True
                    end)
    (P1 := fun _ => True); intros; simpl; auto;
    try (match goal with |- ended (fromOption _ _ _ ?o) => destruct o end;
         exact I).
  - (* slice *)
    match goal with |- ended (match ?f with _ => _ end) =>
      assert (Hf : ended f); [|destruct f as [? [?|]| | |]; simpl in *; auto] end.
    apply fillSlice_ended. destruct elem; simpl; auto.
  - (* pointer *)
    destruct v; simpl; auto; destruct elem; simpl in *;
      try match goal with |- context [setValueFromString w ?e ?x ?s] =>
            specialize (IHt x s); destruct (setValueFromString w e x s) end;
      auto.
Qed.

(** What the leaf parser assigns does not depend on the old contents. *)
Lemma setValueFromString_old w t : forall v s x,
  setValueFromString w t v s = Returned x None ->
  setValueFromString w t (zero t) s = Returned x None.
Proof.
  induction t using ty_mut with
    (P0 := fun r => match r with
                    | Here e => forall v s x,
                        setValueFromString w e v s = Returned x None ->
                        setValueFromString w e (zero e) s = Returned x None
                    | Decl _ => True
                    end)
    (P1 := fun _ => True); intros; simpl in *; auto;
    try (match goal with H : fromOption _ _ _ ?o = _ |- _ =>
           destruct o; simpl in *; [exact H | discriminate H] end);
    try discriminate.
  - (* slice *)
    match goal with H : match ?f with _ => _ end = _ |- _ =>
      destruct f as [? [?|]| | |]; try discriminate H; exact H end.
  - (* pointer *)
    destruct v; try discriminate; try exact H.
    destruct elem as [e|n]; simpl in *.
    + destruct (setValueFromString w e v s) as [x' [err|]| | |] eqn:He;
        try discriminate.
      injection H as <-. by rewrite (IHt _ _ _ He).
    + discriminate.
  - eauto.
Qed.

Section Fuel.

Variable w : World.

Lemma bindLeaf_ended sf fv : ended (bindLeaf w sf fv).
Proof.
  unfold bindLeaf. destruct (noTag (Tag sf)); [exact I|].
  destruct (getenv w (Tag sf)) as [s|]; [|exact I].
  pose proof (setValueFromString_ended w (Type_ sf) fv s) as H.
  destruct (setValueFromString w (Type_ sf) fv s) as [? [?|]| | |]; auto.
Qed.

Lemma bindField_ended rec sf fv :
  (forall t' y, descend (decls w) (Type_ sf) = Some t' -> ended (rec t' y)) ->
  ended (bindField w rec sf fv).
Proof.
  intros Hrec. unfold bindField.
  destruct (Type_ sf) eqn:Ht; try apply bindLeaf_ended.
  - destruct (negb (noTag (Tag sf))); [|exact I].
    destruct (getenv w (Tag sf)); [|exact I].
    destruct (ParseRFC3339 w s); exact I.
  - simpl in Hrec. destruct (Kind_eqb (kind (resolve (decls w) elem)) KStruct).
    + assert (Hy : forall y, ended (rec (resolve (decls w) elem) y))
        by (intros; by apply Hrec).
      destruct fv; try exact I.
      * specialize (Hy (zero (resolve (decls w) elem))).
        destruct (rec _ _); auto.
      * specialize (Hy fv). destruct (rec _ _); auto.
    + destruct fv; apply bindLeaf_ended.
  - apply Hrec. reflexivity.
Qed.

Lemma loadFields_ended rec fs : forall i v,
  (forall k sf t' y,
      fs !! k = Some sf -> exported sf = true ->
      descend (decls w) (Type_ sf) = Some t' -> ended (rec t' y)) ->
  ended (loadFields w rec fs i v).
Proof.
  induction fs as [|sf rest IH]; intros i v Hrec; simpl; [exact I|].
  fold (exported sf). destruct (exported sf) eqn:Hex; simpl.
  - destruct (Field v i) as [fv|]; [|exact I].
    assert (Hb : ended (bindField w rec sf fv)).
    { apply bindField_ended. intros t' y Hd. by apply (Hrec 0%nat sf). }
    destruct (bindField w rec sf fv) as [fv' [e|]| | |]; auto.
    apply IH. intros k sf' t' y Hk. by apply (Hrec (S k)).
  - apply IH. intros k sf' t' y Hk. by apply (Hrec (S k)).
Qed.

(** More fuel does not change a call that ended. *)
Lemma bindField_more rec1 rec2 sf fv :
  (forall t v, ended (rec1 t v) -> rec2 t v = rec1 t v) ->
  ended (bindField w rec1 sf fv) ->
  bindField w rec2 sf fv = bindField w rec1 sf fv.
Proof.
  intros Hrec. unfold bindField.
  destruct (Type_ sf) eqn:Ht; try reflexivity.
  - destruct (Kind_eqb (kind (resolve (decls w) elem)) KStruct); [|reflexivity].
    destruct fv; try reflexivity.
    + intros H. rewrite Hrec; [reflexivity|]. destruct (rec1 _ _); auto.
    + intros H. rewrite Hrec; [reflexivity|]. destruct (rec1 _ _); auto.
  - apply Hrec.
Qed.

Lemma loadFields_more rec1 rec2 fs :
  (forall t v, ended (rec1 t v) -> rec2 t v = rec1 t v) ->
  forall i v,
    ended (loadFields w rec1 fs i v) ->
    loadFields w rec2 fs i v = loadFields w rec1 fs i v.
Proof.
  intros Hrec. induction fs as [|sf rest IH]; intros i v; simpl; [reflexivity|].
  destruct (negb (PkgPath sf =? "")%string); [apply IH|].
  destruct (Field v i) as [fv|]; [|reflexivity].
  intros H. rewrite (bindField_more rec1 rec2 sf fv Hrec).
  - destruct (bindField w rec1 sf fv) as [fv' [e|]| | |]; auto.
  - destruct (bindField w rec1 sf fv) as [fv' [e|]| | |]; simpl in *; auto.
Qed.

Lemma loadInto_S k : forall t v,
  ended (loadInto w k t v) -> loadInto w (S k) t v = loadInto w k t v.
Proof.
  induction k as [|k IH]; intros t v H; [destruct H|].
  change (loadInto w (S (S k)) t v) with
    (if Kind_eqb (kind t) KStruct
     then loadFields w (loadInto w (S k)) (fieldsOf t) 0 v else Panicked).
  change (loadInto w (S k) t v) with
    (if Kind_eqb (kind t) KStruct
     then loadFields w (loadInto w k) (fieldsOf t) 0 v else Panicked) in *.
  destruct (Kind_eqb (kind t) KStruct); [|reflexivity].
  by apply loadFields_more.
Qed.

Lemma loadInto_more k k' t v :
  (k <= k')%nat -> ended (loadInto w k t v) ->
  loadInto w k' t v = loadInto w k t v.
Proof.
  induction 1 as [|k' Hle IH]; intros H; [reflexivity|].
  rewrite <- (IH H). apply loadInto_S. rewrite (IH H). exact H.
Qed.

End Fuel.

(** One bound serves every field of a list. *)
Lemma uniform_bound (d : string -> list field) (Q : nat -> ty -> Prop)
    (fs : list field) :
  (forall n n' t, (n <= n')%nat -> Q n t -> Q n' t) ->
  (forall i sf t', fs !! i = Some sf -> exported sf = true ->
                   descend d (Type_ sf) = Some t' -> exists n, Q n t') ->
  exists N, forall i sf t', fs !! i = Some sf -> exported sf = true ->
                            descend d (Type_ sf) = Some t' -> Q N t'.
Proof.
  intros Hmono. induction fs as [|sf rest IH]; intros H.
  - exists 0%nat. intros i sf t' Hi. discriminate Hi.
  - destruct IH as [N HN].
    { intros i sf' t' Hi. apply (H (S i)). exact Hi. }
    destruct (exported sf) eqn:Hex.
    + destruct (descend d (Type_ sf)) as [t0|] eqn:Hd.
      * destruct (H 0%nat sf t0 eq_refl Hex Hd) as [n Hn].
        exists (Nat.max n N). intros [|i] sf' t' Hi Hex' Hd'; simpl in Hi.
        -- injection Hi as <-. rewrite Hd in Hd'. injection Hd' as <-.
           eapply Hmono; [|exact Hn]. lia.
        -- eapply Hmono; [|eapply HN; eauto]. lia.
      * exists N. intros [|i] sf' t' Hi Hex' Hd'; simpl in Hi.
        -- injection Hi as <-. congruence.
        -- eauto.
    + exists N. intros [|i] sf' t' Hi Hex' Hd'; simpl in Hi.
      * injection Hi as <-. congruence.
      * eauto.
Qed.

(** A finite walk ends within a depth that depends on the type alone. *)
Lemma finiteWalk_ended d t :
  finiteWalk d t ->
  exists n, forall w v, decls w = d -> ended (loadInto w n t v).
Proof.
  induction 1 as [t _ IH].
  destruct (uniform_bound d
              (fun n t' => forall w v, decls w = d -> ended (loadInto w n t' v))
              (fieldsOf t)) as [N HN].
  - intros n n' t' Hle Hn w v Hw.
    rewrite (loadInto_more w n n' t' v Hle); auto.
  - exact IH.
  - exists (S N). intros w v Hw. simpl.
    destruct (Kind_eqb (kind t) KStruct); [|exact I].
    apply loadFields_ended. intros k sf t' y Hk Hex Hd.
    rewrite Hw in Hd. eapply HN; eauto.
Qed.

Section Paths.

Variable w : World.

(** Where the walker recurses, [bindField] is the recursive call on the
    contents it enters. *)
Lemma bindField_descend rec sf fv fv' err t' :
  descend (decls w) (Type_ sf) = Some t' ->
  bindField w rec sf fv = Returned fv' err ->
  exists y y',
    rec t' y = Returned y' err /\ enter (Type_ sf) fv' = Some y' /\
    (forall y0, enter (Type_ sf) fv = Some y0 -> y0 = y).
Proof.
  unfold bindField, descend. destruct (Type_ sf) eqn:Ht; try discriminate.
  - destruct (Kind_eqb (kind (resolve (decls w) elem)) KStruct);
      [|discriminate].
    intros [= <-] H. destruct fv; try discriminate H.
    + destruct (rec _ _) as [p' e| | |] eqn:Hr; try discriminate H.
      injection H as <- <-. eexists _, p'. simpl. repeat split; eauto.
      discriminate.
    + destruct (rec _ _) as [p' e| | |] eqn:Hr; try discriminate H.
      injection H as <- <-. exists fv, p'. simpl. repeat split; eauto.
      congruence.
  - intros [= <-] H. exists fv, fv'. simpl. repeat split; auto. congruence.
Qed.

(** After a bind that returned [nil], every field reached through exported
    fields holds what [bindField] made of its earlier contents. *)
Lemma loadInto_bound_at : forall p fuel t v v',
  loadInto w fuel t v = Returned v' None ->
  forall sf, fieldAt (decls w) t p = Some sf -> exported sf = true ->
  exists k fv fv',
    bindField w (loadInto w k) sf fv = Returned fv' None /\
    valueAt (decls w) t v' p = Some fv' /\
    (forall x, valueAt (decls w) t v p = Some x -> x = fv).
Proof.
  induction p as [|i p' IH]; intros fuel t v v' H sf Hat Hex;
    [discriminate|].
  destruct fuel as [|k]; [discriminate|]. simpl in H.
  destruct (Kind_eqb (kind t) KStruct); [|discriminate].
  simpl in Hat. simpl valueAt.
  destruct (fieldsOf t !! i) as [sfi|] eqn:Hi; [|discriminate].
  destruct p' as [|i' p''].
  - injection Hat as ->.
    destruct (loadFields_bound w _ _ _ _ _ H i sf Hi Hex)
      as (fv&fv'&Hfv&Hb&Hfv'). simpl in Hfv, Hfv'.
    exists k, fv, fv'. rewrite Hfv, Hfv'. repeat split; auto. congruence.
  - destruct (exported sfi) eqn:Hexi; [|discriminate].
    destruct (descend (decls w) (Type_ sfi)) as [t'|] eqn:Hd; [|discriminate].
    destruct (loadFields_bound w _ _ _ _ _ H i sfi Hi Hexi)
      as (fv&fv'&Hfv&Hb&Hfv'). simpl in Hfv, Hfv'.
    destruct (bindField_descend _ _ _ _ _ _ Hd Hb) as (y&y'&Hr&Hy'&Hy).
    destruct (IH _ _ _ _ Hr sf Hat Hex) as (k'&x&x'&Hbx&Hvx&Hx).
    exists k', x, x'. rewrite Hfv, Hfv', Hy'. repeat split; auto.
    intros x0. destruct (enter (Type_ sfi) fv) as [y0|]; [|discriminate].
    rewrite (Hy y0 eq_refl). apply Hx.
Qed.

(** A field that [bindField] leaves alone keeps its contents through the
    whole bind, whether the bind returns [nil] or an error. *)
Lemma loadInto_frame_at : forall p fuel t v v' err,
  loadInto w fuel t v = Returned v' err ->
  forall sf x,
    fieldAt (decls w) t p = Some sf ->
    (forall rec fv fv' e,
        bindField w rec sf fv = Returned fv' e -> fv' = fv) ->
    valueAt (decls w) t v p = Some x ->
    valueAt (decls w) t v' p = Some x.
Proof.
  induction p as [|i p' IH]; intros fuel t v v' err H sf x Hat Hin Hv;
    [discriminate|].
  destruct fuel as [|k]; [discriminate|]. simpl in H.
  destruct (Kind_eqb (kind t) KStruct); [|discriminate].
  simpl in Hat, Hv. simpl valueAt.
  destruct (fieldsOf t !! i) as [sfi|] eqn:Hi; [|discriminate].
  destruct (loadFields_frame w _ _ _ _ _ _ H i)
    as [Heq|(sf'&fv&fv'&e&_&Hl&Hex&Hfv&Hb&Hfv')].
  - rewrite Heq. exact Hv.
  - rewrite Nat.sub_0_r, Hi in Hl. injection Hl as <-.
    rewrite Hfv in Hv. rewrite Hfv'.
    destruct p' as [|i' p''].
    + injection Hat as ->. rewrite (Hin _ _ _ _ Hb). exact Hv.
    + rewrite Hex in *.
      destruct (descend (decls w) (Type_ sfi)) as [t'|] eqn:Hd;
        [|discriminate].
      destruct (bindField_descend _ _ _ _ _ _ Hd Hb) as (y&y'&Hr&Hy'&Hy).
      rewrite Hy'.
      destruct (enter (Type_ sfi) fv) as [y0|]; [|discriminate].
      rewrite (Hy y0 eq_refl) in Hv. eapply IH; eauto.
Qed.

(** A leaf without a usable tag, or whose variable is unset, is left
    alone. *)
Lemma bindField_inert rec sf fv :
  isLeaf (decls w) (Type_ sf) = true ->
  noTag (Tag sf) = true \/ getenv w (Tag sf) = None ->
  bindField w rec sf fv = Returned fv None.
Proof.
  unfold isLeaf, descend, bindField, bindLeaf. intros Hleaf Htag.
  destruct (Type_ sf) eqn:Ht; try discriminate Hleaf;
    try (destruct Htag as [-> | ->]; [reflexivity|];
         destruct (noTag (Tag sf)); reflexivity).
  destruct (Kind_eqb (kind (resolve (decls w) elem)) KStruct);
    [discriminate|].
  replace (match fv with VNil => fv | _ => fv end) with fv
    by (destruct fv; reflexivity).
  destruct Htag as [-> | ->]; [reflexivity|].
  destruct (noTag (Tag sf)); reflexivity.
Qed.

(** [LoadEnv] on a pointer to contents [v]. *)
Lemma LoadEnv_Returned fuel r v out' err :
  LoadEnv w fuel (Any (TPtr r) (VPtr v)) = Returned out' err ->
  (exists v', loadInto w fuel (resolve (decls w) r) v = Returned v' err /\
              out' = Any (TPtr r) (VPtr v')) \/
  (out' = Any (TPtr r) (VPtr v) /\ err = Some ErrNotStructPointer).
Proof.
  unfold LoadEnv, elemKind.
  destruct (Kind_eqb (kind (resolve (decls w) r)) KStruct); simpl.
  - destruct (loadInto w fuel (resolve (decls w) r) v) as [v' e| | |];
      try discriminate.
    intros [= <- <-]. left. eauto.
  - intros [= <- <-]. right. auto.
Qed.

End Paths.

(** ** The list case of the leaf parser *)

(** The loop of [splitComma] collects the segments of the text. *)
Lemma splitComma_segments s : splitComma s = segments s.
Proof.
  unfold splitComma, segments.
  assert (H : forall (raw acc : list string),
             foldl (fun (out : list string) r =>
                      let r := strings.TrimSpace r in
                      if negb (String.eqb r "") then (out ++ [r])%list else out)
                   acc raw
             = (acc ++ List.filter (fun r => negb (String.eqb r ""))
                         (List.map strings.TrimSpace raw))%list).
  { induction raw as [|r raw IH]; intros acc; simpl.
    - by rewrite app_nil_r.
    - rewrite IH. destruct (negb (strings.TrimSpace r =? "")%string); simpl.
      + by rewrite <- app_assoc.
      + reflexivity. }
  apply H.
Qed.

(** The loop over the parts, started behind the elements [done] on a slice
    whose remaining elements are all [z]. *)
Lemma fillSlice_spec set z parts : forall done sl,
  fillSlice set parts (length done) (done ++ replicate (length parts) z)
    = Returned sl None
  <-> exists xs,
        Forall2 (fun p x => set z p = Returned x None) parts xs /\
        sl = (done ++ xs)%list.
Proof.
  induction parts as [|p rest IH]; intros done sl; simpl.
  - rewrite app_nil_r. split.
    + intros [= <-]. exists []. split; [constructor|by rewrite app_nil_r].
    + intros (xs&Hxs&->). apply Forall2_nil_inv_l in Hxs as ->.
      by rewrite app_nil_r.
  - rewrite list_lookup_middle by reflexivity.
    destruct (set z p) as [x' [e|]| | |] eqn:Hset.
    + split; [discriminate|].
      intros (xs&Hxs&_). apply Forall2_cons_inv_l in Hxs as (?&?&?&_).
      congruence.
    + replace (<[length done:=x']> (done ++ z :: replicate (length rest) z))
        with ((done ++ [x']) ++ replicate (length rest) z)%list.
      2:{ rewrite <- (Nat.add_0_r (length done)) at 1.
          rewrite insert_app_r. simpl. by rewrite <- app_assoc. }
      replace (S (length done)) with (length (done ++ [x']))
        by (rewrite length_app; simpl; lia).
      rewrite IH. split.
      * intros (xs&Hxs&->). exists (x' :: xs). split.
        -- by constructor.
        -- by rewrite <- app_assoc.
      * intros (xs&Hxs&->).
        apply Forall2_cons_inv_l in Hxs as (x0&xs0&Hx0&Hxs0&->).
        exists xs0. split; [exact Hxs0|].
        rewrite Hset in Hx0. injection Hx0 as <-. by rewrite <- app_assoc.
    + split; [discriminate|].
      intros (xs&Hxs&_). apply Forall2_cons_inv_l in Hxs as (?&?&?&_).
      congruence.
    + split; [discriminate|].
      intros (xs&Hxs&_). apply Forall2_cons_inv_l in Hxs as (?&?&?&_).
      congruence.
    + split; [discriminate|].
      intros (xs&Hxs&_). apply Forall2_cons_inv_l in Hxs as (?&?&?&_).
      congruence.
Qed.

(** The slice case assigns exactly the parsed segments, in order. *)
Lemma setValueFromString_slice w e v s xs :
  setValueFromString w (TSlice (Here e)) v s = Returned (VSlice xs) None
  <-> Forall2 (fun seg x => setValueFromString w e (zero e) seg = Returned x None)
        (segments s) xs.
Proof.
  simpl. rewrite splitComma_segments.
  pose proof (fillSlice_spec (setValueFromString w e) (zero e) (segments s) [])
    as Hspec. simpl in Hspec.
  assert (Hback : forall xs0,
             Forall2 (fun seg x =>
                        setValueFromString w e (zero e) seg = Returned x None)
                     (segments s) xs0 ->
             fillSlice (setValueFromString w e) (segments s) 0
               (replicate (length (segments s)) (zero e)) = Returned xs0 None).
  { intros xs0 Hxs0. apply Hspec. eauto. }
  destruct (fillSlice (setValueFromString w e) (segments s) 0
              (replicate (length (segments s)) (zero e)))
    as [sl [err|]| | |] eqn:Hfill;
    try (split; [discriminate | intros Hxs; discriminate (Hback xs Hxs)]).
  split.
  - intros [= <-]. destruct (proj1 (Hspec sl) eq_refl) as (ys&Hys&->).
    exact Hys.
  - intros Hxs. by injection (Hback xs Hxs) as ->.
Qed.

(** ** Well-shaped contents never make [reflect] panic *)

Lemma zero_hasType d : forall t, hasType d (zero t) t = true.
Proof.
  fix IH 1. intros t. destruct t; simpl; try reflexivity.
  induction fields as [|sf fs IHfs]; simpl; [reflexivity|].
  destruct sf as [n p g t0]. simpl. by rewrite IH, IHfs.
Qed.

Lemma hasType_struct d vs fs :
  hasType d (VStruct vs) (TStruct fs) = true ->
  forall k sf, fs !! k = Some sf ->
    exists x, vs !! k = Some x /\ hasType d x (Type_ sf) = true.
Proof.
  simpl. revert fs. induction vs as [|x vs IH]; intros [|sf0 fs] H k sf Hk;
    try discriminate.
  apply andb_prop in H as [Hx Hrest].
  destruct k as [|k]; simpl in *.
  - injection Hk as <-. eauto.
  - eauto.
Qed.

Lemma fillSlice_no_panic set z parts : forall done,
  (forall p, set z p <> Panicked) ->
  fillSlice set parts (length done) (done ++ replicate (length parts) z)
  <> Panicked.
Proof.
  induction parts as [|p rest IH]; intros done Hset; simpl; [discriminate|].
  rewrite list_lookup_middle by reflexivity.
  pose proof (Hset p) as Hp.
  destruct (set z p) as [x' [e|]| | |]; try discriminate; try contradiction.
  replace (<[length done:=x']> (done ++ z :: replicate (length rest) z))
    with ((done ++ [x']) ++ replicate (length rest) z).
  2:{ rewrite <- (Nat.add_0_r (length done)) at 1.
      rewrite insert_app_r. simpl. by rewrite <- app_assoc. }
  replace (S (length done)) with (length (done ++ [x']))
    by (rewrite length_app; simpl; lia).
  by apply IH.
Qed.

Lemma setValueFromString_no_panic w t : forall v s,
  hasType (decls w) v t = true -> setValueFromString w t v s <> Panicked.
Proof.
  induction t using ty_mut with
    (P0 := fun r => match r with
                    | Here e => forall v s,
                        hasType (decls w) v e = true ->
                        setValueFromString w e v s <> Panicked
                    | Decl _ => True
                    end)
    (P1 := fun _ => True); intros; simpl; auto; try discriminate;
    try (match goal with |- fromOption _ _ _ ?o <> _ => destruct o end;
         discriminate).
  - (* slice *)
    match goal with |- match ?f with _ => _ end <> _ =>
      assert (Hf : f <> Panicked);
        [|destruct f as [? [?|]| | |]; try discriminate; contradiction] end.
    apply (fillSlice_no_panic _ _ _ []).
    destruct elem as [e|n]; simpl in *; [|discriminate].
    intros p. apply IHt. apply zero_hasType.
  - (* pointer *)
    destruct v; try discriminate H; destruct elem as [e|n]; simpl in *;
      try discriminate.
    + pose proof (IHt (zero e) s (zero_hasType _ e)) as Hz.
      destruct (setValueFromString w e (zero e) s); try discriminate.
      contradiction.
    + pose proof (IHt v s H) as Hv.
      destruct (setValueFromString w e v s); try discriminate.
      contradiction.
Qed.

Section NoPanic.

Variable w : World.
Variable rec : ty -> value -> outcome value.
Hypothesis rec_no_panic : forall t y,
  kind t = KStruct -> hasType (decls w) y t = true -> rec t y <> Panicked.

Lemma bindLeaf_no_panic sf fv :
  hasType (decls w) fv (Type_ sf) = true -> bindLeaf w sf fv <> Panicked.
Proof.
  intros H. unfold bindLeaf. destruct (noTag (Tag sf)); [discriminate|].
  destruct (getenv w (Tag sf)) as [s|]; [|discriminate].
  pose proof (setValueFromString_no_panic w _ _ s H) as Hs.
  destruct (setValueFromString w (Type_ sf) fv s) as [? [?|]| | |];
    try discriminate. contradiction.
Qed.

Lemma bindField_no_panic sf fv :
  hasType (decls w) fv (Type_ sf) = true -> bindField w rec sf fv <> Panicked.
Proof.
  intros H. pose proof (bindLeaf_no_panic sf fv H) as Hleaf.
  unfold bindField. destruct (Type_ sf) eqn:Ht; try exact Hleaf.
  - destruct (negb (noTag (Tag sf))); [|discriminate].
    destruct (getenv w (Tag sf)); [|discriminate].
    destruct (ParseRFC3339 w s); discriminate.
  - destruct (Kind_eqb (kind (resolve (decls w) elem)) KStruct) eqn:Hk.
    + apply Kind_eqb_eq in Hk.
      destruct fv; try discriminate H.
      * pose proof (rec_no_panic _ _ Hk (zero_hasType (decls w) _)) as Hz.
        destruct (rec _ _); try discriminate. contradiction.
      * pose proof (rec_no_panic _ _ Hk H) as Hv.
        destruct (rec _ _); try discriminate. contradiction.
    + by destruct fv.
  - apply rec_no_panic; [reflexivity|exact H].
Qed.

Lemma loadFields_no_panic fs : forall i vs,
  (forall k sf, fs !! k = Some sf ->
     exists x, vs !! (i + k)%nat = Some x /\
               hasType (decls w) x (Type_ sf) = true) ->
  loadFields w rec fs i (VStruct vs) <> Panicked.
Proof.
  induction fs as [|sf rest IH]; intros i vs Hty; simpl; [discriminate|].
  assert (Hrest : forall x', forall k sf',
             rest !! k = Some sf' ->
             exists x, <[i:=x']> vs !! (S i + k)%nat = Some x /\
                       hasType (decls w) x (Type_ sf') = true).
  { intros x' k sf' Hk. destruct (Hty (S k) sf' Hk) as (x&Hx&Hxt).
    exists x. split; [|exact Hxt].
    rewrite list_lookup_insert_ne by lia.
    by replace (S i + k)%nat with (i + S k)%nat by lia. }
  destruct (negb (PkgPath sf =? "")%string).
  - apply IH. intros k sf' Hk. destruct (Hty (S k) sf' Hk) as (x&Hx&Hxt).
    exists x. by replace (S i + k)%nat with (i + S k)%nat by lia.
  - destruct (Hty 0%nat sf eq_refl) as (x&Hx&Hxt).
    rewrite Nat.add_0_r in Hx. rewrite Hx.
    pose proof (bindField_no_panic sf x Hxt) as Hb.
    destruct (bindField w rec sf x) as [fv' [e|]| | |]; try discriminate;
      try contradiction.
    simpl. apply IH. apply Hrest.
Qed.

End NoPanic.

Lemma loadInto_no_panic w fuel : forall t v,
  kind t = KStruct -> hasType (decls w) v t = true ->
  loadInto w fuel t v <> Panicked.
Proof.
  induction fuel as [|k IH]; intros t v Hk Hty; [discriminate|].
  simpl. apply Kind_eqb_eq in Hk. rewrite Hk.
  destruct t; try discriminate Hk.
  - destruct v; discriminate.
  - destruct v; try discriminate Hty.
    apply loadFields_no_panic; [exact IH|].
    intros j sf Hj. apply (hasType_struct _ _ _ Hty j sf Hj).
Qed.
(** ** Locations inside an object *)

Lemma hget_app x : forall p q,
  hget x (p ++ q) = match hget x p with Some y => hget y q | None => None end.
Proof.
  revert x. fix IH 2. intros x [|i p] q; simpl; [reflexivity|].
  destruct x; try reflexivity.
  destruct (fields !! i); [apply IH|reflexivity].
Qed.

Lemma hset_app : forall p x q y z,
  hget x p = Some z -> hset x (p ++ q) y = hset x p (hset z q y).
Proof.
  induction p as [|i p IH]; intros x q y z H; simpl in *.
  - by injection H as ->.
  - destruct x; try discriminate.
    destruct (fields !! i) as [x'|]; [|discriminate].
    by rewrite (IH x' q y z H).
Qed.

Lemma hget_hset : forall p x y z,
  hget x p = Some z -> hget (hset x p y) p = Some y.
Proof.
  induction p as [|i p IH]; intros x y z H; simpl in *; [reflexivity|].
  destruct x; try discriminate.
  destruct (fields !! i) as [x'|] eqn:Hi; [|discriminate].
  simpl. rewrite list_lookup_insert_eq by (eapply lookup_lt_Some; eauto).
  eauto.
Qed.

Lemma hset_hset : forall p x y y' z,
  hget x p = Some z -> hset (hset x p y) p y' = hset x p y'.
Proof.
  induction p as [|i p IH]; intros x y y' z H; simpl in *; [reflexivity|].
  destruct x; try discriminate.
  destruct (fields !! i) as [x'|] eqn:Hi; [|discriminate].
  simpl. rewrite list_lookup_insert_eq by (eapply lookup_lt_Some; eauto).
  rewrite list_insert_insert_eq. by rewrite (IH x' y y' z H).
Qed.

Lemma hset_hget : forall p x z, hget x p = Some z -> hset x p z = x.
Proof.
  induction p as [|i p IH]; intros x z H; simpl in *.
  - by injection H.
  - destruct x; try discriminate.
    destruct (fields !! i) as [x'|] eqn:Hi; [|discriminate].
    rewrite (IH x' z H). by rewrite list_insert_id.
Qed.

Lemma hget_elem o p xs i :
  hget o p = Some (HStruct xs) -> hget o (p ++ [i]) = xs !! i.
Proof.
  intros H. rewrite hget_app, H. simpl. by destruct (xs !! i).
Qed.

Lemma hset_elem o p xs i z y :
  hget o p = Some (HStruct xs) -> xs !! i = Some z ->
  hset o (p ++ [i]) y = hset o p (HStruct (<[i:=y]> xs)).
Proof.
  intros H Hi. rewrite (hset_app p o [i] y _ H). simpl. by rewrite Hi.
Qed.

Lemma load_store h l p o y :
  h !! l = Some o -> store h (l, p) y !! l = Some (hset o p y).
Proof.
  intros H. unfold store. simpl. rewrite H.
  apply list_lookup_insert_eq. eapply lookup_lt_Some; eauto.
Qed.

Lemma store_other h l p y k : k <> l -> store h (l, p) y !! k = h !! k.
Proof.
  intros H. unfold store. simpl. destruct (h !! l); [|reflexivity].
  by apply list_lookup_insert_ne.
Qed.

Lemma store_length h a y : length (store h a y) = length h.
Proof.
  unfold store. destruct (h !! a.1); [|reflexivity].
  apply length_insert.
Qed.

(** ** Trees in the heap *)

Lemma repr_dom h :
  (forall x v L, repr h x v L -> forall k, k ∈ L -> (k < length h)%nat) /\
  (forall xs vs L, reprAll h xs vs L -> forall k, k ∈ L -> (k < length h)%nat).
Proof.
  apply repr_both; intros;
    repeat match goal with
           | H : _ ∈ [] |- _ => by apply elem_of_nil in H
           | H : _ ∈ _ :: _ |- _ => apply elem_of_cons in H as [->|?]
           | H : _ ∈ _ ++ _ |- _ => apply elem_of_app in H as [?|?]
           end; eauto using lookup_lt_Some.
Qed.

Lemma repr_frame h h' :
  (forall x v L, repr h x v L ->
     (forall k, k ∈ L -> h' !! k = h !! k) -> repr h' x v L) /\
  (forall xs vs L, reprAll h xs vs L ->
     (forall k, k ∈ L -> h' !! k = h !! k) -> reprAll h' xs vs L).
Proof.
  apply repr_both; intros; try (by constructor).
  - econstructor; [rewrite H2; [eassumption|apply elem_of_cons; auto]|].
    apply H1. intros. apply H2. apply elem_of_cons. auto.
  - econstructor; [rewrite H2; [eassumption|apply elem_of_cons; auto]|].
    apply H1. intros. apply H2. apply elem_of_cons. auto.
  - constructor. auto.
  - constructor; [apply H0|apply H2]; intros; apply H3; apply elem_of_app;
      auto.
Qed.

Lemma reprAll_length h xs vs L :
  reprAll h xs vs L -> length xs = length vs.
Proof. induction 1; simpl; congruence. Qed.

Lemma repr_zero h : forall t, repr h (zeroH t) (zero t) [].
Proof.
  fix IH 1. intros [ | | | | | | | | |fs| ]; simpl; try constructor.
  induction fs as [|sf fs IHfs]; [constructor|].
  apply (reprAll_cons h _ _ [] _ _ []); [apply IH|exact IHfs].
Qed.

Lemma reprAll_replicate h n x v :
  repr h x v [] -> reprAll h (replicate n x) (replicate n v) [].
Proof.
  intros H. induction n as [|n IH]; simpl; [constructor|].
  by apply (reprAll_cons h _ _ [] _ _ []).
Qed.

(** One element of a block: its tree and its objects, and what the block is
    once the element holds another tree. *)
Lemma reprAll_lookup h xs vs M :
  reprAll h xs vs M -> forall i x,
  xs !! i = Some x ->
  exists v L M1 M2,
    vs !! i = Some v /\ repr h x v L /\ M = M1 ++ L ++ M2 /\
    forall h' x' v' L',
      repr h' x' v' L' ->
      (forall k, k ∈ M1 ++ M2 -> h' !! k = h !! k) ->
      reprAll h' (<[i:=x']> xs) (<[i:=v']> vs) (M1 ++ L' ++ M2).
Proof.
  induction 1 as [|x0 v0 L0 xs vs M Hx Hxs IH]; intros i x Hi;
    [discriminate|].
  destruct i as [|i]; simpl in Hi.
  - injection Hi as ->. exists v0, L0, [], M. repeat split; auto.
    intros h' x' v' L' Hx' Hsame. simpl. constructor; [exact Hx'|].
    eapply repr_frame; eauto.
  - destruct (IH i x Hi) as (v&L&M1&M2&Hv&Hr&->&Hupd).
    exists v, L, (L0 ++ M1), M2. repeat split; auto.
    + by rewrite <- app_assoc.
    + intros h' x' v' L' Hx' Hsame. simpl. rewrite <- app_assoc.
      constructor.
      * eapply repr_frame; eauto. intros k Hk. apply Hsame.
        rewrite !elem_of_app in *. tauto.
      * apply Hupd; auto. intros k Hk. apply Hsame.
        rewrite !elem_of_app in *. tauto.
Qed.

(** The tree that contents unfold to is determined by the heap. *)
Lemma repr_unique h :
  (forall x v L, repr h x v L ->
     forall v' L', repr h x v' L' -> v = v' /\ L = L') /\
  (forall xs vs L, reprAll h xs vs L ->
     forall vs' L', reprAll h xs vs' L' -> vs = vs' /\ L = L').
Proof.
  apply repr_both; intros;
    match goal with
    | H : repr _ _ ?v' ?L' |- _ = ?v' /\ _ = ?L' => inversion H; subst
    | H : reprAll _ _ ?v' ?L' |- _ = ?v' /\ _ = ?L' => inversion H; subst
    end;
    repeat match goal with
           | H1 : h !! ?l = Some _, H2 : h !! ?l = Some _ |- _ =>
               rewrite H1 in H2; injection H2 as <-
           | IH : forall v' L', repr h ?x v' L' -> _, H : repr h ?x _ _ |- _ =>
               destruct (IH _ _ H) as [-> ->]; clear IH
           | IH : forall v' L', reprAll h ?x v' L' -> _,
             H : reprAll h ?x _ _ |- _ =>
               destruct (IH _ _ H) as [-> ->]; clear IH
           end; auto.
Qed.

Lemma owns_unique h l v v' : owns h l v -> owns h l v' -> v = v'.
Proof.
  intros (o&L&Hl&Hr&_) (o'&L'&Hl'&Hr'&_).
  rewrite Hl in Hl'. injection Hl' as <-.
  by destruct (proj1 (repr_unique h) _ _ _ Hr _ _ Hr').
Qed.
(** ** The binder on a tree in the heap *)

Lemma NoDup_replace (M1 L L' M2 : list loc) n :
  NoDup (M1 ++ L ++ M2) -> NoDup L' ->
  (forall k, k ∈ L' -> k ∈ L \/ (n <= k)%nat) ->
  (forall k, k ∈ M1 ++ M2 -> (k < n)%nat) ->
  NoDup (M1 ++ L' ++ M2).
Proof.
  rewrite !NoDup_app. intros (H1&H2&H3&H4&H5) HL' Hnew Hold.
  repeat split; auto.
  - intros k Hk Hk'. apply elem_of_app in Hk' as [Hk'|Hk'].
    + destruct (Hnew k Hk') as [?|?].
      * apply (H2 k Hk). apply elem_of_app. auto.
      * specialize (Hold k ltac:(apply elem_of_app; auto)). lia.
    + apply (H2 k Hk). apply elem_of_app. auto.
  - intros k Hk Hk'. destruct (Hnew k Hk) as [?|?].
    + by apply (H4 k).
    + specialize (Hold k ltac:(apply elem_of_app; auto)). lia.
Qed.

Section Sim.

Variable w : World.

Lemma sim_keep h l p o x v L e :
  h !! l = Some o -> hget o p = Some x -> repr h x v L -> NoDup L ->
  sim h l p o L (Returned v e) (Returned h e).
Proof.
  intros Hl Hp Hr Hnd. exists h, x, L.
  rewrite (hset_hget _ _ _ Hp). repeat split; auto.
Qed.

Lemma sim_store h l p o y v' L :
  h !! l = Some o -> (forall h', repr h' y v' []) ->
  sim h l p o L (Returned v' None) (Returned (store h (l, p) y) None).
Proof.
  intros Hl Hy. exists (store h (l, p) y), y, [].
  repeat split; auto using load_store, NoDup_nil_2.
  - intros k Hk. by apply elem_of_nil in Hk.
  - by rewrite store_length.
  - intros k _ Hk _. by apply store_other.
Qed.

(** A call after an earlier one that returned [nil]. *)
Lemma sim_trans h l p o z L h1 x1 L1 ot oh :
  hget o p = Some z ->
  h1 !! l = Some (hset o p x1) ->
  (forall k, k ∈ L1 -> k ∈ L \/ (length h <= k)%nat) ->
  (length h <= length h1)%nat ->
  (forall k, (k < length h)%nat -> k <> l -> k ∉ L -> h1 !! k = h !! k) ->
  sim h1 l p (hset o p x1) L1 ot oh ->
  sim h l p o L ot oh.
Proof.
  intros Hz Hl1 Hnew Hlen Hframe Hsim.
  destruct ot as [v' e| | |]; simpl in *; auto.
  destruct Hsim as (h'&x'&L'&->&Hl'&Hr&Hnd&Hnew'&Hlen'&Hframe').
  exists h', x', L'. rewrite (hset_hset _ _ _ _ _ Hz) in Hl'.
  repeat split; auto.
  - intros k Hk. destruct (Hnew' k Hk) as [Hk1|Hk1].
    + apply Hnew in Hk1. tauto.
    + right. lia.
  - lia.
  - intros k Hk Hne HkL. rewrite Hframe'; auto; [lia|].
    intros Hk1. apply Hnew in Hk1 as [?|?]; [contradiction|lia].
Qed.

(** From one element of a block to the block. *)
Lemma block_step h l o p xs vs M i x :
  h !! l = Some o -> hget o p = Some (HStruct xs) ->
  reprAll h xs vs M -> NoDup M -> l ∉ M -> xs !! i = Some x ->
  exists v L,
    vs !! i = Some v /\ hget o (p ++ [i]) = Some x /\
    repr h x v L /\ NoDup L /\ (l ∉ L) /\
    (forall ot oh,
        sim h l (p ++ [i]) o L ot oh ->
        sim h l p o M (mapOutcome (fun v' => VStruct (<[i:=v']> vs)) ot) oh).
Proof.
  intros Hl Hp Hr Hnd HlM Hi.
  destruct (reprAll_lookup _ _ _ _ Hr i x Hi) as (v&L&M1&M2&Hv&Hx&->&Hupd).
  exists v, L. repeat split; auto.
  - by rewrite (hget_elem _ _ _ _ Hp).
  - rewrite !NoDup_app in Hnd. tauto.
  - intros HlL. apply HlM. rewrite !elem_of_app. auto.
  - intros ot oh Hsim. destruct ot as [v' e| | |]; simpl in *; auto.
    destruct Hsim as (h'&x'&L'&->&Hl'&Hr'&Hnd'&Hnew&Hlen&Hframe).
    assert (Hdom : forall k, k ∈ M1 ++ M2 -> (k < length h)%nat).
    { intros k Hk. eapply (proj2 (repr_dom h)); eauto.
      rewrite !elem_of_app in *. tauto. }
    exists h', (HStruct (<[i:=x']> xs)), (M1 ++ L' ++ M2).
    repeat split; auto.
    + by rewrite <- (hset_elem _ _ _ _ _ _ Hp Hi).
    + constructor. apply Hupd; auto.
      intros k Hk. apply Hframe; auto.
      * intros ->. apply HlM. rewrite !elem_of_app in *. tauto.
      * intros HkL. rewrite !NoDup_app in Hnd.
        destruct Hnd as (_&Hd1&_&Hd2&_).
        apply elem_of_app in Hk as [Hk|Hk].
        -- apply (Hd1 k Hk). apply elem_of_app. auto.
        -- by apply (Hd2 k HkL).
    + eapply NoDup_replace; eauto.
    + intros k Hk. rewrite !elem_of_app in *.
      destruct Hk as [?|[Hk|?]]; auto.
      destruct (Hnew k Hk); auto.
    + intros k Hk Hne HkM. apply Hframe; auto.
      intros HkL. apply HkM. rewrite !elem_of_app. auto.
Qed.

(** From the pointee of a pointer to the pointer. *)
Lemma ptr_step h l p o l' o' y L' ot oh :
  h !! l = Some o -> hget o p = Some (HPtr (l', [])) ->
  h !! l' = Some o' -> repr h o' y L' -> NoDup (l' :: L') ->
  l ∉ (l' :: L') ->
  sim h l' [] o' L' ot oh ->
  sim h l p o (l' :: L') (mapOutcome VPtr ot) oh.
Proof.
  intros Hl Hp Hl' Hr Hnd HlL Hsim.
  destruct ot as [y' e| | |]; simpl in *; auto.
  destruct Hsim as (h'&x'&L''&->&Hx'&Hr'&Hnd'&Hnew&Hlen&Hframe).
  apply NoDup_cons in Hnd as [Hl'L Hnd].
  apply not_elem_of_cons in HlL as [Hll' HlL].
  assert (Hlt : (l' < length h)%nat) by (eapply lookup_lt_Some; eauto).
  exists h', (HPtr (l', [])), (l' :: L''). repeat split; auto.
  - rewrite (hset_hget _ _ _ Hp). rewrite Hframe; auto.
    eapply lookup_lt_Some; eauto.
  - econstructor; eauto.
  - apply NoDup_cons. split; [|exact Hnd'].
    intros Hk. apply Hnew in Hk as [?|?]; [contradiction|lia].
  - intros k Hk. apply elem_of_cons in Hk as [->|Hk].
    + left. apply elem_of_cons. auto.
    + destruct (Hnew k Hk); [left|right]; auto. apply elem_of_cons. auto.
  - intros k Hk Hne HkL'. apply not_elem_of_cons in HkL' as [? ?].
    apply Hframe; auto.
Qed.


Lemma repr_struct_inv h x vs L :
  repr h x (VStruct vs) L -> exists xs, x = HStruct xs /\ reprAll h xs vs L.
Proof. inversion 1; subst; eauto. Qed.

Lemma fillSliceH_sim setT setH l parts :
  (forall i s h o x v L,
      h !! l = Some o -> hget o [i] = Some x -> repr h x v L -> NoDup L ->
      l ∉ L -> sim h l [i] o L (setT v s) (setH (l, [i]) s h)) ->
  forall i h xs vs M,
    h !! l = Some (HStruct xs) -> reprAll h xs vs M -> NoDup M -> l ∉ M ->
    sim h l [] (HStruct xs) M
      (mapOutcome VStruct (fillSlice setT parts i vs))
      (fillSliceH setH parts l i h).
Proof.
  intros Hset. induction parts as [|s rest IH]; intros i h xs vs M Hl Hr Hnd HlM.
  - exact (sim_keep h l [] _ (HStruct xs) (VStruct vs) M None Hl eq_refl
             (repr_struct _ _ _ _ Hr) Hnd).
  - simpl. unfold load. simpl. rewrite Hl. simpl.
    pose proof (reprAll_length _ _ _ _ Hr) as Hlen.
    destruct (xs !! i) as [x|] eqn:Hx.
    2:{ apply lookup_ge_None in Hx.
        rewrite (proj2 (lookup_ge_None vs i)) by lia. reflexivity. }
    destruct (block_step h l (HStruct xs) [] xs vs M i x Hl eq_refl Hr Hnd HlM Hx)
      as (v&L&Hv&Hgx&Hrx&HndL&HlL&Hstep).
    rewrite Hv.
    specialize (Hstep _ _ (Hset i s h _ x v L Hl Hgx Hrx HndL HlL)).
    simpl in Hstep.
    destruct (setT v s) as [x' [e|]| | |]; simpl in *;
      try (destruct Hstep as (h'&xb&L'&->&Hrest); eauto 10; fail);
      try (rewrite Hstep; reflexivity).
    destruct Hstep as (h'&xb&L'&->&Hl'&Hr'&Hnd'&Hnew&Hlen'&Hframe).
    destruct (repr_struct_inv _ _ _ _ Hr') as (xs'&->&Hrs').
    eapply (sim_trans h l [] (HStruct xs) (HStruct xs) M h' (HStruct xs') L');
      eauto.
    simpl. apply IH; auto.
    intros Hk. apply Hnew in Hk as [?|?]; [contradiction|].
    apply lookup_lt_Some in Hl. lia.
Qed.


Lemma sim_fromOption {A} h l p o x v L fn s (f : A -> value) (g : A -> hval)
    (q : option A) :
  h !! l = Some o -> hget o p = Some x -> repr h x v L -> NoDup L ->
  (forall z h', repr h' (g z) (f z) []) ->
  sim h l p o L (fromOption fn s v (f <$> q))
    (fromOptionH fn s (l, p) h (g <$> q)).
Proof.
  intros Hl Hp Hr Hnd Hfg. destruct q as [z|]; simpl.
  - apply sim_store; auto.
  - eapply sim_keep; eauto.
Qed.

Lemma mapOutcome_VPtr (o : outcome value) :
  match o with
  | Returned x' err => Returned (VPtr x') err
  | Exited => Exited
  | Panicked => Panicked
  | OutOfFuel => OutOfFuel
  end = mapOutcome VPtr o.
Proof. by destruct o. Qed.

(** Allocation of the pointee of a nil pointer at [(l, p)], then a call on
    the fresh object. *)
Lemma sim_new h l p o t ot oh :
  h !! l = Some o -> hget o p = Some HNil ->
  (forall h2 : heap,
      h2 !! length h = Some (zeroH t) ->
      sim h2 (length h) [] (zeroH t) [] ot (oh h2)) ->
  sim h l p o [] (mapOutcome VPtr ot)
    (oh (store (h ++ [zeroH t]) (l, p) (HPtr (length h, [])))).
Proof.
  intros Hl Hp Hin.
  assert (Hlt : (l < length h)%nat) by (eapply lookup_lt_Some; eauto).
  set (h2 := store (h ++ [zeroH t]) (l, p) (HPtr (length h, []))).
  assert (Hl2 : h2 !! l = Some (hset o p (HPtr (length h, [])))).
  { apply load_store. by rewrite lookup_app_l. }
  assert (Hnew : h2 !! length h = Some (zeroH t)).
  { unfold h2. rewrite store_other by lia. apply list_lookup_middle. done. }
  eapply (sim_trans h l p o HNil [] h2 (HPtr (length h, [])) [length h]);
    eauto.
  - intros k Hk. apply list_elem_of_singleton in Hk as ->. right. lia.
  - unfold h2. rewrite store_length, length_app. simpl. lia.
  - intros k Hk Hne _. unfold h2. rewrite store_other by auto.
    by rewrite lookup_app_l.
  - eapply ptr_step; eauto.
    + eapply hget_hset; eauto.
    + apply repr_zero.
    + apply NoDup_singleton.
    + intros Hk. apply list_elem_of_singleton in Hk. lia.
Qed.

(** The leaf parser on the heap does to a tree there what the leaf parser
    does to the tree. *)
Lemma setValueFromStringH_sim t : forall l p s h o x v L,
  h !! l = Some o -> hget o p = Some x -> repr h x v L -> NoDup L ->
  l ∉ L ->
  sim h l p o L (setValueFromString w t v s)
    (setValueFromStringH w t (l, p) s h).
Proof.
  induction t using ty_mut with
    (P0 := fun r => forall l p s h o x v L,
       h !! l = Some o -> hget o p = Some x -> repr h x v L -> NoDup L ->
       l ∉ L ->
       sim h l p o L
         (match r with
          | Here e => setValueFromString w e
          | Decl _ =>
              fun x _ => Returned x (Some (ErrUnsupported (resolve (decls w) r)))
          end v s)
         (match r with
          | Here e => setValueFromStringH w e
          | Decl _ =>
              fun _ _ h' =>
                Returned h' (Some (ErrUnsupported (resolve (decls w) r)))
          end (l, p) s h))
    (P1 := fun _ => True);
    try exact I; intros l p s h o x v L Hl Hp Hr Hnd HlL;
    try (by eapply sim_keep; eauto);
    try (simpl; eapply sim_fromOption; eauto; intros; constructor).
  - (* string *)
    simpl. apply sim_store; auto. intros. constructor.
  - (* slice *)
    assert (Hlt : (l < length h)%nat) by (eapply lookup_lt_Some; eauto).
    cbn [setValueFromString setValueFromStringH MakeSlice].
    set (parts := splitComma s).
    set (h1 := h ++ [HStruct (replicate (length parts)
                               (zeroH (resolve (decls w) elem)))]).
    assert (Hl1 : h1 !! length h
                  = Some (HStruct (replicate (length parts)
                                     (zeroH (resolve (decls w) elem)))))
      by (apply list_lookup_middle; done).
    pose proof (fillSliceH_sim _ _ (length h) parts
                  (fun i s0 h0 o0 x0 v0 L0 =>
                     IHt (length h) [i] s0 h0 o0 x0 v0 L0)
                  0%nat h1 _
                  (replicate (length parts) (zero (resolve (decls w) elem)))
                  [] Hl1
                  (reprAll_replicate _ _ _ _
                     (repr_zero h1 (resolve (decls w) elem)))
                  (NoDup_nil_2) (not_elem_of_nil _)) as Hfill.
    destruct (fillSlice _ parts 0 _) as [vs' [e|]| | |]; simpl in Hfill;
      try (rewrite Hfill; reflexivity).
    + destruct Hfill as (h2&xb&L2&->&Hl2&Hr2&Hnd2&Hnew&Hlen&Hframe).
      exists h2, x, L. rewrite (hset_hget _ _ _ Hp).
      assert (Hsame : forall k, (k < length h)%nat -> h2 !! k = h !! k).
      { intros k Hk. rewrite Hframe.
        - by apply lookup_app_l.
        - unfold h1. rewrite length_app. simpl. lia.
        - lia.
        - apply not_elem_of_nil. }
      repeat split; auto.
      * rewrite Hsame; auto.
      * eapply repr_frame; eauto. intros k Hk. apply Hsame.
        eapply (proj1 (repr_dom h)); eauto.
      * unfold h1 in Hlen. rewrite length_app in Hlen. simpl in Hlen. lia.
    + destruct Hfill as (h2&xb&L2&->&Hl2&Hr2&Hnd2&Hnew&Hlen&Hframe).
      destruct (repr_struct_inv _ _ _ _ Hr2) as (xs'&->&Hrs).
      assert (Hlen1 : length h1 = S (length h))
        by (unfold h1; rewrite length_app; simpl; lia).
      assert (Hsame : forall k, (k < length h)%nat -> h2 !! k = h !! k).
      { intros k Hk. rewrite Hframe.
        - by apply lookup_app_l.
        - lia.
        - lia.
        - apply not_elem_of_nil. }
      assert (Hfresh : forall k, k ∈ L2 -> (length h1 <= k)%nat).
      { intros k Hk. destruct (Hnew k Hk) as [Hk'|]; auto.
        by apply elem_of_nil in Hk'. }
      exists (store h2 (l, p) (HSlice (length h))), (HSlice (length h)),
        (length h :: L2).
      repeat split.
      * apply load_store. by rewrite Hsame.
      * econstructor.
        -- rewrite store_other by lia. exact Hl2.
        -- eapply repr_frame; eauto. intros k Hk.
           apply store_other. specialize (Hfresh k Hk). lia.
      * apply NoDup_cons. split; auto.
        intros Hk. specialize (Hfresh _ Hk). lia.
      * intros k Hk. right. apply elem_of_cons in Hk as [->|Hk]; [lia|].
        specialize (Hfresh k Hk). lia.
      * rewrite store_length. lia.
      * intros k Hk Hne _. rewrite store_other by auto. by apply Hsame.
  - (* pointer *)
    cbn [setValueFromString setValueFromStringH New].
    unfold load. simpl. rewrite Hl, Hp.
    inversion Hr; subst; try reflexivity.
    + (* nil *)
      rewrite mapOutcome_VPtr.
      apply (sim_new h l p o (resolve (decls w) elem)
               _ (fun h2 => match elem with
                            | Here e => setValueFromStringH w e
                            | Decl _ => fun _ _ h' =>
                                Returned h' (Some (ErrUnsupported
                                                     (resolve (decls w) elem)))
                            end (length h, []) s h2)); auto.
      intros h2 Hh2. eapply IHt; eauto using NoDup_nil_2.
      * apply repr_zero.
      * apply not_elem_of_nil.
    + (* a pointer to an object *)
      rewrite mapOutcome_VPtr.
      apply NoDup_cons in Hnd as Hnd'. destruct Hnd' as [Hl0 HndL0].
      eapply ptr_step; eauto.
  - (* Here *) eauto.
Qed.


Lemma bindLeafH_sim sf l p h o x v L :
  h !! l = Some o -> hget o p = Some x -> repr h x v L -> NoDup L ->
  l ∉ L ->
  sim h l p o L (bindLeaf w sf v) (bindLeafH w sf (l, p) h).
Proof.
  intros Hl Hp Hr Hnd HlL. unfold bindLeaf, bindLeafH.
  destruct (noTag (Tag sf)); [by eapply sim_keep; eauto|].
  destruct (getenv w (Tag sf)) as [s|]; [|by eapply sim_keep; eauto].
  pose proof (setValueFromStringH_sim (Type_ sf) l p s h o x v L
                Hl Hp Hr Hnd HlL) as Hsim.
  destruct (setValueFromString w (Type_ sf) v s) as [v' [e|]| | |];
    simpl in *; try (by rewrite Hsim).
  - destruct Hsim as (h'&x'&L'&->&Hrest). eauto 10.
  - destruct Hsim as (h'&x'&L'&->&Hrest). eauto 10.
Qed.

(** A field of contents that unfold to a tree. *)
Lemma repr_field h x v L i :
  repr h x v L ->
  match Field v i with
  | Some fv =>
      exists xs vs xi,
        x = HStruct xs /\ v = VStruct vs /\ reprAll h xs vs L /\
        xs !! i = Some xi
  | None => hget x [i] = None
  end.
Proof.
  inversion 1; subst; simpl; try reflexivity.
  pose proof (reprAll_length _ _ _ _ H0) as Hlen.
  destruct (vs !! i) as [fv|] eqn:Hv.
  - destruct (lookup_lt_is_Some_2 xs i) as [xi Hxi].
    { apply lookup_lt_Some in Hv. lia. }
    eauto 10.
  - apply lookup_ge_None in Hv.
    rewrite (proj2 (lookup_ge_None xs i)) by lia. reflexivity.
Qed.

Section WalkH.

Variable recT : ty -> value -> outcome value.
Variable recH : ty -> nat * list nat -> list hval -> outcome (list hval).

Hypothesis Hrec : forall t l p h o x v L,
  h !! l = Some o -> hget o p = Some x -> repr h x v L -> NoDup L ->
  l ∉ L -> sim h l p o L (recT t v) (recH t (l, p) h).

Lemma bindFieldH_sim sf l p h o x v L :
  h !! l = Some o -> hget o p = Some x -> repr h x v L -> NoDup L ->
  l ∉ L ->
  sim h l p o L (bindField w recT sf v) (bindFieldH w recH sf (l, p) h).
Proof.
  intros Hl Hp Hr Hnd HlL. unfold bindField, bindFieldH.
  destruct (Type_ sf) eqn:Ht; try (by eapply bindLeafH_sim; eauto).
  - (* time.Time *)
    destruct (negb (noTag (Tag sf))); [|by eapply sim_keep; eauto].
    destruct (getenv w (Tag sf)) as [s|]; [|by eapply sim_keep; eauto].
    destruct (ParseRFC3339 w s) as [tm|]; [|by eapply sim_keep; eauto].
    apply sim_store; auto. intros. constructor.
  - (* pointer *)
    destruct (Kind_eqb (kind (resolve (decls w) elem)) KStruct).
    + unfold load, New. simpl. rewrite Hl, Hp.
      inversion Hr; subst; try reflexivity; cbv beta iota.
      * rewrite mapOutcome_VPtr.
        apply (sim_new h l p o (resolve (decls w) elem) _
                 (fun h2 => recH (resolve (decls w) elem) (length h, []) h2));
          auto.
        intros h2 Hh2. eapply Hrec; eauto using NoDup_nil_2.
        -- apply repr_zero.
        -- apply not_elem_of_nil.
      * rewrite mapOutcome_VPtr.
        apply NoDup_cons in Hnd as Hnd'. destruct Hnd' as [Hl0 HndL0].
        eapply ptr_step; eauto.
    + replace (match v with VNil => v | _ => v end) with v
        by (by destruct v).
      eapply bindLeafH_sim; eauto.
  - (* a nested record *)
    rewrite <- Ht. eapply Hrec; eauto.
Qed.

Lemma loadFieldsH_sim l p fs : forall i h o x v L,
  h !! l = Some o -> hget o p = Some x -> repr h x v L -> NoDup L ->
  l ∉ L ->
  sim h l p o L (loadFields w recT fs i v) (loadFieldsH w recH fs i (l, p) h).
Proof.
  induction fs as [|sf rest IH]; intros i h o x v L Hl Hp Hr Hnd HlL.
  - eapply sim_keep; eauto.
  - simpl. destruct (negb (PkgPath sf =? "")%string); [by eapply IH|].
    unfold load. simpl. rewrite Hl, hget_app, Hp.
    pose proof (repr_field h x v L i Hr) as Hf.
    destruct (Field v i) as [fv|] eqn:Hfv; cbv beta iota in Hf.
    2:{ rewrite Hf. reflexivity. }
    destruct Hf as (xs&vs&xi&->&->&Hrs&Hxi). simpl. rewrite Hxi.
    destruct (block_step h l o p xs vs L i xi Hl Hp Hrs Hnd HlL Hxi)
      as (fv0&Li&Hfv0&Hgx&Hrx&HndLi&HlLi&Hstep).
    simpl in Hfv. rewrite Hfv in Hfv0. injection Hfv0 as <-.
    specialize (Hstep _ _ (bindFieldH_sim sf l (p ++ [i]) h o xi fv Li
                             Hl Hgx Hrx HndLi HlLi)).
    destruct (bindField w recT sf fv) as [fv' [e|]| | |]; simpl in *;
      try (by rewrite Hstep).
    + destruct Hstep as (h'&xb&L'&->&Hrest). eauto 10.
    + destruct Hstep as (h'&xb&L'&->&Hl'&Hr'&Hnd'&Hnew&Hlen&Hframe).
      eapply (sim_trans h l p o _ L h' xb L'); eauto.
      eapply IH; eauto.
      * eapply hget_hset; eauto.
      * intros Hk. apply Hnew in Hk as [?|?]; [contradiction|].
        apply lookup_lt_Some in Hl. lia.
Qed.

End WalkH.

(** The walker on the heap does to a tree there what the walker does to
    the tree. *)
Lemma loadIntoH_sim fuel : forall t l p h o x v L,
  h !! l = Some o -> hget o p = Some x -> repr h x v L -> NoDup L ->
  l ∉ L ->
  sim h l p o L (loadInto w fuel t v) (loadIntoH w fuel t (l, p) h).
Proof.
  induction fuel as [|k IH]; intros t l p h o x v L Hl Hp Hr Hnd HlL;
    simpl; [reflexivity|].
  destruct (Kind_eqb (kind t) KStruct); [|reflexivity].
  eapply loadFieldsH_sim; eauto.
Qed.

End Sim.
(** ** [LoadEnv] on a target that owns its storage *)

(** The bind on the heap is the bind on the tree: the same result, and the
    target holds the tree that [LoadEnv] leaves. *)
Lemma LoadEnvH_sim w fuel r h l v :
  owns h l v ->
  match LoadEnv w fuel (Any (TPtr r) (VPtr v)) with
  | Returned out' e =>
      exists v' h',
        out' = Any (TPtr r) (VPtr v') /\
        LoadEnvH w fuel (AnyH (TPtr r) (HPtr (l, []))) h = Returned h' e /\
        owns h' l v'
  | Exited => LoadEnvH w fuel (AnyH (TPtr r) (HPtr (l, []))) h = Exited
  | Panicked => LoadEnvH w fuel (AnyH (TPtr r) (HPtr (l, []))) h = Panicked
  | OutOfFuel => LoadEnvH w fuel (AnyH (TPtr r) (HPtr (l, []))) h = OutOfFuel
  end.
Proof.
  intros (o&L&Hl&Hr&Hnd). unfold LoadEnv, LoadEnvH, elemKind.
  destruct (Kind_eqb (kind (resolve (decls w) r)) KStruct); simpl.
  2:{ exists v, h. repeat split. exists o, L. auto. }
  apply NoDup_cons in Hnd as [HlL Hnd].
  pose proof (loadIntoH_sim w fuel (resolve (decls w) r) l [] h o o v L
                Hl eq_refl Hr Hnd HlL) as Hsim.
  destruct (loadInto w fuel (resolve (decls w) r) v) as [v' e| | |];
    simpl in *; auto.
  destruct Hsim as (h'&x'&L'&->&Hl'&Hr'&Hnd'&Hnew&_).
  exists v', h'. repeat split. exists x', L'. repeat split; auto.
  apply NoDup_cons. split; [|exact Hnd'].
  intros Hk. apply Hnew in Hk as [?|?]; [contradiction|].
  apply lookup_lt_Some in Hl. lia.
Qed.

Lemma LoadEnvH_Returned w fuel r h l v h' err :
  owns h l v ->
  LoadEnvH w fuel (AnyH (TPtr r) (HPtr (l, []))) h = Returned h' err ->
  exists v',
    LoadEnv w fuel (Any (TPtr r) (VPtr v)) = Returned (Any (TPtr r) (VPtr v')) err
    /\ owns h' l v'.
Proof.
  intros Hown Hrun. pose proof (LoadEnvH_sim w fuel r h l v Hown) as Hsim.
  destruct (LoadEnv w fuel (Any (TPtr r) (VPtr v))) as [out' e| | |];
    try congruence.
  destruct Hsim as (v'&h''&->&Hrun'&Hown').
  rewrite Hrun in Hrun'. injection Hrun' as <- <-. eauto.
Qed.

Lemma LoadEnvH_tree w fuel r h l v v' err :
  owns h l v ->
  LoadEnv w fuel (Any (TPtr r) (VPtr v)) = Returned (Any (TPtr r) (VPtr v')) err ->
  exists h',
    LoadEnvH w fuel (AnyH (TPtr r) (HPtr (l, []))) h = Returned h' err /\
    owns h' l v'.
Proof.
  intros Hown Hrun. pose proof (LoadEnvH_sim w fuel r h l v Hown) as Hsim.
  rewrite Hrun in Hsim. destruct Hsim as (v''&h'&[= <-]&Hrun'&Hown'). eauto.
Qed.

(** The bind writes the record, the objects its pointers lead to, and fresh
    objects; every other object of the heap is as it was. *)
Lemma LoadEnvH_frame w fuel r h l o v L h' err :
  h !! l = Some o -> repr h o v L -> NoDup (l :: L) ->
  LoadEnvH w fuel (AnyH (TPtr r) (HPtr (l, []))) h = Returned h' err ->
  (length h <= length h')%nat /\
  forall k, (k < length h)%nat -> k <> l -> k ∉ L -> h' !! k = h !! k.
Proof.
  intros Hl Hr Hnd. unfold LoadEnvH.
  destruct (Kind_eqb (kind (resolve (decls w) r)) KStruct); simpl.
  2:{ intros [= <- _]. auto. }
  apply NoDup_cons in Hnd as [HlL Hnd].
  pose proof (loadIntoH_sim w fuel (resolve (decls w) r) l [] h o o v L
                Hl eq_refl Hr Hnd HlL) as Hsim.
  intros Hrun.
  destruct (loadInto w fuel (resolve (decls w) r) v) as [v' e| | |];
    simpl in Hsim; try congruence.
  destruct Hsim as (h''&x'&L'&Hrun'&_&_&_&_&Hlen&Hframe).
  rewrite Hrun in Hrun'. injection Hrun' as <- <-. auto.
Qed.

(** A field that the walker does not recurse into, without a usable tag or
    with an unset variable: the body of the loop writes nothing. *)
Lemma bindFieldH_inert w rec sf a h :
  isLeaf (decls w) (Type_ sf) = true ->
  noTag (Tag sf) = true \/ getenv w (Tag sf) = None ->
  bindFieldH w rec sf a h = Returned h None.
Proof.
  unfold isLeaf, descend, bindFieldH, bindLeafH. intros Hleaf Htag.
  destruct (Type_ sf) eqn:Ht; try discriminate Hleaf;
    try (destruct Htag as [-> | ->]; [reflexivity|];
         destruct (noTag (Tag sf)); reflexivity).
  destruct (Kind_eqb (kind (resolve (decls w) elem)) KStruct);
    [discriminate|].
  destruct Htag as [-> | ->]; [reflexivity|].
  destruct (noTag (Tag sf)); reflexivity.
Qed.

(** ** The list case (C7) *)

(** A tagged field of a type the walker does not recurse into, whose
    variable is set: what the leaf parser does with the text. *)
Lemma bindField_set w rec sf fv s fv' :
  isLeaf (decls w) (Type_ sf) = true -> Type_ sf <> TTime ->
  noTag (Tag sf) = false -> getenv w (Tag sf) = Some s ->
  (bindField w rec sf fv = Returned fv' None
   <-> setValueFromString w (Type_ sf) fv s = Returned fv' None).
Proof.
  unfold isLeaf, descend, bindField, bindLeaf. intros Hleaf Htime Htag Henv.
  rewrite Htag, Henv.
  assert (Hgen : match setValueFromString w (Type_ sf) fv s with
                 | Returned fv'0 (Some err) =>
                     Returned fv'0 (Some (fieldErr sf err))
                 | o => o
                 end = Returned fv' None
                 <-> setValueFromString w (Type_ sf) fv s = Returned fv' None).
  { destruct (setValueFromString w (Type_ sf) fv s) as [? [?|]| | |];
      split; congruence. }
  destruct (Type_ sf) eqn:Ht; try exact Hgen; try congruence.
  destruct (Kind_eqb (kind (resolve (decls w) elem)) KStruct);
    [discriminate|].
  replace (match fv with VNil => fv | _ => fv end) with fv
    by (destruct fv; reflexivity).
  exact Hgen.
Qed.

(** C7. For a list-typed field whose variable is set, the text is split on
    commas, each segment is trimmed of surrounding white space, the segments
    that are empty after trimming are dropped, and each remaining segment is
    parsed as one element, in the order of the text: the field is assigned
    the list [xs] exactly when [xs] are the parsed segments.  Binding
    "1, 2 ,3" to a list of integers gives [1, 2, 3], and binding the empty
    text gives the empty list. *)
Theorem list_field_binding :
  (forall w rec sf e fv s xs,
      Type_ sf = TSlice (Here e) ->
      noTag (Tag sf) = false -> getenv w (Tag sf) = Some s ->
      (bindField w rec sf fv = Returned (VSlice xs) None
       <-> Forall2 (fun seg x =>
                      setValueFromString w e (zero e) seg = Returned x None)
                   (segments s) xs))
  /\ (forall w bits v,
         In bits [8; 16; 32; 64] ->
         setValueFromString w (TSlice (Here (TInt bits))) v "1, 2 ,3"
         = Returned (VSlice [VInt 1; VInt 2; VInt 3]) None)
  /\ (forall w r v,
         setValueFromString w (TSlice r) v "" = Returned (VSlice []) None).
Proof.
  split; [|split].
  - intros w rec sf e fv s xs Ht Htag Henv.
    rewrite (bindField_set w rec sf fv s (VSlice xs)); auto.
    + rewrite Ht. apply setValueFromString_slice.
    + by rewrite Ht.
    + by rewrite Ht.
  - intros w bits v Hbits. simpl in Hbits.
    destruct Hbits as [<-|[<-|[<-|[<-|[]]]]]; reflexivity.
  - intros w r v. reflexivity.
Qed.

Lemma list_field_binding_witness :
  bindField (envWorld noDecls {[ "LEVEL2_TAGS" := "1, 2 ,3" ]})
    (loadInto (envWorld noDecls {[ "LEVEL2_TAGS" := "1, 2 ,3" ]}) 0)
    (StructField "Tags" "" "LEVEL2_TAGS" (TSlice (Here (TInt 64)))) VNil
  = Returned (VSlice [VInt 1; VInt 2; VInt 3]) None.
Proof.
  apply (proj1 list_field_binding
           (envWorld noDecls {[ "LEVEL2_TAGS" := "1, 2 ,3" ]}) _
           (StructField "Tags" "" "LEVEL2_TAGS" (TSlice (Here (TInt 64))))
           (TInt 64) VNil "1, 2 ,3").
  - reflexivity.
  - reflexivity.
  - vm_compute. reflexivity.
  - repeat constructor.
Defined.

(** ** Rejected targets (C8) *)

(** C8. For an argument that is not a reference to a record (the nil
    interface, a nil reference, a reference to something that is not a
    record, or something that is not a reference), [LoadEnv] returns an
    invalid-target error at once, for any amount of fuel, and the target is
    as it was. *)
Theorem invalid_target_rejected w fuel out :
  notStructPointer (decls w) out ->
  exists e, LoadEnv w fuel out = Returned out (Some e) /\ InvalidTarget e.
Proof.
  unfold notStructPointer, InvalidTarget.
  intros [->|[(r&->)|[(r&p&->&Hk)|(t&v&->&Hk)]]].
  - exists ErrNilTarget. auto.
  - exists ErrNotStructPointer. auto.
  - exists ErrNotStructPointer. split; [|auto]. simpl.
    destruct (Kind_eqb (kind (resolve (decls w) r)) KStruct) eqn:E;
      [|reflexivity].
    apply Kind_eqb_eq in E. contradiction.
  - exists ErrNotStructPointer. split; [|auto].
    destruct t; try reflexivity. simpl in Hk. contradiction.
Qed.

Lemma invalid_target_rejected_witness :
  exists e,
    LoadEnv (envWorld noDecls nestedEnv) 3
      (Any (TPtr (Here (TInt 64))) (VPtr (VInt 3)))
    = Returned (Any (TPtr (Here (TInt 64))) (VPtr (VInt 3))) (Some e)
    /\ InvalidTarget e.
Proof.
  apply (invalid_target_rejected (envWorld noDecls nestedEnv) 3).
  right. right. left. exists (Here (TInt 64)), (VInt 3).
  split; [reflexivity|discriminate].
Defined.

(** ** The tag of a record-typed field (C9) *)

Lemma loadFields_tag_ignored w rec before after name pkg tag1 tag2 fs :
  forall i v,
    loadFields w rec
      (before ++ StructField name pkg tag1 (TStruct fs) :: after) i v
    = loadFields w rec
        (before ++ StructField name pkg tag2 (TStruct fs) :: after) i v.
Proof.
  induction before as [|sf before IH]; intros i v; simpl.
  - reflexivity.
  - destruct (negb (PkgPath sf =? "")%string); [apply IH|].
    destruct (Field v i) as [fv|]; [|reflexivity].
    destruct (bindField w rec sf fv) as [fv' [e|]| | |]; auto.
Qed.

(** C9. For a field whose type is a nested record other than the timestamp
    type, the field's own binding tag has no effect: the walk of the
    enclosing record gives the same contents and the same result whatever
    the tag is, for every environment. *)
Theorem record_field_tag_ignored w fuel before after name pkg tag1 tag2 t v :
  kind t = KStruct -> t <> TTime ->
  loadInto w fuel (TStruct (before ++ StructField name pkg tag1 t :: after)) v
  = loadInto w fuel (TStruct (before ++ StructField name pkg tag2 t :: after)) v.
Proof.
  intros Hk Ht. destruct t; try discriminate Hk; try contradiction.
  destruct fuel as [|k]; [reflexivity|]. simpl.
  apply loadFields_tag_ignored.
Qed.

Lemma record_field_tag_ignored_witness :
  loadInto (envWorld noDecls nestedEnv) 3
    (TStruct ([] ++ StructField "Level1" "" "LEVEL1_NAME"
                      (TStruct [ StructField "Name" "" "LEVEL1_NAME" TString ])
                 :: []))
    (VStruct [VStruct [VString ""]])
  = loadInto (envWorld noDecls nestedEnv) 3
      (TStruct ([] ++ StructField "Level1" "" ""
                        (TStruct [ StructField "Name" "" "LEVEL1_NAME" TString ])
                   :: []))
      (VStruct [VStruct [VString ""]]).
Proof.
  apply (record_field_tag_ignored (envWorld noDecls nestedEnv) 3 [] []);
    [reflexivity|discriminate].
Defined.

(** ** Fields the binder leaves alone (C2) *)

(** The untagged [Level2] of [NestedConfig] is nil before the bind and
    allocated after it, in an empty environment: the statement as worded
    fails on a reference to a record. *)
Lemma untagged_pointer_is_changed : ~ untagged_or_unset_never_changed.
Proof.
  intros H.
  destruct (H (envWorld noDecls ∅) 3%nat (Here NestedConfig)
              (zero NestedConfig)
              (Any (TPtr (Here NestedConfig))
                 (VPtr (VStruct
                          [VStruct [VString ""; VPtr (zero Level2)]])))
              None [0%nat; 1%nat]
              (StructField "Level2" "" "" (TPtr (Here Level2))) VNil)
    as (v'&Hout&Hv'); try reflexivity.
  - left. reflexivity.
  - injection Hout as <-. discriminate Hv'.
Qed.

(** ** A failed parse (C3) *)

(** C3, at the input where the code departs from it.  The record has one
    field [P *int] tagged [P]; [P] is nil and the variable holds "abc".
    The bind returns the field error for [P], and [P] is no longer nil: the
    storage was allocated before the text was parsed. *)
Theorem failed_parse_leaves_pointer_allocated :
  LoadEnv (envWorld noDecls {[ "P" := "abc" ]}) 1
    (Any (TPtr (Here OptionalInt)) (VPtr (VStruct [VNil])))
  = Returned
      (Any (TPtr (Here OptionalInt)) (VPtr (VStruct [VPtr (VInt 0)])))
      (Some (ErrField "P" (ErrParse "ParseInt" "abc"))).
Proof. vm_compute. reflexivity. Qed.

(** Every other case of the leaf parser leaves the contents alone when it
    fails: only the pointer case assigns before it parses. *)
Lemma failed_parse_keeps_contents w t v s v' err :
  (forall r, t <> TPtr r) ->
  setValueFromString w t v s = Returned v' (Some err) -> v' = v.
Proof.
  intros Hptr. destruct t; simpl;
    try (match goal with |- fromOption _ _ _ ?o = _ -> _ => destruct o end;
         simpl); try congruence.
  - destruct (fillSlice _ _ _ _) as [? [?|]| | |]; congruence.
  - destruct (Hptr elem eq_refl).
Qed.

(** ** Termination (C4) *)

Lemma node_never_returns fuel :
  loadInto (envWorld nodeDecls ∅) fuel (TStruct (nodeDecls "Node"))
    (VStruct [VNil]) = OutOfFuel.
Proof.
  induction fuel as [|k IH]; [reflexivity|].
  simpl. unfold bindField. simpl. by rewrite IH.
Qed.

(** On [type Node struct { Next *Node }] the bind allocates [Next] and
    recurses into it without end: no amount of fuel lets it finish. *)
Lemma linked_record_never_ends : ~ bind_always_terminates.
Proof.
  intros H.
  destruct (H (envWorld nodeDecls ∅) (Decl "Node") (VStruct [VNil]) eq_refl)
    as [fuel Hfuel].
  unfold LoadEnv in Hfuel. simpl in Hfuel.
  change (TStruct [StructField "Next" "" "" (TPtr (Decl "Node"))])
    with (TStruct (nodeDecls "Node")) in Hfuel.
  rewrite node_never_returns in Hfuel. exact Hfuel.
Qed.

Lemma walkDepth_finiteWalk d n : forall t,
  walkDepth d n t = true -> finiteWalk d t.
Proof.
  induction n as [|k IH]; intros t H; [discriminate|].
  simpl in H. rewrite forallb_forall in H.
  constructor. intros i sf t' Hi Hex Hd.
  apply IH. specialize (H sf).
  rewrite Hex, Hd in H. apply H.
  apply list_elem_of_In. eapply list_elem_of_lookup_2; eauto.
Qed.

(** C4, amended. For every record type whose type graph, as the walker
    follows it, has no cycle, the bind returns, for every environment and
    all contents of that type, with no depth limit in the code: there is a
    depth, fixed by the type alone, from which on the call has returned and
    its result no longer depends on the fuel.  Pointer-to-record fields are
    included as long as no record type is reached again from itself. *)
Theorem bind_returns_on_acyclic_type d r :
  finiteWalk d (resolve d r) ->
  exists n, forall w v,
    decls w = d -> hasType d v (TPtr r) = true ->
    exists out' err, forall fuel,
      (n <= fuel)%nat ->
      LoadEnv w fuel (Any (TPtr r) v) = Returned out' err.
Proof.
  intros Hfin. destruct (finiteWalk_ended d _ Hfin) as [n Hn].
  exists n. intros w v Hw Hty. subst d. unfold LoadEnv, elemKind.
  destruct v; try discriminate Hty; simpl; try (by eauto).
  destruct (Kind_eqb (kind (resolve (decls w) r)) KStruct) eqn:Hk; simpl;
    [|by eauto].
  apply Kind_eqb_eq in Hk. simpl in Hty.
  pose proof (Hn w v eq_refl) as Hend.
  pose proof (loadInto_no_panic w n _ _ Hk Hty) as Hnp.
  destruct (loadInto w n (resolve (decls w) r) v) as [v' e| | |] eqn:Hinto;
    try contradiction; try destruct Hend.
  exists (Any (TPtr r) (VPtr v')), e. intros fuel Hle.
  rewrite (loadInto_more w n fuel _ _ Hle); rewrite Hinto; [reflexivity|exact I].
Qed.

Lemma bind_returns_on_acyclic_type_witness :
  exists n, forall w v,
    decls w = noDecls -> hasType noDecls v (TPtr (Here NestedConfig)) = true ->
    exists out' err, forall fuel,
      (n <= fuel)%nat ->
      LoadEnv w fuel (Any (TPtr (Here NestedConfig)) v) = Returned out' err.
Proof.
  apply (bind_returns_on_acyclic_type noDecls (Here NestedConfig)).
  apply (walkDepth_finiteWalk noDecls 3). reflexivity.
Defined.

(** ** Failures of the file stage (C6) *)

(** A file that exists and does not decode: [LoadConfig] does not return at
    all, so no error reaches the caller. *)
Lemma decode_failure_is_not_returned : ~ file_failure_is_returned.
Proof.
  intros H.
  destruct (H brokenFileWorld 1%nat "config.toml"
              (Any (TPtr (Here TestConfig)) (VPtr (zero TestConfig))))
    as (out&e&Hret).
  - discriminate.
  - right. split; reflexivity.
  - discriminate Hret.
Qed.

(** C6, amended. A decode failure of an existing file, or a file-system
    error other than non-existence, ends the process ([log.Fatalf]): nothing
    is returned to the caller and the environment binder does not run on
    the partially decoded target.  An empty path or a missing file is not
    an error: [LoadConfig] is then the environment binder alone. *)
Theorem file_stage_failure_exits w fuel file target :
  (file <> "" -> fileStageFails w file target ->
   LoadConfig w fuel file target = Exited)
  /\ (file = "" \/ Stat w file = StatNotExist ->
      LoadConfig w fuel file target = LoadEnv w fuel target).
Proof.
  unfold LoadConfig, fileStageFails. split.
  - intros Hfile Hfail. apply String.eqb_neq in Hfile. rewrite Hfile. simpl.
    destruct Hfail as [-> | [-> Hdec]]; [reflexivity|].
    destruct (DecodeFile w file target) as [out failed]. simpl in Hdec.
    by rewrite Hdec.
  - intros [-> | Hstat]; [reflexivity|].
    rewrite Hstat. by destruct (negb (file =? "")%string).
Qed.

Lemma file_stage_failure_exits_witness :
  LoadConfig brokenFileWorld 1 "config.toml"
    (Any (TPtr (Here TestConfig)) (VPtr (zero TestConfig))) = Exited
  /\ LoadConfig (envWorld noDecls nestedEnv) 3 "missing.toml"
       (Any (TPtr (Here NestedConfig)) (VPtr (zero NestedConfig)))
     = LoadEnv (envWorld noDecls nestedEnv) 3
         (Any (TPtr (Here NestedConfig)) (VPtr (zero NestedConfig))).
Proof.
  split.
  - apply (proj1 (file_stage_failure_exits brokenFileWorld 1 "config.toml"
                    (Any (TPtr (Here TestConfig)) (VPtr (zero TestConfig))))).
    + discriminate.
    + right. split; reflexivity.
  - apply (proj2 (file_stage_failure_exits (envWorld noDecls nestedEnv) 3
                    "missing.toml"
                    (Any (TPtr (Here NestedConfig))
                       (VPtr (zero NestedConfig))))).
    right. reflexivity.
Defined.


(** * Further properties of the binder *)

(** ** Where an error comes from *)

Lemma fillSlice_cause set parts : forall i slice sl e,
  (forall x p x' e', set x p = Returned x' (Some e') -> leafCause e') ->
  fillSlice set parts i slice = Returned sl (Some e) -> leafCause e.
Proof.
  induction parts as [|p rest IH]; intros i slice sl e Hset H; simpl in H;
    [discriminate|].
  destruct (slice !! i) as [x|]; [|discriminate].
  destruct (set x p) as [x' [e'|]| | |] eqn:Hx; try discriminate.
  - injection H as <- <-. eauto.
  - eauto.
Qed.

Lemma setValueFromString_cause w t : forall v s v' e,
  setValueFromString w t v s = Returned v' (Some e) -> leafCause e.
Proof.
  induction t using ty_mut with
    (P0 := fun r => match r with
                    | Here t0 => forall v s v' e,
                        setValueFromString w t0 v s = Returned v' (Some e) ->
                        leafCause e
                    | Decl _ => True
                    end)
    (P1 := fun _ => True); intros; simpl in *; auto;
    try (match goal with H : fromOption _ _ _ ?o = _ |- _ =>
           destruct o; simpl in H; [discriminate H|];
           injection H as <- <-; left; eauto end);
    try (match goal with H : Returned _ _ = Returned _ _ |- _ =>
           injection H as <- <-; right; eauto end).
  - discriminate.
  - (* slice *)
    destruct (fillSlice _ _ _ _) as [sl [e0|]| | |] eqn:Hf; try discriminate.
    injection H as <- <-.
    eapply fillSlice_cause; [|exact Hf].
    destruct elem as [t0|n]; simpl in *.
    + intros x p x' e'. apply IHt.
    + intros x p x' e' [= <- <-]. right. eauto.
  - (* pointer *)
    destruct v; try discriminate; destruct elem as [t0|n]; simpl in *;
      try (injection H as <- <-; right; eauto);
      match goal with H : match setValueFromString w ?a ?b ?c with _ => _ end = _ |- _ =>
        destruct (setValueFromString w a b c) as [x0 e0| | |] eqn:Hs;
          try discriminate H; injection H as <- ->; eauto end.
  - eauto.
Qed.

(** Whether the leaf parser fails does not depend on the old contents. *)
Lemma setValueFromString_fails_old w t : forall v s v' e,
  setValueFromString w t v s = Returned v' (Some e) ->
  exists z e', setValueFromString w t (zero t) s = Returned z (Some e').
Proof.
  induction t using ty_mut with
    (P0 := fun r => match r with
                    | Here t0 => forall v s v' e,
                        setValueFromString w t0 v s = Returned v' (Some e) ->
                        exists z e',
                          setValueFromString w t0 (zero t0) s
                          = Returned z (Some e')
                    | Decl _ => True
                    end)
    (P1 := fun _ => True); intros; simpl in *; auto;
    try (match goal with H : fromOption _ _ _ ?o = _ |- _ =>
           destruct o; simpl in *; [discriminate H|]; eauto end);
    try (by eauto); try discriminate.
  - (* slice *)
    destruct (fillSlice _ _ _ _) as [sl [e0|]| | |]; try discriminate. eauto.
  - (* pointer *)
    destruct elem as [t0|n]; simpl in *; [|by eauto].
    destruct v; try discriminate;
      match goal with H : match setValueFromString w t0 ?b s with _ => _ end = _ |- _ =>
        destruct (setValueFromString w t0 b s) as [x0 [e0|]| | |] eqn:Hs;
          try discriminate H end.
    + eauto.
    + destruct (IHt _ _ _ _ Hs) as (z&e'&Hz). rewrite Hz. eauto.
Qed.

(** The loop that returns an error stopped at one exported field: that
    field's [bindField] returned the error, the fields after it are as they
    were, and the exported fields before it were bound. *)
Lemma loadFields_failed w rec fs : forall i v v' e,
  loadFields w rec fs i v = Returned v' (Some e) ->
  exists j sf fv fv',
    (i <= j)%nat /\ fs !! (j - i)%nat = Some sf /\ exported sf = true /\
    Field v j = Some fv /\
    bindField w rec sf fv = Returned fv' (Some e) /\
    Field v' j = Some fv' /\
    (forall m, (j < m)%nat -> Field v' m = Field v m) /\
    (forall m sfm,
        (i <= m < j)%nat -> fs !! (m - i)%nat = Some sfm ->
        exported sfm = true ->
        exists x x',
          Field v m = Some x /\ bindField w rec sfm x = Returned x' None /\
          Field v' m = Some x').
Proof.
  induction fs as [|sf0 rest IH]; intros i v v' e H; simpl in H;
    [discriminate|].
  fold (exported sf0) in H. destruct (exported sf0) eqn:Hex0; simpl in H.
  - destruct (Field v i) as [fv0|] eqn:Hfv0; [|discriminate].
    destruct (bindField w rec sf0 fv0) as [fv0' [e0|]| | |] eqn:Hb0;
      try discriminate.
    + injection H as <- <-. exists i, sf0, fv0, fv0'.
      rewrite Nat.sub_diag. simpl.
      repeat split; eauto using Field_SetField_eq.
      * intros m Hm. apply Field_SetField_ne. lia.
      * intros m sfm Hm. lia.
    + destruct (IH _ _ _ _ H)
        as (j&sf&fv&fv'&Hle&Hj&Hex&Hfv&Hb&Hfv'&Hafter&Hbefore).
      exists j, sf, fv, fv'.
      rewrite Field_SetField_ne in Hfv by lia.
      replace (j - i)%nat with (S (j - S i)) by lia. simpl.
      repeat split; auto; try lia.
      * intros m Hm. rewrite Hafter by lia. apply Field_SetField_ne. lia.
      * intros m sfm Hm Hsfm Hexm.
        destruct (decide (m = i)) as [->|Hne].
        -- rewrite Nat.sub_diag in Hsfm. simpl in Hsfm. injection Hsfm as <-.
           exists fv0, fv0'. repeat split; auto.
           destruct (loadFields_frame w rec _ _ _ _ _ H i)
             as [Heq|(?&?&?&?&Hle'&_)]; [|lia].
           rewrite Heq. eauto using Field_SetField_eq.
        -- replace (m - i)%nat with (S (m - S i)) in Hsfm by lia.
           simpl in Hsfm.
           destruct (Hbefore m sfm ltac:(lia) Hsfm Hexm) as (x&x'&Hx&Hbx&Hx').
           exists x, x'. rewrite Field_SetField_ne in Hx by lia. auto.
  - destruct (IH _ _ _ _ H)
      as (j&sf&fv&fv'&Hle&Hj&Hex&Hfv&Hb&Hfv'&Hafter&Hbefore).
    exists j, sf, fv, fv'.
    replace (j - i)%nat with (S (j - S i)) by lia. simpl.
    repeat split; auto; try lia.
    intros m sfm Hm Hsfm Hexm.
    destruct (decide (m = i)) as [->|Hne].
    + rewrite Nat.sub_diag in Hsfm. simpl in Hsfm. injection Hsfm as <-.
      congruence.
    + replace (m - i)%nat with (S (m - S i)) in Hsfm by lia.
      simpl in Hsfm. apply (Hbefore m sfm); auto. lia.
Qed.

(** A failed leaf: the field is tagged, its variable is set to a text that
    has no parsed form, and the error is the field error around the cause
    of the leaf parser. *)
Lemma bindField_leaf_failed w rec sf fv fv' e :
  descend (decls w) (Type_ sf) = None ->
  bindField w rec sf fv = Returned fv' (Some e) ->
  exists s cause,
    noTag (Tag sf) = false /\ getenv w (Tag sf) = Some s /\
    parsed w (Type_ sf) s = None /\
    e = ErrField (Name sf) cause /\ leafCause cause.
Proof.
  intros Hd Hb.
  assert (Hleaf : forall x, Type_ sf <> TTime ->
            bindLeaf w sf x = Returned fv' (Some e) ->
            exists s cause,
              noTag (Tag sf) = false /\ getenv w (Tag sf) = Some s /\
              parsed w (Type_ sf) s = None /\
              e = ErrField (Name sf) cause /\ leafCause cause).
  { unfold bindLeaf. intros x Htime Hx.
    destruct (noTag (Tag sf)); [discriminate|].
    destruct (getenv w (Tag sf)) as [s|]; [|discriminate].
    destruct (setValueFromString w (Type_ sf) x s) as [x' [e0|]| | |] eqn:Hs;
      try discriminate.
    injection Hx as <- <-. exists s, e0. repeat split; eauto.
    - destruct (setValueFromString_fails_old w _ _ _ _ _ Hs) as (z&e'&Hz).
      unfold parsed. rewrite Hz. by destruct (Type_ sf).
    - eapply setValueFromString_cause; eauto. }
  unfold bindField, descend in *.
  destruct (Type_ sf) eqn:Ht; try (by apply (Hleaf fv)); try discriminate.
  - destruct (noTag (Tag sf)); simpl in Hb; [discriminate|].
    destruct (getenv w (Tag sf)) as [s|] eqn:Hs; [|discriminate].
    destruct (ParseRFC3339 w s) eqn:Hp; [discriminate|].
    injection Hb as <- <-. exists s, (ErrParse "Parse" s).
    repeat split; eauto.
    + simpl. by rewrite Hp.
    + left. eauto.
  - destruct (Kind_eqb (kind (resolve (decls w) elem)) KStruct);
      [discriminate|].
    destruct fv; by eapply Hleaf.
Qed.

(** An error of the walk is the field error of one tagged, exported field
    that the walker does not recurse into, reached through exported fields,
    whose variable is set to a text without a parsed form. *)
Lemma loadInto_error_source w : forall fuel t v v' e,
  loadInto w fuel t v = Returned v' (Some e) ->
  exists p sf s cause,
    fieldAt (decls w) t p = Some sf /\ exported sf = true /\
    isLeaf (decls w) (Type_ sf) = true /\
    noTag (Tag sf) = false /\ getenv w (Tag sf) = Some s /\
    parsed w (Type_ sf) s = None /\
    e = ErrField (Name sf) cause /\ leafCause cause.
Proof.
  induction fuel as [|k IH]; intros t v v' e H; [discriminate|].
  simpl in H. destruct (Kind_eqb (kind t) KStruct); [|discriminate].
  destruct (loadFields_failed w (loadInto w k) _ _ _ _ _ H)
    as (j&sf&fv&fv'&_&Hj&Hex&_&Hb&_).
  rewrite Nat.sub_0_r in Hj.
  destruct (descend (decls w) (Type_ sf)) as [t'|] eqn:Hd.
  - destruct (bindField_descend w _ _ _ _ _ _ Hd Hb) as (y&y'&Hr&_&_).
    destruct (IH _ _ _ _ Hr)
      as (p&sf'&s&cause&Hat&Hex'&Hleaf&Htag&Henv&Hp&He&Hc).
    exists (j :: p), sf', s, cause. repeat split; auto.
    simpl. rewrite Hj. destruct p as [|i p]; [discriminate|].
    by rewrite Hex, Hd.
  - destruct (bindField_leaf_failed w _ _ _ _ _ Hd Hb)
      as (s&cause&Htag&Henv&Hp&He&Hc).
    exists [j], sf, s, cause. repeat split; auto.
    + simpl. by rewrite Hj.
    + unfold isLeaf. by rewrite Hd.
Qed.

(** X1. Whenever [LoadEnv] returns an error, it is one of the two target
    errors, or the field error of one exported, tagged field that the
    walker does not recurse into, reached through exported fields, whose
    variable is set to a text that has no parsed form for the field's type.
    The error names that field alone (not the fields above it) and wraps
    the error of a library parser or the unsupported-type error.  So a bind
    in which every set variable parses cannot fail. *)
Theorem bind_error_names_a_set_field w fuel out out' e :
  LoadEnv w fuel out = Returned out' (Some e) ->
  InvalidTarget e \/
  exists r v p sf s cause,
    out = Any (TPtr r) (VPtr v) /\
    fieldAt (decls w) (resolve (decls w) r) p = Some sf /\
    exported sf = true /\ isLeaf (decls w) (Type_ sf) = true /\
    noTag (Tag sf) = false /\ getenv w (Tag sf) = Some s /\
    parsed w (Type_ sf) s = None /\
    e = ErrField (Name sf) cause /\ leafCause cause.
Proof.
  unfold LoadEnv, InvalidTarget. intros H.
  destruct out as [|t v]; [injection H as <- <-; auto|].
  destruct t; try (injection H as <- <-; auto).
  destruct (negb (Kind_eqb (elemKind w elem v) KStruct));
    [injection H as <- <-; auto|].
  destruct v; try discriminate.
  destruct (loadInto w fuel (resolve (decls w) elem) v) as [v' e'| | |] eqn:Hi;
    try discriminate.
  injection H as <- ->. right.
  destruct (loadInto_error_source w _ _ _ _ _ Hi)
    as (p&sf&s&cause&Hat&Hex&Hleaf&Htag&Henv&Hp&He&Hc).
  exists elem, v, p, sf, s, cause. repeat split; auto.
Qed.

Lemma bind_error_names_a_set_field_witness :
  InvalidTarget (ErrField "P" (ErrParse "ParseInt" "abc")) \/
  exists r v p sf s cause,
    Any (TPtr (Here OptionalInt)) (VPtr (VStruct [VNil]))
    = Any (TPtr r) (VPtr v) /\
    fieldAt noDecls (resolve noDecls r) p = Some sf /\
    exported sf = true /\ isLeaf noDecls (Type_ sf) = true /\
    noTag (Tag sf) = false /\
    getenv (envWorld noDecls {[ "P" := "abc" ]}) (Tag sf) = Some s /\
    parsed (envWorld noDecls {[ "P" := "abc" ]}) (Type_ sf) s = None /\
    ErrField "P" (ErrParse "ParseInt" "abc") = ErrField (Name sf) cause /\
    leafCause cause.
Proof.
  apply (bind_error_names_a_set_field
           (envWorld noDecls {[ "P" := "abc" ]}) 1
           (Any (TPtr (Here OptionalInt)) (VPtr (VStruct [VNil])))
           (Any (TPtr (Here OptionalInt)) (VPtr (VStruct [VPtr (VInt 0)])))).
  vm_compute. reflexivity.
Defined.

(** X2. With no environment variable set, [LoadConfig] returns no error
    other than a target error: an unset variable is never a failure,
    whatever the record type and the file. *)
Theorem unset_environment_never_fails w fuel file target out' e :
  (forall name, getenv w name = None) ->
  LoadConfig w fuel file target = Returned out' (Some e) ->
  InvalidTarget e.
Proof.
  intros Hunset H.
  assert (Henv : forall out, LoadEnv w fuel out = Returned out' (Some e) ->
                             InvalidTarget e).
  { unfold LoadEnv, InvalidTarget. intros out Hout.
    destruct out as [|t v]; [injection Hout as <- <-; auto|].
    destruct t; try (injection Hout as <- <-; auto).
    destruct (negb (Kind_eqb (elemKind w elem v) KStruct));
      [injection Hout as <- <-; auto|].
    destruct v; try discriminate.
    destruct (loadInto w fuel (resolve (decls w) elem) v)
      as [v' e'| | |] eqn:Hi; try discriminate.
    injection Hout as <- ->.
    destruct (loadInto_error_source w _ _ _ _ _ Hi)
      as (p&sf&s&cause&_&_&_&_&Hs&_).
    rewrite Hunset in Hs. discriminate. }
  unfold LoadConfig in H.
  destruct (negb (file =? "")%string); [|eauto].
  destruct (Stat w file) as [[|]| |]; try discriminate; eauto.
  destruct (DecodeFile w file target) as [value' [|]]; try discriminate; eauto.
Qed.

Lemma unset_environment_never_fails_witness :
  InvalidTarget ErrNotStructPointer.
Proof.
  apply (unset_environment_never_fails (envWorld noDecls ∅) 1 ""
           (Any (TPtr (Here (TInt 64))) (VPtr (VInt 3)))
           (Any (TPtr (Here (TInt 64))) (VPtr (VInt 3)))
           ErrNotStructPointer).
  - intros name. reflexivity.
  - reflexivity.
Defined.

(** ** The first failure *)

(** A walk of a tree that returns an error stopped at one exported field:
    the body of the loop returned that error for it, every later field of
    the tree is as it was, and every exported field before it was bound
    without error. *)
Lemma loadInto_first_failure w fuel t v v' e :
  loadInto w fuel t v = Returned v' (Some e) ->
  exists k j sf fv fv',
    fuel = S k /\ fieldsOf t !! j = Some sf /\ exported sf = true /\
    Field v j = Some fv /\
    bindField w (loadInto w k) sf fv = Returned fv' (Some e) /\
    Field v' j = Some fv' /\
    (forall m, (j < m)%nat -> Field v' m = Field v m) /\
    (forall m sfm,
        (m < j)%nat -> fieldsOf t !! m = Some sfm -> exported sfm = true ->
        exists x x',
          Field v m = Some x /\
          bindField w (loadInto w k) sfm x = Returned x' None /\
          Field v' m = Some x').
Proof.
  intros H. destruct fuel as [|k]; [discriminate|]. simpl in H.
  destruct (Kind_eqb (kind t) KStruct); [|discriminate].
  destruct (loadFields_failed w _ _ _ _ _ _ H)
    as (j&sf&fv&fv'&_&Hj&Hex&Hfv&Hb&Hfv'&Hafter&Hbefore).
  rewrite Nat.sub_0_r in Hj.
  exists k, j, sf, fv, fv'. repeat split; auto.
  intros m sfm Hm Hsfm Hexm. apply (Hbefore m sfm); auto; [lia|].
  by rewrite Nat.sub_0_r.
Qed.

(** X4. A field that the walker does not recurse into and whose type is not
    a pointer keeps its contents when binding it fails: the scalar cases,
    the list case and the timestamp case assign only after a successful
    parse. *)
Theorem failed_leaf_keeps_contents w rec sf fv fv' e :
  isLeaf (decls w) (Type_ sf) = true -> (forall r, Type_ sf <> TPtr r) ->
  bindField w rec sf fv = Returned fv' (Some e) -> fv' = fv.
Proof.
  unfold isLeaf, descend, bindField, bindLeaf. intros Hleaf Hptr.
  assert (Hgen : match (if noTag (Tag sf) then Returned fv None
                        else match getenv w (Tag sf) with
                             | Some s =>
                                 match setValueFromString w (Type_ sf) fv s with
                                 | Returned fv'0 (Some err) =>
                                     Returned fv'0 (Some (fieldErr sf err))
                                 | o => o
                                 end
                             | None => Returned fv None
                             end) with
                 | Returned x (Some _) => x = fv
                 | _ => True
                 end).
  { destruct (noTag (Tag sf)); [exact I|].
    destruct (getenv w (Tag sf)) as [s|]; [|exact I].
    destruct (setValueFromString w (Type_ sf) fv s) as [x [e0|]| | |] eqn:Hs;
      try exact I.
    eapply failed_parse_keeps_contents; eauto. }
  destruct (Type_ sf) eqn:Ht; try discriminate Hleaf;
    try (intros H; rewrite H in Hgen; exact Hgen).
  - destruct (negb (noTag (Tag sf))); [|discriminate].
    destruct (getenv w (Tag sf)) as [s|]; [|discriminate].
    destruct (ParseRFC3339 w s); [discriminate|]. by intros [= <- _].
  - destruct (Hptr elem eq_refl).
Qed.

Lemma failed_leaf_keeps_contents_witness :
  VInt 1234 = VInt 1234.
Proof.
  apply (failed_leaf_keeps_contents
           (envWorld noDecls {[ "SERVER_PORT" := "http" ]})
           (loadInto (envWorld noDecls {[ "SERVER_PORT" := "http" ]}) 0)
           (StructField "Port" "" "SERVER_PORT" (TInt 64))
           (VInt 1234) (VInt 1234)
           (ErrField "Port" (ErrParse "ParseInt" "http"))).
  - reflexivity.
  - discriminate.
  - vm_compute. reflexivity.
Defined.

(** ** What the walk leaves alone *)

(** Contents that the body of the loop gives back unchanged stay in place
    through the whole walk. *)
Lemma loadInto_keeps_at w : forall p fuel t v v' err,
  loadInto w fuel t v = Returned v' err ->
  forall sf x,
    fieldAt (decls w) t p = Some sf ->
    valueAt (decls w) t v p = Some x ->
    (exported sf = true ->
     forall k fv' e,
       bindField w (loadInto w k) sf x = Returned fv' e -> fv' = x) ->
    valueAt (decls w) t v' p = Some x.
Proof.
  induction p as [|i p' IH]; intros fuel t v v' err H sf x Hat Hv Hin;
    [discriminate|].
  destruct fuel as [|k]; [discriminate|]. simpl in H.
  destruct (Kind_eqb (kind t) KStruct); [|discriminate].
  simpl in Hat, Hv. simpl valueAt.
  destruct (fieldsOf t !! i) as [sfi|] eqn:Hi; [|discriminate].
  destruct (loadFields_frame w _ _ _ _ _ _ H i)
    as [Heq|(sf'&fv&fv'&e&_&Hl&Hex&Hfv&Hb&Hfv')].
  - rewrite Heq. exact Hv.
  - rewrite Nat.sub_0_r, Hi in Hl. injection Hl as <-.
    rewrite Hfv in Hv. rewrite Hfv'.
    destruct p' as [|i' p''].
    + injection Hat as ->. injection Hv as ->.
      by rewrite (Hin Hex _ _ _ Hb).
    + rewrite Hex in *.
      destruct (descend (decls w) (Type_ sfi)) as [t'|] eqn:Hd;
        [|discriminate].
      destruct (bindField_descend w _ _ _ _ _ _ Hd Hb) as (y&y'&Hr&Hy'&Hy).
      rewrite Hy'.
      destruct (enter (Type_ sfi) fv) as [y0|]; [|discriminate].
      rewrite (Hy y0 eq_refl) in Hv. eapply IH; eauto.
Qed.

(** On a tree an unexported field holds after the bind what it held
    before. *)
Lemma LoadEnv_unexported_kept w fuel r v out' err p sf x :
  LoadEnv w fuel (Any (TPtr r) (VPtr v)) = Returned out' err ->
  fieldAt (decls w) (resolve (decls w) r) p = Some sf ->
  exported sf = false ->
  valueAt (decls w) (resolve (decls w) r) v p = Some x ->
  exists v', out' = Any (TPtr r) (VPtr v') /\
             valueAt (decls w) (resolve (decls w) r) v' p = Some x.
Proof.
  intros Hload Hat Hex Hv.
  apply LoadEnv_Returned in Hload as [(v'&Hinto&->)|[-> _]]; [|eauto].
  exists v'. split; [reflexivity|].
  eapply loadInto_keeps_at; eauto. congruence.
Qed.

Lemma loadInto_time w k y :
  loadInto w (S k) TTime y = Returned y None.
Proof. reflexivity. Qed.

(** On a tree a field of type [*time.Time] is never bound from its
    variable: a non-nil pointer keeps its pointee, and after a bind that
    returned [nil] a nil one points to the zero time. *)
Lemma LoadEnv_pointer_to_time w fuel r v out' err p sf :
  LoadEnv w fuel (Any (TPtr r) (VPtr v)) = Returned out' err ->
  fieldAt (decls w) (resolve (decls w) r) p = Some sf ->
  Type_ sf = TPtr (Here TTime) ->
  exists v',
    out' = Any (TPtr r) (VPtr v') /\
    (forall y,
        valueAt (decls w) (resolve (decls w) r) v p = Some (VPtr y) ->
        valueAt (decls w) (resolve (decls w) r) v' p = Some (VPtr y)) /\
    (exported sf = true -> err = None ->
     valueAt (decls w) (resolve (decls w) r) v p = Some VNil ->
     valueAt (decls w) (resolve (decls w) r) v' p
     = Some (VPtr (VTime zeroTime))).
Proof.
  intros Hload Hat Ht.
  apply LoadEnv_Returned in Hload as [(v'&Hinto&->)|[-> ->]].
  - exists v'. split; [reflexivity|]. split.
    + intros y Hy. eapply loadInto_keeps_at; eauto.
      intros _ k fv' e. unfold bindField. rewrite Ht. simpl.
      destruct k as [|k]; [discriminate|].
      rewrite loadInto_time. congruence.
    + intros Hex -> Hnil.
      destruct (loadInto_bound_at w _ _ _ _ _ Hinto sf Hat Hex)
        as (k&fv&fv'&Hb&Hv'&Hfv).
      rewrite <- (Hfv _ Hnil) in Hb. unfold bindField in Hb.
      rewrite Ht in Hb. simpl in Hb.
      destruct k as [|k]; [discriminate|].
      rewrite loadInto_time in Hb. congruence.
  - exists v. split; [reflexivity|]. split; [auto|discriminate].
Qed.

(** ** Binding twice *)

Lemma setValueFromString_again w t : forall v s x,
  setValueFromString w t v s = Returned x None ->
  setValueFromString w t x s = Returned x None.
Proof.
  induction t using ty_mut with
    (P0 := fun r => match r with
                    | Here e => forall v s x,
                        setValueFromString w e v s = Returned x None ->
                        setValueFromString w e x s = Returned x None
                    | Decl _ => True
                    end)
    (P1 := fun _ => True); intros; simpl in *; auto;
    try (match goal with H : fromOption _ _ _ ?o = _ |- _ =>
           destruct o; simpl in *; [exact H | discriminate H] end);
    try discriminate.
  - (* slice *)
    match goal with H : match ?f with _ => _ end = _ |- _ =>
      destruct f as [? [?|]| | |]; try discriminate H; exact H end.
  - (* pointer *)
    destruct elem as [e|n]; simpl in *.
    + destruct v; try discriminate;
        match goal with H : match setValueFromString w e ?b s with _ => _ end = _ |- _ =>
          destruct (setValueFromString w e b s) as [x' [err|]| | |] eqn:He;
            try discriminate H; injection H as <-;
            by rewrite (IHt _ _ _ He) end.
    + destruct v; discriminate.
  - eauto.
Qed.

Section Again.

Variable w : World.
Variable rec : ty -> value -> outcome value.
Hypothesis rec_again : forall t y y',
  rec t y = Returned y' None -> rec t y' = Returned y' None.

Lemma bindField_again sf fv fv' :
  bindField w rec sf fv = Returned fv' None ->
  bindField w rec sf fv' = Returned fv' None.
Proof.
  assert (Hleaf : forall x,
            bindLeaf w sf x = Returned fv' None ->
            bindLeaf w sf fv' = Returned fv' None).
  { unfold bindLeaf. intros x.
    destruct (noTag (Tag sf)); [congruence|].
    destruct (getenv w (Tag sf)) as [s|]; [|congruence].
    destruct (setValueFromString w (Type_ sf) x s) as [x' [e|]| | |] eqn:Hs;
      try discriminate.
    intros [= ->]. by rewrite (setValueFromString_again w _ _ _ _ Hs). }
  unfold bindField. destruct (Type_ sf) eqn:Ht; try apply Hleaf.
  - destruct (negb (noTag (Tag sf))); [|congruence].
    destruct (getenv w (Tag sf)) as [s|]; [|congruence].
    destruct (ParseRFC3339 w s); [|discriminate]. congruence.
  - destruct (Kind_eqb (kind (resolve (decls w) elem)) KStruct).
    + destruct fv; try discriminate;
        match goal with |- match rec ?a ?b with _ => _ end = _ -> _ =>
          destruct (rec a b) as [p' [e|]| | |] eqn:Hr; try discriminate;
            intros [= <-]; by rewrite (rec_again _ _ _ Hr) end.
    + intros H. assert (Hfv' : bindLeaf w sf fv' = Returned fv' None)
        by (destruct fv; eapply Hleaf; eauto).
      by destruct fv'.
  - apply rec_again.
Qed.

Lemma loadFields_settled fs : forall i v',
  (forall k sf, fs !! k = Some sf -> exported sf = true ->
     exists fv',
       Field v' (i + k)%nat = Some fv' /\
       bindField w rec sf fv' = Returned fv' None) ->
  loadFields w rec fs i v' = Returned v' None.
Proof.
  induction fs as [|sf rest IH]; intros i v' H; simpl; [reflexivity|].
  fold (exported sf). destruct (exported sf) eqn:Hex; simpl.
  - destruct (H 0%nat sf eq_refl Hex) as (fv'&Hfv'&Hb).
    rewrite Nat.add_0_r in Hfv'. rewrite Hfv', Hb.
    replace (SetField v' i fv') with v'.
    2:{ destruct v'; try discriminate. simpl in *.
        by rewrite list_insert_id. }
    apply IH. intros k sf' Hk Hex'.
    replace (S i + k)%nat with (i + S k)%nat by lia. by apply (H (S k)).
  - apply IH. intros k sf' Hk Hex'.
    replace (S i + k)%nat with (i + S k)%nat by lia. by apply (H (S k)).
Qed.

Lemma loadFields_again fs i v v' :
  loadFields w rec fs i v = Returned v' None ->
  loadFields w rec fs i v' = Returned v' None.
Proof.
  intros H. apply loadFields_settled. intros k sf Hk Hex.
  destruct (loadFields_bound w rec _ _ _ _ H k sf Hk Hex) as (fv&fv'&_&Hb&Hv').
  exists fv'. split; [exact Hv'|]. by apply (bindField_again sf fv).
Qed.

End Again.

Lemma loadInto_again w fuel : forall t v v',
  loadInto w fuel t v = Returned v' None ->
  loadInto w fuel t v' = Returned v' None.
Proof.
  induction fuel as [|k IH]; intros t v v' H; [discriminate|].
  simpl in *. destruct (Kind_eqb (kind t) KStruct); [|discriminate].
  eapply loadFields_again; eauto.
Qed.

(** X7. Binding is idempotent: when [LoadEnv] has returned [nil], a second
    [LoadEnv] on the result, in the same environment, returns [nil] and
    changes nothing. *)
Theorem second_bind_changes_nothing w fuel out out' :
  LoadEnv w fuel out = Returned out' None ->
  LoadEnv w fuel out' = Returned out' None.
Proof.
  unfold LoadEnv, elemKind. intros H.
  destruct out as [|t v]; [discriminate|].
  destruct t; try discriminate.
  destruct v; try discriminate.
  destruct (Kind_eqb (kind (resolve (decls w) elem)) KStruct) eqn:Hk;
    simpl in H; [|discriminate].
  destruct (loadInto w fuel (resolve (decls w) elem) v) as [v' [e|]| | |] eqn:Hi;
    try discriminate.
  injection H as <-. rewrite Hk. simpl.
  by rewrite (loadInto_again w _ _ _ _ Hi).
Qed.

Lemma second_bind_changes_nothing_witness :
  LoadEnv (envWorld noDecls nestedEnv) 3
    (Any (TPtr (Here NestedConfig))
       (VPtr (VStruct
                [VStruct
                   [VString "root";
                    VPtr (VStruct [VInt 42; VBool true;
                                   VSlice [VInt 1; VInt 2; VInt 3];
                                   VString "nested"])]])))
  = Returned
      (Any (TPtr (Here NestedConfig))
         (VPtr (VStruct
                  [VStruct
                     [VString "root";
                      VPtr (VStruct [VInt 42; VBool true;
                                     VSlice [VInt 1; VInt 2; VInt 3];
                                     VString "nested"])]])))
      None.
Proof.
  apply (second_bind_changes_nothing (envWorld noDecls nestedEnv) 3
           (Any (TPtr (Here NestedConfig)) (VPtr (zero NestedConfig)))).
  vm_compute. reflexivity.
Defined.

(** ** The shape of the contents *)

Lemma hasType_struct_intro d vs fs :
  length vs = length fs ->
  (forall k x sf, vs !! k = Some x -> fs !! k = Some sf ->
                  hasType d x (Type_ sf) = true) ->
  hasType d (VStruct vs) (TStruct fs) = true.
Proof.
  simpl. revert fs. induction vs as [|x vs IH]; intros [|sf fs] Hlen H;
    try discriminate; [reflexivity|].
  rewrite (H 0%nat x sf eq_refl eq_refl). simpl.
  apply IH; [by injection Hlen|].
  intros k y sf' Hy Hsf'. by apply (H (S k)).
Qed.

Lemma hasType_struct_length d vs fs :
  hasType d (VStruct vs) (TStruct fs) = true -> length vs = length fs.
Proof.
  simpl. revert fs. induction vs as [|x vs IH]; intros [|sf fs] H;
    try discriminate; [reflexivity|].
  apply andb_prop in H as [_ H]. simpl. f_equal. by apply IH.
Qed.

Lemma Forall2_results {A B} (R : A -> B -> Prop) (Q : B -> Prop) l k :
  Forall2 R l k -> (forall a b, R a b -> Q b) -> forall b, In b k -> Q b.
Proof.
  induction 1 as [|a b l k Hab _ IH]; intros HQ y Hy; simpl in Hy;
    [destruct Hy|].
  destruct Hy as [<-|Hy]; eauto.
Qed.

Lemma setValueFromString_hasType w t : forall v s v' e,
  hasType (decls w) v t = true ->
  setValueFromString w t v s = Returned v' e ->
  hasType (decls w) v' t = true.
Proof.
  induction t using ty_mut with
    (P0 := fun r => match r with
                    | Here t0 => forall v s v' e,
                        hasType (decls w) v t0 = true ->
                        setValueFromString w t0 v s = Returned v' e ->
                        hasType (decls w) v' t0 = true
                    | Decl _ => True
                    end)
    (P1 := fun _ => True); intros; simpl in *; auto;
    try (match goal with H : fromOption _ _ _ ?o = _ |- _ =>
           destruct o as [?|] eqn:Ho; simpl in H; injection H as <- <-;
           [|assumption];
           repeat match goal with
                  | H : _ <$> ?p = Some _ |- _ =>
                      destruct p; simpl in H; [injection H as <-|discriminate H]
                  end; reflexivity end);
    try (match goal with H : Returned _ _ = Returned _ _ |- _ =>
           injection H as <- <-; first [reflexivity | assumption] end).
  - (* slice *)
    pose proof (fillSlice_spec
                  (match elem with
                   | Here e0 => setValueFromString w e0
                   | Decl _ => fun x _ =>
                       Returned x (Some (ErrUnsupported (resolve (decls w) elem)))
                   end)
                  (zero (resolve (decls w) elem)) (splitComma s) []) as Hspec.
    simpl in Hspec.
    destruct (fillSlice _ _ _ _) as [sl [e0|]| | |] eqn:Hf; try discriminate.
    + by injection H0 as <- <-.
    + injection H0 as <- <-.
      destruct (proj1 (Hspec sl) eq_refl) as (xs&Hxs&->). simpl.
      apply forallb_forall.
      apply (Forall2_results _ _ _ _ Hxs). intros p x Hp.
      destruct elem as [t0|n]; simpl in *; [|discriminate].
      eapply IHt; [apply zero_hasType|exact Hp].
  - (* pointer *)
    destruct elem as [t0|n]; simpl in *.
    + destruct v; try discriminate;
        match goal with H : match setValueFromString w t0 ?b s with _ => _ end = _ |- _ =>
          destruct (setValueFromString w t0 b s) as [x' err| | |] eqn:He;
            try discriminate H; injection H as <- <-; simpl;
            eapply IHt; [|exact He]; first [apply zero_hasType | assumption] end.
    + destruct v; try discriminate; injection H0 as <- <-; simpl;
        first [apply (zero_hasType (decls w) (TStruct (decls w n))) | assumption].
  - eauto.
Qed.

Section Shape.

Variable w : World.
Variable rec : ty -> value -> outcome value.
Hypothesis rec_hasType : forall t y y' e,
  kind t = KStruct -> hasType (decls w) y t = true ->
  rec t y = Returned y' e -> hasType (decls w) y' t = true.

Lemma bindField_hasType sf fv fv' e :
  hasType (decls w) fv (Type_ sf) = true ->
  bindField w rec sf fv = Returned fv' e ->
  hasType (decls w) fv' (Type_ sf) = true.
Proof.
  intros Hty.
  assert (Hleaf : bindLeaf w sf fv = Returned fv' e ->
                  hasType (decls w) fv' (Type_ sf) = true).
  { unfold bindLeaf. destruct (noTag (Tag sf)); [congruence|].
    destruct (getenv w (Tag sf)) as [s|]; [|congruence].
    destruct (setValueFromString w (Type_ sf) fv s) as [x [e0|]| | |] eqn:Hs;
      try discriminate; intros [= <- _];
      eapply setValueFromString_hasType; eauto. }
  unfold bindField. destruct (Type_ sf) eqn:Ht; try exact Hleaf.
  - destruct (negb (noTag (Tag sf))); [|congruence].
    destruct (getenv w (Tag sf)) as [s|]; [|congruence].
    destruct (ParseRFC3339 w s); [|congruence]. by intros [= <- _].
  - destruct (Kind_eqb (kind (resolve (decls w) elem)) KStruct) eqn:Hk.
    + apply Kind_eqb_eq in Hk.
      destruct fv; try discriminate Hty;
        match goal with |- match rec ?a ?b with _ => _ end = _ -> _ =>
          destruct (rec a b) as [p' e'| | |] eqn:Hr; try discriminate;
            intros [= <- _]; simpl;
            eapply rec_hasType; [exact Hk| |exact Hr];
            first [apply zero_hasType | assumption] end.
    + by destruct fv.
  - intros Hr. eapply rec_hasType; eauto.
Qed.

Lemma loadFields_length fs : forall i vs v' e,
  loadFields w rec fs i (VStruct vs) = Returned v' e ->
  exists vs', v' = VStruct vs' /\ length vs' = length vs.
Proof.
  induction fs as [|sf rest IH]; intros i vs v' e H; simpl in H.
  - injection H as <- _. eauto.
  - destruct (negb (PkgPath sf =? "")%string); [eauto|].
    destruct (vs !! i) as [fv|]; [|discriminate].
    destruct (bindField w rec sf fv) as [fv' [e0|]| | |]; try discriminate.
    + injection H as <- _. eexists. split; [reflexivity|].
      apply length_insert.
    + destruct (IH _ _ _ _ H) as (vs'&->&Hlen).
      exists vs'. split; [reflexivity|]. by rewrite Hlen, length_insert.
Qed.

Lemma loadFields_hasType fs vs v' e :
  hasType (decls w) (VStruct vs) (TStruct fs) = true ->
  loadFields w rec fs 0 (VStruct vs) = Returned v' e ->
  hasType (decls w) v' (TStruct fs) = true.
Proof.
  intros Hty H.
  destruct (loadFields_length _ _ _ _ _ H) as (vs'&->&Hlen).
  apply hasType_struct_intro.
  - rewrite Hlen. by apply hasType_struct_length in Hty.
  - intros k x sf Hx Hsf.
    destruct (hasType_struct _ _ _ Hty k sf Hsf) as (x0&Hx0&Hty0).
    destruct (loadFields_frame w rec _ _ _ _ _ H k)
      as [Heq|(sf'&fv&fv'&e'&_&Hl&_&Hfv&Hb&Hfv')]; simpl in *.
    + congruence.
    + rewrite Nat.sub_0_r in Hl.
      assert (sf' = sf) as -> by congruence.
      assert (fv = x0) as -> by congruence.
      assert (fv' = x) as -> by congruence.
      eapply bindField_hasType; eauto.
Qed.

End Shape.

Lemma loadInto_hasType w fuel : forall t v v' e,
  kind t = KStruct -> hasType (decls w) v t = true ->
  loadInto w fuel t v = Returned v' e -> hasType (decls w) v' t = true.
Proof.
  induction fuel as [|k IH]; intros t v v' e Hk Hty H; [discriminate|].
  simpl in H. destruct (Kind_eqb (kind t) KStruct); [|discriminate].
  destruct t; try discriminate Hk.
  - injection H as <- _. exact Hty.
  - destruct v; try discriminate Hty.
    eapply loadFields_hasType; eauto.
Qed.

(** X8. The bind keeps the type and the shape of its argument: what
    [LoadEnv] leaves has the dynamic type of the argument it was given, and
    when the contents passed to it have the shape of that type, so have the
    contents it leaves, whether it returns [nil] or an error. *)
Theorem bind_keeps_the_shape w fuel out out' err :
  LoadEnv w fuel out = Returned out' err ->
  dynType out' = dynType out /\
  (wellShaped (decls w) out = true -> wellShaped (decls w) out' = true).
Proof.
  unfold LoadEnv, elemKind. intros H.
  destruct out as [|t v]; [by injection H as <- _|].
  destruct t; try (by injection H as <- _).
  destruct v; try (by injection H as <- _).
  destruct (Kind_eqb (kind (resolve (decls w) elem)) KStruct) eqn:Hk;
    simpl in H; [|by injection H as <- _].
  apply Kind_eqb_eq in Hk.
  destruct (loadInto w fuel (resolve (decls w) elem) v) as [v' e| | |] eqn:Hi;
    try discriminate.
  injection H as <- _. split; [reflexivity|].
  simpl. intros Hty. eapply loadInto_hasType; eauto.
Qed.

Lemma bind_keeps_the_shape_witness :
  dynType (Any (TPtr (Here OptionalInt)) (VPtr (VStruct [VPtr (VInt 0)])))
  = dynType (Any (TPtr (Here OptionalInt)) (VPtr (VStruct [VNil]))) /\
  (wellShaped noDecls (Any (TPtr (Here OptionalInt)) (VPtr (VStruct [VNil])))
   = true ->
   wellShaped noDecls
     (Any (TPtr (Here OptionalInt)) (VPtr (VStruct [VPtr (VInt 0)]))) = true).
Proof.
  apply (bind_keeps_the_shape (envWorld noDecls {[ "P" := "abc" ]}) 1
           (Any (TPtr (Here OptionalInt)) (VPtr (VStruct [VNil])))
           _ (Some (ErrField "P" (ErrParse "ParseInt" "abc")))).
  vm_compute. reflexivity.
Defined.

(** X9. On a well-shaped target the calls into [reflect] never panic:
    every [Field(i)], [Elem()] and [Index(i)] the binder makes is in range
    and of the right kind, for every environment and any amount of fuel. *)
Theorem bind_never_panics w fuel out :
  wellShaped (decls w) out = true -> LoadEnv w fuel out <> Panicked.
Proof.
  unfold LoadEnv, elemKind. intros Hty.
  destruct out as [|t v]; [discriminate|].
  destruct t; try discriminate.
  destruct v; try discriminate.
  destruct (Kind_eqb (kind (resolve (decls w) elem)) KStruct) eqn:Hk;
    simpl; [|discriminate].
  apply Kind_eqb_eq in Hk. simpl in Hty.
  pose proof (loadInto_no_panic w fuel _ _ Hk Hty) as Hnp.
  destruct (loadInto w fuel (resolve (decls w) elem) v); try discriminate.
  contradiction.
Qed.

Lemma bind_never_panics_witness :
  LoadEnv (envWorld noDecls nestedEnv) 3
    (Any (TPtr (Here NestedConfig)) (VPtr (zero NestedConfig))) <> Panicked.
Proof.
  apply (bind_never_panics (envWorld noDecls nestedEnv) 3
           (Any (TPtr (Here NestedConfig)) (VPtr (zero NestedConfig)))).
  reflexivity.
Defined.

(** ** The elements of a list text *)

Lemma Split_noComma x : noComma x = true -> strings.Split x ","%char = [x].
Proof.
  induction x as [|c x IH]; simpl; [reflexivity|].
  intros H. apply andb_prop in H as [Hc Hx].
  apply negb_true_iff in Hc. rewrite Hc, (IH Hx). reflexivity.
Qed.

Lemma Split_comma x rest :
  noComma x = true ->
  strings.Split (x ++ String ","%char rest)%string ","%char
  = x :: strings.Split rest ","%char.
Proof.
  induction x as [|c x IH]; simpl; [reflexivity|].
  intros H. apply andb_prop in H as [Hc Hx].
  apply negb_true_iff in Hc. rewrite Hc, (IH Hx). reflexivity.
Qed.

Lemma Split_joinComma xs :
  xs <> [] -> Forall (fun x => noComma x = true) xs ->
  strings.Split (joinComma xs) ","%char = xs.
Proof.
  unfold joinComma.
  induction xs as [|x xs IH]; intros Hne Hall; [congruence|].
  apply Forall_cons in Hall as [Hx Hxs].
  destruct xs as [|y ys].
  - simpl. by apply Split_noComma.
  - change (String.concat "," (x :: y :: ys))
      with (x ++ String ","%char (String.concat "," (y :: ys)))%string.
    rewrite Split_comma by assumption. f_equal. by apply IH.
Qed.

(** Joining segments by commas and splitting again gives the segments. *)
Lemma splitComma_joinComma xs :
  Forall isSegment xs -> splitComma (joinComma xs) = xs.
Proof.
  intros Hall. destruct xs as [|x xs]; [reflexivity|].
  rewrite splitComma_segments. unfold segments.
  rewrite Split_joinComma; [|discriminate|].
  2:{ eapply Forall_impl; [exact Hall|]. by intros ? (_&?&_). }
  induction Hall as [|y ys (Hne&_&Htrim) _ IH]; [reflexivity|].
  simpl. rewrite Htrim.
  apply String.eqb_neq in Hne. rewrite Hne. simpl. by f_equal.
Qed.

(** X10. Round trip of a list of texts: when every element is non-empty,
    has no comma and no white space around it, binding the elements joined
    by commas to a [[]string] field assigns exactly these elements, in
    order ([splitComma] undoes the joining). *)
Theorem joined_texts_bind_back w v xs :
  Forall isSegment xs ->
  splitComma (joinComma xs) = xs /\
  setValueFromString w (TSlice (Here TString)) v (joinComma xs)
  = Returned (VSlice (VString <$> xs)) None.
Proof.
  intros Hall. split; [by apply splitComma_joinComma|].
  apply setValueFromString_slice.
  rewrite <- splitComma_segments, splitComma_joinComma by assumption.
  clear Hall. induction xs as [|x xs IH]; constructor; auto.
Qed.

Lemma joined_texts_bind_back_witness :
  splitComma (joinComma ["a"; "b c"; "d"]) = ["a"; "b c"; "d"] /\
  setValueFromString (envWorld noDecls ∅) (TSlice (Here TString)) VNil
    (joinComma ["a"; "b c"; "d"])
  = Returned (VSlice (VString <$> ["a"; "b c"; "d"])) None.
Proof.
  apply (joined_texts_bind_back (envWorld noDecls ∅) VNil ["a"; "b c"; "d"]).
  repeat constructor; discriminate.
Defined.

(** *** White space around a text *)

Lemma append_cons c a b :
  (String c a ++ b)%string = String c (a ++ b)%string.
Proof. reflexivity. Qed.

Lemma append_empty_r s : (s ++ "")%string = s.
Proof.
  induction s as [|c s IH]; [reflexivity|]. by rewrite append_cons, IH.
Qed.

Lemma append_assoc' a b c : ((a ++ b) ++ c)%string = (a ++ (b ++ c))%string.
Proof.
  induction a as [|x a IH]; [reflexivity|]. by rewrite !append_cons, IH.
Qed.

Lemma noComma_append a b :
  noComma (a ++ b)%string = (noComma a && noComma b)%bool.
Proof.
  induction a as [|x a IH]; [reflexivity|].
  rewrite append_cons. simpl. rewrite IH. by rewrite andb_assoc.
Qed.

Lemma rev_spec s : forall acc,
  strings.rev s acc = (strings.rev s "" ++ acc)%string.
Proof.
  induction s as [|c s IH]; intros acc; simpl; [reflexivity|].
  rewrite (IH (String c acc)), (IH (String c "")).
  by rewrite append_assoc'.
Qed.

Lemma rev_append a b :
  strings.rev (a ++ b)%string "" =
  (strings.rev b "" ++ strings.rev a "")%string.
Proof.
  induction a as [|x a IH].
  - by rewrite append_empty_r.
  - rewrite append_cons. simpl.
    rewrite (rev_spec (a ++ b)%string), (rev_spec a (String x "")), IH.
    by rewrite append_assoc'.
Qed.

Lemma rev_involutive s : strings.rev (strings.rev s "") "" = s.
Proof.
  induction s as [|c s IH]; simpl; [reflexivity|].
  rewrite (rev_spec s (String c "")), rev_append, IH. reflexivity.
Qed.

Section TrimWith.

Variable sp2 : ascii -> ascii -> bool.
Variable sp3 : ascii -> ascii -> ascii -> bool.
Variable trim : string -> string.
Hypothesis trim_step : forall s,
  trim s = match headSpace sp2 sp3 s with
           | Some r => trim r
           | None => s
           end.

Lemma headSpace_rest s r :
  headSpace sp2 sp3 s = Some r ->
  (String.length r < String.length s)%nat /\ exists a, s = (a ++ r)%string.
Proof.
  destruct s as [|c1 [|c2 [|c3 r3]]]; simpl; try discriminate.
  - destruct (strings.asciiSpace c1); [|discriminate].
    intros [= <-]. split; [simpl; lia|]. by exists (String c1 "").
  - destruct (strings.asciiSpace c1).
    + intros [= <-]. split; [simpl; lia|]. by exists (String c1 "").
    + destruct (sp2 c1 c2); [|discriminate].
      intros [= <-]. split; [simpl; lia|].
      by exists (String c1 (String c2 "")).
  - destruct (strings.asciiSpace c1).
    + intros [= <-]. split; [simpl; lia|]. by exists (String c1 "").
    + destruct (sp2 c1 c2).
      * intros [= <-]. split; [simpl; lia|].
        by exists (String c1 (String c2 "")).
      * destruct (sp3 c1 c2 c3); [|discriminate].
        intros [= <-]. split; [simpl; lia|].
        by exists (String c1 (String c2 (String c3 ""))).
Qed.

Lemma trim_result : forall n s,
  (String.length s <= n)%nat ->
  headSpace sp2 sp3 (trim s) = None /\ exists a, s = (a ++ trim s)%string.
Proof.
  induction n as [|n IH]; intros s Hn; rewrite (trim_step s).
  - destruct s; [|simpl in Hn; lia]. simpl. split; [reflexivity|].
    by exists "".
  - destruct (headSpace sp2 sp3 s) as [r|] eqn:Hs.
    + destruct (headSpace_rest _ _ Hs) as (Hlen&a&->).
      destruct (IH r ltac:(lia)) as (Hhead&b&Hb).
      split; [exact Hhead|]. exists (a ++ b)%string.
      rewrite append_assoc'. by rewrite <- Hb.
    + split; [exact Hs|]. by exists "".
Qed.

Lemma trim_fixed s : headSpace sp2 sp3 s = None -> trim s = s.
Proof. intros H. by rewrite trim_step, H. Qed.

Lemma headSpace_prefix p q :
  headSpace sp2 sp3 (p ++ q)%string = None ->
  p <> "" -> headSpace sp2 sp3 p = None.
Proof.
  destruct p as [|c1 [|c2 [|c3 r3]]]; rewrite ?append_cons; simpl;
    try congruence.
  - destruct (strings.asciiSpace c1); [discriminate|]. reflexivity.
  - destruct (strings.asciiSpace c1); [discriminate|].
    destruct (sp2 c1 c2); [discriminate|]. reflexivity.
  - destruct (strings.asciiSpace c1); [discriminate|].
    destruct (sp2 c1 c2); [discriminate|].
    destruct (sp3 c1 c2 c3); [discriminate|]. reflexivity.
Qed.

End TrimWith.

Lemma trimLeft_step s :
  strings.trimLeft s =
  match headSpace strings.space2 strings.space3 s with
  | Some r => strings.trimLeft r
  | None => s
  end.
Proof.
  destruct s as [|c1 [|c2 [|c3 r3]]]; simpl; try reflexivity.
  - by destruct (strings.asciiSpace c1).
  - destruct (strings.asciiSpace c1); [reflexivity|].
    by destruct (strings.space2 c1 c2).
  - destruct (strings.asciiSpace c1); [reflexivity|].
    destruct (strings.space2 c1 c2); [reflexivity|].
    by destruct (strings.space3 c1 c2 c3).
Qed.

Lemma trimLeftRev_step s :
  strings.trimLeftRev s =
  match headSpace (fun a b => strings.space2 b a)
          (fun a b c => strings.space3 c b a) s with
  | Some r => strings.trimLeftRev r
  | None => s
  end.
Proof.
  destruct s as [|c1 [|c2 [|c3 r3]]]; simpl; try reflexivity.
  - by destruct (strings.asciiSpace c1).
  - destruct (strings.asciiSpace c1); [reflexivity|].
    by destruct (strings.space2 c2 c1).
  - destruct (strings.asciiSpace c1); [reflexivity|].
    destruct (strings.space2 c2 c1); [reflexivity|].
    by destruct (strings.space3 c3 c2 c1).
Qed.

Lemma trimRight_prefix u : exists b, u = (strings.trimRight u ++ b)%string.
Proof.
  unfold strings.trimRight.
  destruct (trim_result _ _ _ trimLeftRev_step _ (strings.rev u "")
              (Nat.le_refl _)) as (_&a&Ha).
  exists (strings.rev a "").
  rewrite <- rev_append, <- Ha. by rewrite rev_involutive.
Qed.

Lemma trimRight_again u :
  strings.trimRight (strings.trimRight u) = strings.trimRight u.
Proof.
  unfold strings.trimRight. rewrite rev_involutive. f_equal.
  apply (trim_fixed _ _ _ trimLeftRev_step).
  apply (trim_result _ _ _ trimLeftRev_step _ _ (Nat.le_refl _)).
Qed.

(** Trimming a trimmed text changes nothing. *)
Lemma TrimSpace_again s :
  strings.TrimSpace (strings.TrimSpace s) = strings.TrimSpace s.
Proof.
  unfold strings.TrimSpace.
  assert (Hl : strings.trimLeft (strings.trimRight (strings.trimLeft s))
               = strings.trimRight (strings.trimLeft s)).
  { destruct (trimRight_prefix (strings.trimLeft s)) as [b Hb].
    destruct (strings.trimRight (strings.trimLeft s)) as [|c p] eqn:Hp;
      [reflexivity|].
    apply (trim_fixed _ _ _ trimLeft_step).
    apply (headSpace_prefix _ _ _ b); [|discriminate].
    rewrite <- Hb.
    apply (trim_result _ _ _ trimLeft_step _ _ (Nat.le_refl _)). }
  rewrite Hl. apply trimRight_again.
Qed.

Lemma TrimSpace_noComma s :
  noComma s = true -> noComma (strings.TrimSpace s) = true.
Proof.
  unfold strings.TrimSpace. intros H.
  destruct (trim_result _ _ _ trimLeft_step _ s (Nat.le_refl _)) as (_&a&Ha).
  destruct (trimRight_prefix (strings.trimLeft s)) as [b Hb].
  rewrite Ha, Hb, !noComma_append in H.
  apply andb_prop in H as [_ H]. by apply andb_prop in H as [H _].
Qed.

Lemma Split_pieces s : forall p,
  In p (strings.Split s ","%char) -> noComma p = true.
Proof.
  induction s as [|c s IH]; simpl; intros p Hp.
  - destruct Hp as [<-|[]]. reflexivity.
  - destruct (Ascii.eqb c ","%char) eqn:Hc.
    + destruct Hp as [<-|Hp]; [reflexivity|]. by apply IH.
    + destruct (strings.Split s ","%char) as [|q qs] eqn:Hs.
      * destruct Hp as [<-|[]]. simpl. by rewrite Hc.
      * destruct Hp as [<-|Hp].
        -- simpl. rewrite Hc. simpl. apply IH. by left.
        -- apply IH. by right.
Qed.

(** What [splitComma] returns are segments. *)
Lemma splitComma_isSegment s seg : In seg (splitComma s) -> isSegment seg.
Proof.
  rewrite splitComma_segments. unfold segments.
  rewrite filter_In, in_map_iff. intros [(r&<-&Hr) Hne].
  repeat split.
  - apply negb_true_iff in Hne. by apply String.eqb_neq.
  - apply TrimSpace_noComma. by apply (Split_pieces s).
  - apply TrimSpace_again.
Qed.

(** X11. No element that [splitComma] returns is empty, contains a comma,
    or has white space at either end; so the elements joined by commas
    split into themselves again: the result of [splitComma] is a fixed
    point of joining and splitting. *)
Theorem splitComma_returns_segments s :
  (forall seg, In seg (splitComma s) -> isSegment seg) /\
  splitComma (joinComma (splitComma s)) = splitComma s.
Proof.
  split; [apply splitComma_isSegment|].
  apply splitComma_joinComma. apply Forall_forall. intros seg Hseg.
  apply (splitComma_isSegment s). by apply list_elem_of_In.
Qed.

Lemma splitComma_returns_segments_witness : isSegment "2".
Proof.
  apply (proj1 (splitComma_returns_segments "1, 2 ,3") "2").
  vm_compute. right. left. reflexivity.
Defined.

(** ** The variables the bind reads *)

(** The leaf parser does not look at the environment. *)
Lemma setValueFromString_environ w env1 env2 t v s :
  setValueFromString (withEnviron w env1) t v s
  = setValueFromString (withEnviron w env2) t v s.
Proof. reflexivity. 
Qed.

Section Environ.

Variable w : World.
Variables env1 env2 : gmap string string.
Variables rec1 rec2 : ty -> value -> outcome value.

Lemma bindField_environ sf fv :
  (noTag (Tag sf) = false -> env1 !! Tag sf = env2 !! Tag sf) ->
  (forall t' y, descend (decls w) (Type_ sf) = Some t' ->
                rec1 t' y = rec2 t' y) ->
  bindField (withEnviron w env1) rec1 sf fv
  = bindField (withEnviron w env2) rec2 sf fv.
Proof.
  intros Henv Hrec.
  assert (Hleaf : forall x, bindLeaf (withEnviron w env1) sf x
                            = bindLeaf (withEnviron w env2) sf x).
  { intros x. unfold bindLeaf, getenv. simpl.
    destruct (noTag (Tag sf)); [reflexivity|].
    rewrite (Henv eq_refl). destruct (env2 !! Tag sf) as [s|]; [|reflexivity].
    by rewrite (setValueFromString_environ w env1 env2). }
  unfold bindField, descend in *. simpl.
  destruct (Type_ sf) eqn:Ht; try apply Hleaf.
  - unfold getenv. simpl. destruct (noTag (Tag sf)); [reflexivity|]. simpl.
    by rewrite (Henv eq_refl).
  - destruct (Kind_eqb (kind (resolve (decls w) elem)) KStruct).
    + destruct fv; try reflexivity; by rewrite Hrec.
    + destruct fv; apply Hleaf.
  - by apply Hrec.
Qed.

Lemma loadFields_environ fs : forall i v,
  (forall k sf, fs !! k = Some sf -> exported sf = true ->
     forall fv, bindField (withEnviron w env1) rec1 sf fv
                = bindField (withEnviron w env2) rec2 sf fv) ->
  loadFields (withEnviron w env1) rec1 fs i v
  = loadFields (withEnviron w env2) rec2 fs i v.
Proof.
  induction fs as [|sf rest IH]; intros i v H; simpl; [reflexivity|].
  assert (Hrest : forall j x,
            loadFields (withEnviron w env1) rec1 rest j x
            = loadFields (withEnviron w env2) rec2 rest j x).
  { intros j x. apply IH. intros k sf' Hk. by apply (H (S k)). }
  fold (exported sf). destruct (exported sf) eqn:Hex; simpl; [|apply Hrest].
  destruct (Field v i) as [fv|]; [|reflexivity].
  rewrite (H 0%nat sf eq_refl Hex).
  destruct (bindField (withEnviron w env2) rec2 sf fv) as [fv' [e|]| | |]; auto.
Qed.

End Environ.

Lemma loadInto_environ w env1 env2 fuel : forall t v,
  (forall p sf,
      fieldAt (decls w) t p = Some sf -> exported sf = true ->
      noTag (Tag sf) = false -> env1 !! Tag sf = env2 !! Tag sf) ->
  loadInto (withEnviron w env1) fuel t v
  = loadInto (withEnviron w env2) fuel t v.
Proof.
  induction fuel as [|k IH]; intros t v H; [reflexivity|]. simpl.
  destruct (Kind_eqb (kind t) KStruct); [|reflexivity].
  apply loadFields_environ. intros j sf Hj Hex fv.
  apply bindField_environ.
  - intros Htag. apply (H [j]); auto. simpl. by rewrite Hj.
  - intros t' y Hd. apply IH. intros p sf' Hat Hex' Htag.
    apply (H (j :: p)); auto. simpl. rewrite Hj.
    destruct p as [|i p]; [discriminate|]. by rewrite Hex, Hd.
Qed.

(** X12. The bind reads no variable but those named by the usable tags of
    exported fields it reaches: two environments that agree on these give
    the same outcome, contents and error alike. *)
Theorem only_tagged_variables_matter w env1 env2 fuel r v :
  (forall p sf,
      fieldAt (decls w) (resolve (decls w) r) p = Some sf ->
      exported sf = true -> noTag (Tag sf) = false ->
      env1 !! Tag sf = env2 !! Tag sf) ->
  LoadEnv (withEnviron w env1) fuel (Any (TPtr r) v)
  = LoadEnv (withEnviron w env2) fuel (Any (TPtr r) v).
Proof.
  intros H. unfold LoadEnv, elemKind. simpl.
  destruct v; try reflexivity.
  destruct (Kind_eqb (kind (resolve (decls w) r)) KStruct); [|reflexivity].
  simpl. by rewrite (loadInto_environ w env1 env2 fuel _ _ H).
Qed.

Lemma only_tagged_variables_matter_witness :
  LoadEnv (withEnviron (envWorld noDecls ∅) {[ "P" := "7" ]}) 1
    (Any (TPtr (Here OptionalInt)) (VPtr (VStruct [VNil])))
  = LoadEnv
      (withEnviron (envWorld noDecls ∅) (<["HOME" := "/root"]> {[ "P" := "7" ]}))
      1 (Any (TPtr (Here OptionalInt)) (VPtr (VStruct [VNil]))).
Proof.
  apply (only_tagged_variables_matter (envWorld noDecls ∅)
           {[ "P" := "7" ]} (<["HOME" := "/root"]> {[ "P" := "7" ]}) 1
           (Here OptionalInt)).
  intros p sf Hat _ _.
  destruct p as [|[|i] [|j p']]; simpl in Hat; try discriminate Hat.
  injection Hat as <-. vm_compute. reflexivity.
Defined.

(** ** Integer fields *)

Lemma digits_nonneg s : forall acc n,
  0 <= acc -> strconv.digits s acc = Some n -> 0 <= n.
Proof.
  induction s as [|c s IH]; simpl; intros acc n Hacc H.
  - by injection H as <-.
  - unfold strconv.digit in H.
    destruct ((48 <=? Z.of_N (N_of_ascii c)) && (Z.of_N (N_of_ascii c) <=? 57))
      eqn:Hc; [|discriminate].
    apply andb_prop in Hc as [Hlo _]. apply Z.leb_le in Hlo.
    eapply IH; [|exact H]. lia.
Qed.

(** X13. An integer field never receives a value outside its declared
    width: what the leaf parser assigns to a signed field of [bits] bits
    lies in [-2^(bits-1), 2^(bits-1)), and what it assigns to an unsigned
    one in [0, 2^bits), so [SetInt] and [SetUint] never truncate. *)
Theorem integer_fields_fit_their_width w bits v s x :
  0 < bits ->
  (setValueFromString w (TInt bits) v s = Returned x None ->
   exists n, x = VInt n /\ - 2 ^ (bits - 1) <= n < 2 ^ (bits - 1)) /\
  (setValueFromString w (TUint bits) v s = Returned x None ->
   exists n, x = VUint n /\ 0 <= n < 2 ^ bits).
Proof.
  intros Hbits.
  assert (Hpow : 0 < 2 ^ (bits - 1)) by (apply Z.pow_pos_nonneg; lia).
  split; simpl; intros H.
  - destruct (strconv.ParseInt s bits) as [n|] eqn:Hp; [|discriminate].
    injection H as <-. exists n. split; [reflexivity|].
    unfold strconv.ParseInt in Hp. destruct s as [|c s']; [discriminate|].
    destruct (if (Ascii.eqb c "+" || Ascii.eqb c "-")%bool then s'
              else String c s') as [|c0 body]; [discriminate|].
    destruct (strconv.digits (String c0 body) 0) as [un|] eqn:Hd;
      [|discriminate].
    apply digits_nonneg in Hd; [|lia].
    destruct (Ascii.eqb c "-").
    + destruct (un <=? 2 ^ (bits - 1)) eqn:Hle; [|discriminate].
      apply Z.leb_le in Hle. injection Hp as <-. lia.
    + destruct (un <? 2 ^ (bits - 1)) eqn:Hlt; [|discriminate].
      apply Z.ltb_lt in Hlt. injection Hp as <-. lia.
  - destruct (strconv.ParseUint s bits) as [n|] eqn:Hp; [|discriminate].
    injection H as <-. exists n. split; [reflexivity|].
    unfold strconv.ParseUint in Hp. destruct s as [|c s']; [discriminate|].
    destruct (strconv.digits (String c s') 0) as [un|] eqn:Hd;
      [|discriminate].
    apply digits_nonneg in Hd; [|lia].
    destruct (un <=? 2 ^ bits - 1) eqn:Hle; [|discriminate].
    apply Z.leb_le in Hle. injection Hp as <-. lia.
Qed.

Lemma integer_fields_fit_their_width_witness :
  exists n, VInt (-128) = VInt n /\ - 2 ^ (8 - 1) <= n < 2 ^ (8 - 1).
Proof.
  apply (proj1 (integer_fields_fit_their_width (envWorld noDecls ∅) 8
                  (VInt 0) "-128" (VInt (-128)) ltac:(lia))).
  reflexivity.
Defined.

(** ** Record types that reach themselves *)

Lemma loadInto_nil_finiteWalk w fuel : forall t v v',
  loadInto w fuel t v = Returned v' None -> finiteWalk (decls w) t.
Proof.
  induction fuel as [|k IH]; intros t v v' H; [discriminate|].
  simpl in H. destruct (Kind_eqb (kind t) KStruct); [|discriminate].
  constructor. intros i sf t' Hi Hex Hd.
  destruct (loadFields_bound w _ _ _ _ _ H i sf Hi Hex) as (fv&fv'&_&Hb&_).
  destruct (bindField_descend w _ _ _ _ _ _ Hd Hb) as (y&y'&Hr&_).
  eapply IH; eauto.
Qed.

(** X14. [LoadEnv] returns [nil] only for a record type whose type graph, as
    the walker follows it, has no cycle.  On a record type that reaches
    itself through exported pointer-to-record fields it therefore never
    returns [nil], whatever the contents and the environment: it fails on
    a field it meets before the cycle, or it does not return. *)
Theorem nil_only_on_acyclic_type w fuel r v out' :
  LoadEnv w fuel (Any (TPtr r) (VPtr v)) = Returned out' None ->
  finiteWalk (decls w) (resolve (decls w) r).
Proof.
  intros H. apply LoadEnv_Returned in H as [(v'&Hinto&_)|[_ [=]]].
  eapply loadInto_nil_finiteWalk; eauto.
Qed.

Lemma nil_only_on_acyclic_type_witness :
  finiteWalk noDecls (resolve noDecls (Here NestedConfig)).
Proof.
  apply (nil_only_on_acyclic_type (envWorld noDecls nestedEnv) 3
           (Here NestedConfig) (zero NestedConfig)
           (Any (TPtr (Here NestedConfig))
              (VPtr (VStruct
                       [VStruct
                          [VString "root";
                           VPtr (VStruct [VInt 42; VBool true;
                                          VSlice [VInt 1; VInt 2; VInt 3];
                                          VString "nested"])]])))).
  vm_compute. reflexivity.
Defined.
(** ** A bind that returns [nil] *)

Lemma fieldAt_kind d t p sf : fieldAt d t p = Some sf -> kind t = KStruct.
Proof.
  destruct p as [|i p]; [discriminate|]. simpl.
  destruct t; simpl; try rewrite lookup_nil; try discriminate; reflexivity.
Qed.

(** On a record type without a cycle, with contents of its shape and an
    environment in which no set variable fails, the walk returns [nil], and
    the same contents from some depth on. *)
Lemma loadInto_returns_nil w t v :
  finiteWalk (decls w) t -> kind t = KStruct ->
  hasType (decls w) v t = true -> setVariablesParse w t ->
  exists n v', forall fuel,
    (n <= fuel)%nat -> loadInto w fuel t v = Returned v' None.
Proof.
  intros Hfin Hk Hty Hparse.
  destruct (finiteWalk_ended _ _ Hfin) as [n Hn].
  pose proof (Hn w v eq_refl) as Hend.
  pose proof (loadInto_no_panic w n _ _ Hk Hty) as Hnp.
  destruct (loadInto w n t v) as [v' [e|]| | |] eqn:Hinto;
    try contradiction; try destruct Hend.
  - destruct (loadInto_error_source w _ _ _ _ _ Hinto)
      as (p&sf&s&cause&Hat&Hex&Hleaf&Htag&Henv&Hp&_).
    destruct (Hparse p sf s Hat Hex Hleaf Htag Henv Hp).
  - exists n, v'. intros fuel Hle.
    rewrite (loadInto_more w n fuel _ _ Hle); rewrite Hinto; [reflexivity|exact I].
Qed.

Lemma LoadEnv_returns_nil w r v :
  finiteWalk (decls w) (resolve (decls w) r) ->
  kind (resolve (decls w) r) = KStruct ->
  hasType (decls w) v (resolve (decls w) r) = true ->
  setVariablesParse w (resolve (decls w) r) ->
  exists n v',
    (forall fuel, (n <= fuel)%nat ->
       LoadEnv w fuel (Any (TPtr r) (VPtr v))
       = Returned (Any (TPtr r) (VPtr v')) None) /\
    loadInto w n (resolve (decls w) r) v = Returned v' None.
Proof.
  intros Hfin Hk Hty Hparse.
  destruct (loadInto_returns_nil w _ v Hfin Hk Hty Hparse) as (n&v'&Hn).
  exists n, v'. split; [|by apply Hn].
  intros fuel Hle. unfold LoadEnv, elemKind.
  apply Kind_eqb_eq in Hk. rewrite Hk. simpl. by rewrite (Hn fuel Hle).
Qed.

(** On a record type without a cycle, with contents of its shape, the bind
    returns, with [nil] or an error, and the same from some depth on. *)
Lemma LoadEnv_returns w r v :
  finiteWalk (decls w) (resolve (decls w) r) ->
  kind (resolve (decls w) r) = KStruct ->
  hasType (decls w) v (resolve (decls w) r) = true ->
  exists n v' err, forall fuel,
    (n <= fuel)%nat ->
    LoadEnv w fuel (Any (TPtr r) (VPtr v))
    = Returned (Any (TPtr r) (VPtr v')) err.
Proof.
  intros Hfin Hk Hty.
  destruct (finiteWalk_ended _ _ Hfin) as [n Hn].
  pose proof (Hn w v eq_refl) as Hend.
  pose proof (loadInto_no_panic w n _ _ Hk Hty) as Hnp.
  destruct (loadInto w n (resolve (decls w) r) v) as [v' e| | |] eqn:Hinto;
    try contradiction; try destruct Hend.
  exists n, v', e. intros fuel Hle. unfold LoadEnv, elemKind.
  apply Kind_eqb_eq in Hk. rewrite Hk. simpl.
  rewrite (loadInto_more w n fuel _ _ Hle); rewrite Hinto; [reflexivity|exact I].
Qed.

Lemma variablesParse_sound w n : forall t,
  variablesParse w n t = true -> setVariablesParse w t.
Proof.
  induction n as [|k IH]; intros t H; [discriminate|].
  simpl in H. rewrite forallb_forall in H.
  intros p sf s Hat Hex Hleaf Htag Henv.
  destruct p as [|i p]; [discriminate|]. simpl in Hat.
  destruct (fieldsOf t !! i) as [sfi|] eqn:Hi; [|discriminate].
  assert (Hin : In sfi (fieldsOf t))
    by (apply list_elem_of_In; eapply list_elem_of_lookup_2; eauto).
  specialize (H sfi Hin).
  destruct p as [|j p].
  - injection Hat as ->. rewrite Hex in H.
    unfold isLeaf in Hleaf.
    destruct (descend (decls w) (Type_ sf)); [discriminate|].
    rewrite Htag, Henv in H.
    destruct (parsed w (Type_ sf) s); [discriminate|discriminate].
  - destruct (exported sfi); [|discriminate].
    destruct (descend (decls w) (Type_ sfi)) as [t'|]; [|discriminate].
    eapply (IH t' H); eauto.
Qed.

(** ** The binder against the parsed form *)

(** What the leaf parser assigns is the parsed form of the text. *)
Lemma setValueFromString_parsedForm w t : forall v s x,
  setValueFromString w t v s = Returned x None -> parsedForm w t s = Some x.
Proof.
  induction t using ty_mut with
    (P0 := fun r => forall v s x,
       match r with
       | Here e => setValueFromString w e
       | Decl _ =>
           fun x _ => Returned x (Some (ErrUnsupported (resolve (decls w) r)))
       end v s = Returned x None ->
       match r with
       | Here e => parsedForm w e
       | Decl _ => fun _ => None
       end s = Some x)
    (P1 := fun _ => True); try exact I; intros v s x H; simpl in *;
    try discriminate;
    try (match goal with H : fromOption _ _ _ ?o = _ |- _ =>
           destruct o; simpl in *; [by injection H as <-|discriminate] end).
  - by injection H as <-.
  - (* slice *)
    rewrite splitComma_segments in H.
    destruct (fillSlice _ (segments s) 0 _) as [sl [e|]| | |] eqn:Hfill;
      try discriminate.
    injection H as <-.
    pose proof (fillSlice_spec
                  (match elem with
                   | Here e => setValueFromString w e
                   | Decl _ =>
                       fun x _ =>
                         Returned x (Some (ErrUnsupported (resolve (decls w) elem)))
                   end) (zero (resolve (decls w) elem)) (segments s) [] sl)
      as Hspec.
    simpl in Hspec. apply Hspec in Hfill as (xs&Hxs&->). simpl.
    assert (Hm : mapM (match elem with
                       | Here e => parsedForm w e
                       | Decl _ => fun _ => None
                       end) (segments s) = Some xs).
    { apply mapM_Some. eapply Forall2_impl; [exact Hxs|].
      intros seg y Hy. simpl in Hy. eapply IHt; eauto. }
    by rewrite Hm.
  - (* pointer *)
    destruct v; simpl in H; try discriminate.
    + destruct (match elem with Here e => _ | Decl _ => _ end _ s)
        as [x' e| | |] eqn:Hset; try discriminate.
      injection H as <- ->. apply IHt in Hset.
      destruct elem; simpl in *; by rewrite Hset.
    + destruct (match elem with Here e => _ | Decl _ => _ end _ s)
        as [x' e| | |] eqn:Hset; try discriminate.
      injection H as <- ->. apply IHt in Hset.
      destruct elem; simpl in *; by rewrite Hset.
  - (* Here *) eauto.
Qed.

(** A tagged field that the walker binds, whose variable is set: what the
    body of the loop leaves in it is the parsed form of the text. *)
Lemma bindField_parsedForm w rec sf fv s fv' :
  isLeaf (decls w) (Type_ sf) = true ->
  noTag (Tag sf) = false -> getenv w (Tag sf) = Some s ->
  bindField w rec sf fv = Returned fv' None ->
  parsedForm w (Type_ sf) s = Some fv'.
Proof.
  intros Hleaf Htag Henv Hb.
  assert (Type_ sf = TTime \/ Type_ sf <> TTime) as [Ht|Ht]
    by (destruct (Type_ sf); (by left) || (by right)).
  - unfold bindField in Hb. rewrite Ht, Htag, Henv in Hb. simpl in Hb.
    rewrite Ht. simpl.
    destruct (ParseRFC3339 w s); [|discriminate]. by injection Hb as <-.
  - apply (bindField_set w rec sf fv s fv') in Hb; auto.
    eapply setValueFromString_parsedForm; eauto.
Qed.

(** ** Precedence of the environment over the file (C1) *)




(** ** Fields the binder leaves alone (C2), amended *)

(** C2, amended. A field that is neither a nested record nor a reference to
    a record, and that has no usable binding tag (no tag, or the skip
    sentinel) or whose variable is unset: in every target the body of the
    loop writes nothing for it; and in a target that owns its storage the
    field holds after the bind exactly what it held before, at any depth,
    for every environment, and whether the bind returns [nil] or an error.
    The bind does return when the record type has no cycle and the contents
    have its shape. *)
Theorem leaf_without_value_unchanged w sf :
  isLeaf (decls w) (Type_ sf) = true ->
  noTag (Tag sf) = true \/ getenv w (Tag sf) = None ->
  (forall rec a h, bindFieldH w rec sf a h = Returned h None) /\
  (forall fuel r h l v h' err p x,
      owns h l v ->
      LoadEnvH w fuel (AnyH (TPtr r) (HPtr (l, []))) h = Returned h' err ->
      fieldAt (decls w) (resolve (decls w) r) p = Some sf ->
      valueAt (decls w) (resolve (decls w) r) v p = Some x ->
      exists v',
        owns h' l v' /\
        valueAt (decls w) (resolve (decls w) r) v' p = Some x) /\
  (forall r h l v p x,
      owns h l v ->
      finiteWalk (decls w) (resolve (decls w) r) ->
      hasType (decls w) v (resolve (decls w) r) = true ->
      fieldAt (decls w) (resolve (decls w) r) p = Some sf ->
      valueAt (decls w) (resolve (decls w) r) v p = Some x ->
      exists n v' err,
        (forall fuel, (n <= fuel)%nat ->
           exists h',
             LoadEnvH w fuel (AnyH (TPtr r) (HPtr (l, []))) h
             = Returned h' err /\ owns h' l v') /\
        valueAt (decls w) (resolve (decls w) r) v' p = Some x).
Proof.
  intros Hleaf Htag.
  assert (Hframe : forall fuel r v v' err p x,
             LoadEnv w fuel (Any (TPtr r) (VPtr v))
             = Returned (Any (TPtr r) (VPtr v')) err ->
             fieldAt (decls w) (resolve (decls w) r) p = Some sf ->
             valueAt (decls w) (resolve (decls w) r) v p = Some x ->
             valueAt (decls w) (resolve (decls w) r) v' p = Some x).
  { intros fuel r v v' err p x Hload Hat Hv.
    apply LoadEnv_Returned in Hload as [(v''&Hinto&[= <-])|[[= <-] _]];
      [|exact Hv].
    eapply loadInto_frame_at; eauto.
    intros rec fv fv' e Hb.
    rewrite bindField_inert in Hb by auto. congruence. }
  split; [|split].
  - intros rec a h. by apply bindFieldH_inert.
  - intros fuel r h l v h' err p x Hown Hrun Hat Hv.
    destruct (LoadEnvH_Returned w fuel r h l v h' err Hown Hrun)
      as (v'&Hload&Hown').
    exists v'. split; [exact Hown'|]. eauto.
  - intros r h l v p x Hown Hfin Hty Hat Hv.
    pose proof (fieldAt_kind _ _ _ _ Hat) as Hk.
    destruct (LoadEnv_returns w r v Hfin Hk Hty) as (n&v'&err&Hn).
    exists n, v', err. split.
    + intros fuel Hle. eapply LoadEnvH_tree; eauto.
    + eapply (Hframe n); eauto.
Qed.

Lemma leaf_without_value_unchanged_witness :
  (forall rec a h,
      bindFieldH (envWorld noDecls tomlEnv) rec
        (StructField "Name" "" "DB_NAME" TString) a h = Returned h None) /\
  (exists v',
      owns [ HStruct [ HStruct [HInt 5678; HString "from-toml"];
                       HStruct [HString "env-user"; HString "env-pass";
                                HString "toml-db"] ] ] 0%nat v' /\
      valueAt noDecls TestConfig v' [1%nat; 2%nat] = Some (VString "toml-db"))
  /\ (exists n v' err,
         (forall fuel, (n <= fuel)%nat ->
            exists h',
              LoadEnvH (envWorld noDecls tomlEnv) fuel
                (AnyH (TPtr (Here TestConfig)) (HPtr (0%nat, []))) tomlHeap
              = Returned h' err /\ owns h' 0%nat v') /\
         valueAt noDecls TestConfig v' [1%nat; 2%nat]
         = Some (VString "toml-db")).
Proof.
  destruct (leaf_without_value_unchanged (envWorld noDecls tomlEnv)
              (StructField "Name" "" "DB_NAME" TString))
    as (Hbody&Hbind&Htotal); [reflexivity | right; vm_compute; reflexivity |].
  split; [exact Hbody|]. split.
  - apply (Hbind 2%nat (Here TestConfig) tomlHeap 0%nat tomlContents _ None
             [1%nat; 2%nat]).
    + owns_tree.
    + vm_compute. reflexivity.
    + reflexivity.
    + reflexivity.
  - apply (Htotal (Here TestConfig) tomlHeap 0%nat tomlContents
             [1%nat; 2%nat]); try reflexivity.
    + owns_tree.
    + apply (walkDepth_finiteWalk noDecls 2). reflexivity.
Defined.

(** ** Allocation of nested records (C5) *)



(** ** A variable set to the empty text (C10) *)

(** C10. A variable that is set to the empty text counts as set.  For a
    tagged text field the body of the loop assigns the empty text, and for a
    tagged list field the empty list, whatever the field held; when the
    variable is unset, it assigns nothing.  On the heap: one store of the
    empty text to the field; a fresh empty array and one store of the slice
    to the field; no write at all.  And for the whole bind, on a target
    that owns its storage, with a record type without a cycle, contents of
    its shape and no set variable that fails: [LoadEnv] returns [nil], and
    then the text field holds the empty text, the list field the empty
    list, and the field whose variable is unset what it held. *)
Theorem empty_text_is_a_value w sf :
  noTag (Tag sf) = false ->
  (getenv w (Tag sf) = Some "" ->
   (Type_ sf = TString ->
    (forall rec fv, bindField w rec sf fv = Returned (VString "") None) /\
    (forall rec a h,
        bindFieldH w rec sf a h = Returned (store h a (HString "")) None)) /\
   (forall e, Type_ sf = TSlice e ->
    (forall rec fv, bindField w rec sf fv = Returned (VSlice []) None) /\
    (forall rec a h,
        bindFieldH w rec sf a h
        = Returned (store (h ++ [HStruct []]) a (HSlice (length h))) None)))
  /\ (getenv w (Tag sf) = None ->
      isLeaf (decls w) (Type_ sf) = true ->
      (forall rec fv, bindField w rec sf fv = Returned fv None) /\
      (forall rec a h, bindFieldH w rec sf a h = Returned h None))
  /\ (forall r h l v p,
         owns h l v ->
         hasType (decls w) v (resolve (decls w) r) = true ->
         finiteWalk (decls w) (resolve (decls w) r) ->
         setVariablesParse w (resolve (decls w) r) ->
         fieldAt (decls w) (resolve (decls w) r) p = Some sf ->
         exported sf = true ->
         exists n v',
           (forall fuel, (n <= fuel)%nat ->
              exists h',
                LoadEnvH w fuel (AnyH (TPtr r) (HPtr (l, []))) h
                = Returned h' None /\ owns h' l v') /\
           (getenv w (Tag sf) = Some "" -> Type_ sf = TString ->
            valueAt (decls w) (resolve (decls w) r) v' p
            = Some (VString "")) /\
           (getenv w (Tag sf) = Some "" -> forall e, Type_ sf = TSlice e ->
            valueAt (decls w) (resolve (decls w) r) v' p = Some (VSlice [])) /\
           (getenv w (Tag sf) = None ->
            isLeaf (decls w) (Type_ sf) = true ->
            forall x,
              valueAt (decls w) (resolve (decls w) r) v p = Some x ->
              valueAt (decls w) (resolve (decls w) r) v' p = Some x)).
Proof.
  intros Htag.
  assert (Htext : getenv w (Tag sf) = Some "" -> Type_ sf = TString ->
                  forall rec fv,
                    bindField w rec sf fv = Returned (VString "") None).
  { intros Henv Ht rec fv. unfold bindField, bindLeaf.
    by rewrite Ht, Htag, Henv. }
  assert (Hlist : getenv w (Tag sf) = Some "" ->
                  forall e, Type_ sf = TSlice e ->
                  forall rec fv,
                    bindField w rec sf fv = Returned (VSlice []) None).
  { intros Henv e Ht rec fv. unfold bindField, bindLeaf.
    by rewrite Ht, Htag, Henv. }
  split; [|split].
  - intros Henv. split.
    + intros Ht. split; [by apply Htext|].
      intros rec a h. unfold bindFieldH, bindLeafH.
      by rewrite Ht, Htag, Henv.
    + intros e Ht. split; [by apply (Hlist Henv e)|].
      intros rec a h. unfold bindFieldH, bindLeafH.
      by rewrite Ht, Htag, Henv.
  - intros Henv Hleaf. split.
    + intros rec fv. apply bindField_inert; auto.
    + intros rec a h. apply bindFieldH_inert; auto.
  - intros r h l v p Hown Hty Hfin Hparse Hat Hex.
    pose proof (fieldAt_kind _ _ _ _ Hat) as Hk.
    destruct (LoadEnv_returns_nil w r v Hfin Hk Hty Hparse)
      as (n&v'&Hn&Hinto).
    exists n, v'.
    destruct (loadInto_bound_at w _ _ _ _ _ Hinto sf Hat Hex)
      as (k&fv&fv'&Hb&Hv'&_).
    split; [|split; [|split]].
    + intros fuel Hle. eapply LoadEnvH_tree; eauto.
    + intros Henv Ht. rewrite (Htext Henv Ht) in Hb. congruence.
    + intros Henv e Ht. rewrite (Hlist Henv e Ht) in Hb. congruence.
    + intros Henv Hleaf x Hx.
      eapply loadInto_frame_at; eauto.
      intros rec fv0 fv0' e Hb0.
      rewrite bindField_inert in Hb0 by auto. congruence.
Qed.

Lemma empty_text_is_a_value_witness :
  ((forall rec fv,
       bindField (envWorld noDecls {[ "LABEL" := "" ]}) rec
         (StructField "Label" "" "LABEL" TString) fv
       = Returned (VString "") None) /\
   (forall rec a h,
       bindFieldH (envWorld noDecls {[ "LABEL" := "" ]}) rec
         (StructField "Label" "" "LABEL" TString) a h
       = Returned (store h a (HString "")) None))
  /\ ((forall rec fv,
          bindField (envWorld noDecls {[ "TAGS" := "" ]}) rec
            (StructField "Tags" "" "TAGS" (TSlice (Here (TInt 64)))) fv
          = Returned (VSlice []) None) /\
      (forall rec a h,
          bindFieldH (envWorld noDecls {[ "TAGS" := "" ]}) rec
            (StructField "Tags" "" "TAGS" (TSlice (Here (TInt 64)))) a h
          = Returned (store (h ++ [HStruct []]) a (HSlice (length h))) None))
  /\ ((forall rec fv,
          bindField (envWorld noDecls {[ "LABEL" := "" ]}) rec
            (StructField "Tags" "" "TAGS" (TSlice (Here (TInt 64)))) fv
          = Returned fv None) /\
      (forall rec a h,
          bindFieldH (envWorld noDecls {[ "LABEL" := "" ]}) rec
            (StructField "Tags" "" "TAGS" (TSlice (Here (TInt 64)))) a h
          = Returned h None))
  /\ (exists n v',
         (forall fuel, (n <= fuel)%nat ->
            exists h',
              LoadEnvH (envWorld noDecls {[ "LABEL" := "" ]}) fuel
                (AnyH (TPtr (Here TextAndList)) (HPtr (0%nat, [])))
                [ HStruct [HString "before"; HSlice 1%nat];
                  HStruct [HInt 7; HInt 8] ]
              = Returned h' None /\ owns h' 0%nat v') /\
         valueAt noDecls TextAndList v' [0%nat] = Some (VString "")).
Proof.
  split; [|split; [|split]].
  - destruct (empty_text_is_a_value (envWorld noDecls {[ "LABEL" := "" ]})
                (StructField "Label" "" "LABEL" TString) eq_refl)
      as [Hset _].
    destruct Hset as [Htext _]; [vm_compute; reflexivity|].
    exact (Htext eq_refl).
  - destruct (empty_text_is_a_value (envWorld noDecls {[ "TAGS" := "" ]})
                (StructField "Tags" "" "TAGS" (TSlice (Here (TInt 64))))
                eq_refl)
      as [Hset _].
    destruct Hset as [_ Hlist]; [vm_compute; reflexivity|].
    exact (Hlist (Here (TInt 64)) eq_refl).
  - destruct (empty_text_is_a_value (envWorld noDecls {[ "LABEL" := "" ]})
                (StructField "Tags" "" "TAGS" (TSlice (Here (TInt 64))))
                eq_refl)
      as [_ [Hunset _]].
    apply Hunset; [vm_compute|]; reflexivity.
  - destruct (empty_text_is_a_value (envWorld noDecls {[ "LABEL" := "" ]})
                (StructField "Label" "" "LABEL" TString) eq_refl)
      as [_ [_ Hbind]].
    destruct (Hbind (Here TextAndList)
                [ HStruct [HString "before"; HSlice 1%nat];
                  HStruct [HInt 7; HInt 8] ]
                0%nat textAndListContents [0%nat])
      as (n&v'&Hrun&Htext&_); try reflexivity.
    + owns_tree.
    + apply (walkDepth_finiteWalk noDecls 1). reflexivity.
    + apply (variablesParse_sound (envWorld noDecls {[ "LABEL" := "" ]}) 1).
      vm_compute. reflexivity.
    + exists n, v'. split; [exact Hrun|].
      apply Htext; [vm_compute|]; reflexivity.
Defined.

(** ** The first failure, on the heap *)

(** X3. In a target that owns its storage, a bind that returns a field
    error stopped at one exported field of the record: the body of the loop
    returned that error for it, every later field of the record holds what
    it held before, and every exported field before it was bound without
    error. *)
Theorem first_failure_ends_the_walk w fuel r h l v h' e :
  owns h l v -> kind (resolve (decls w) r) = KStruct ->
  LoadEnvH w fuel (AnyH (TPtr r) (HPtr (l, []))) h = Returned h' (Some e) ->
  exists v' k j sf fv fv',
    owns h' l v' /\ fuel = S k /\
    fieldsOf (resolve (decls w) r) !! j = Some sf /\ exported sf = true /\
    Field v j = Some fv /\
    bindField w (loadInto w k) sf fv = Returned fv' (Some e) /\
    Field v' j = Some fv' /\
    (forall m, (j < m)%nat -> Field v' m = Field v m) /\
    (forall m sfm,
        (m < j)%nat -> fieldsOf (resolve (decls w) r) !! m = Some sfm ->
        exported sfm = true ->
        exists x x',
          Field v m = Some x /\
          bindField w (loadInto w k) sfm x = Returned x' None /\
          Field v' m = Some x').
Proof.
  intros Hown Hk Hrun.
  destruct (LoadEnvH_Returned w fuel r h l v h' _ Hown Hrun)
    as (v'&Hload&Hown').
  unfold LoadEnv, elemKind in Hload. apply Kind_eqb_eq in Hk.
  rewrite Hk in Hload. simpl in Hload.
  destruct (loadInto w fuel (resolve (decls w) r) v) as [v'' e'| | |] eqn:Hinto;
    try discriminate.
  injection Hload as -> ->.
  destruct (loadInto_first_failure w _ _ _ _ _ Hinto)
    as (k&j&sf&fv&fv'&Hrest).
  exists v', k, j, sf, fv, fv'. split; [exact Hown'|exact Hrest].
Qed.

Lemma first_failure_ends_the_walk_witness :
  exists v' k j sf fv fv',
    owns [ HStruct [ HStruct [HInt 1234; HString "from-toml"];
                     HStruct [HString "toml-user"; HString "toml-pass";
                              HString "toml-db"] ] ] 0%nat v' /\
    2%nat = S k /\
    fieldsOf TestConfig !! j = Some sf /\ exported sf = true /\
    Field tomlContents j = Some fv /\
    bindField (envWorld noDecls {[ "SERVER_PORT" := "http" ]})
      (loadInto (envWorld noDecls {[ "SERVER_PORT" := "http" ]}) k) sf fv
    = Returned fv' (Some (ErrField "Port" (ErrParse "ParseInt" "http"))) /\
    Field v' j = Some fv' /\
    (forall m, (j < m)%nat -> Field v' m = Field tomlContents m) /\
    (forall m sfm,
        (m < j)%nat -> fieldsOf TestConfig !! m = Some sfm ->
        exported sfm = true ->
        exists x x',
          Field tomlContents m = Some x /\
          bindField (envWorld noDecls {[ "SERVER_PORT" := "http" ]})
            (loadInto (envWorld noDecls {[ "SERVER_PORT" := "http" ]}) k)
            sfm x
          = Returned x' None /\
          Field v' m = Some x').
Proof.
  apply (first_failure_ends_the_walk
           (envWorld noDecls {[ "SERVER_PORT" := "http" ]}) 2
           (Here TestConfig) tomlHeap 0%nat tomlContents).
  - owns_tree.
  - reflexivity.
  - vm_compute. reflexivity.
Defined.

(** ** Unexported fields, on the heap *)

(** X5. In a target that owns its storage, an unexported field is never
    touched, whatever its type, its tag and the environment: it holds after
    the bind what it held before, also when it is a record or a nil
    reference to one, and also when the bind returns an error. *)
Theorem unexported_field_untouched w fuel r h l v h' err p sf x :
  owns h l v ->
  LoadEnvH w fuel (AnyH (TPtr r) (HPtr (l, []))) h = Returned h' err ->
  fieldAt (decls w) (resolve (decls w) r) p = Some sf ->
  exported sf = false ->
  valueAt (decls w) (resolve (decls w) r) v p = Some x ->
  exists v', owns h' l v' /\
             valueAt (decls w) (resolve (decls w) r) v' p = Some x.
Proof.
  intros Hown Hrun Hat Hex Hv.
  destruct (LoadEnvH_Returned w fuel r h l v h' err Hown Hrun)
    as (v'&Hload&Hown').
  exists v'. split; [exact Hown'|].
  destruct (LoadEnv_unexported_kept w fuel r v _ err p sf x Hload Hat Hex Hv)
    as (v''&[= <-]&Hv'). exact Hv'.
Qed.

Lemma unexported_field_untouched_witness :
  exists v',
    owns [ HStruct [HStruct [HInt 1]; HPtr (1%nat, [])]; HStruct [HInt 7] ]
      0%nat v' /\
    valueAt noDecls HiddenAndShown v' [0%nat] = Some (VStruct [VInt 1]).
Proof.
  apply (unexported_field_untouched (envWorld noDecls {[ "VALUE" := "7" ]}) 2
           (Here HiddenAndShown)
           [ HStruct [HStruct [HInt 1]; HPtr (1%nat, [])]; HStruct [HInt 2] ]
           0%nat (VStruct [VStruct [VInt 1]; VPtr (VStruct [VInt 2])])
           _ None [0%nat] (StructField "hidden" "lib" "" Inner)).
  - owns_tree.
  - vm_compute. reflexivity.
  - reflexivity.
  - reflexivity.
  - reflexivity.
Defined.

(** ** References to [time.Time], on the heap *)

(** X6. A field of type [*time.Time] is never bound from its variable: the
    walker treats it as a reference to a record and recurses into
    [time.Time], whose fields are all unexported.  In a target that owns its
    storage, whatever the tag and the environment, a non-nil pointer keeps
    its pointee, and after a bind that returned [nil] a nil one points to
    the zero time. *)
Theorem pointer_to_time_is_not_bound w fuel r h l v h' err p sf :
  owns h l v ->
  LoadEnvH w fuel (AnyH (TPtr r) (HPtr (l, []))) h = Returned h' err ->
  fieldAt (decls w) (resolve (decls w) r) p = Some sf ->
  Type_ sf = TPtr (Here TTime) ->
  exists v',
    owns h' l v' /\
    (forall y,
        valueAt (decls w) (resolve (decls w) r) v p = Some (VPtr y) ->
        valueAt (decls w) (resolve (decls w) r) v' p = Some (VPtr y)) /\
    (exported sf = true -> err = None ->
     valueAt (decls w) (resolve (decls w) r) v p = Some VNil ->
     valueAt (decls w) (resolve (decls w) r) v' p
     = Some (VPtr (VTime zeroTime))).
Proof.
  intros Hown Hrun Hat Ht.
  destruct (LoadEnvH_Returned w fuel r h l v h' err Hown Hrun)
    as (v'&Hload&Hown').
  exists v'. split; [exact Hown'|].
  destruct (LoadEnv_pointer_to_time w fuel r v _ err p sf Hload Hat Ht)
    as (v''&[= <-]&Hrest). exact Hrest.
Qed.

Lemma pointer_to_time_is_not_bound_witness :
  exists v',
    owns [ HStruct [HPtr (1%nat, [])]; HTime year2000 ] 0%nat v' /\
    (forall y,
        valueAt noDecls SinceConfig (VStruct [VPtr (VTime year2000)]) [0%nat]
        = Some (VPtr y) ->
        valueAt noDecls SinceConfig v' [0%nat] = Some (VPtr y)) /\
    (exported (StructField "Since" "" "SINCE" (TPtr (Here TTime))) = true ->
     @None error = None ->
     valueAt noDecls SinceConfig (VStruct [VPtr (VTime year2000)]) [0%nat]
     = Some VNil ->
     valueAt noDecls SinceConfig v' [0%nat] = Some (VPtr (VTime zeroTime))).
Proof.
  apply (pointer_to_time_is_not_bound sinceWorld 2 (Here SinceConfig)
           [ HStruct [HPtr (1%nat, [])]; HTime year2000 ] 0%nat
           (VStruct [VPtr (VTime year2000)]) _ None [0%nat]
           (StructField "Since" "" "SINCE" (TPtr (Here TTime)))).
  - owns_tree.
  - vm_compute. reflexivity.
  - reflexivity.
  - reflexivity.
Defined.

(** ** Trees and shared storage *)

(** X15. On a target that owns its storage, the bind on the heap is the bind
    on the tree: it ends the same way, returns the same error, and leaves
    in the target, which still owns its storage, the tree that the bind on
    trees leaves. *)
Theorem heap_bind_is_tree_bind w fuel r h l v :
  owns h l v ->
  match LoadEnv w fuel (Any (TPtr r) (VPtr v)) with
  | Returned out' e =>
      exists v' h',
        out' = Any (TPtr r) (VPtr v') /\
        LoadEnvH w fuel (AnyH (TPtr r) (HPtr (l, []))) h = Returned h' e /\
        owns h' l v'
  | Exited => LoadEnvH w fuel (AnyH (TPtr r) (HPtr (l, []))) h = Exited
  | Panicked => LoadEnvH w fuel (AnyH (TPtr r) (HPtr (l, []))) h = Panicked
  | OutOfFuel => LoadEnvH w fuel (AnyH (TPtr r) (HPtr (l, []))) h = OutOfFuel
  end.
Proof. apply LoadEnvH_sim. Qed.

Lemma heap_bind_is_tree_bind_witness :
  exists v' h',
    Any (TPtr (Here NestedConfig))
      (VPtr (VStruct
               [VStruct
                  [VString "root";
                   VPtr (VStruct [VInt 42; VBool true;
                                  VSlice [VInt 1; VInt 2; VInt 3];
                                  VString "nested"])]]))
    = Any (TPtr (Here NestedConfig)) (VPtr v') /\
    LoadEnvH (envWorld noDecls nestedEnv) 3
      (AnyH (TPtr (Here NestedConfig)) (HPtr (0%nat, [])))
      [zeroH NestedConfig]
    = Returned h' None /\
    owns h' 0%nat v'.
Proof.
  pose proof (heap_bind_is_tree_bind (envWorld noDecls nestedEnv) 3
                (Here NestedConfig) [zeroH NestedConfig] 0%nat
                (zero NestedConfig)) as H.
  rewrite TestLoadEnvNested in H. apply H. owns_tree.
Defined.

(** X16. A write through a pointer reaches whatever shares its storage.
    With [P = &cfg.N] and the variable P set to 5, the bind returns [nil]
    and the untagged [N] holds 5.  With [Shown = &cfg.hidden] and VALUE set
    to 7, the bind returns [nil] and the unexported record holds 7. *)
Theorem write_through_shared_pointer :
  LoadEnvH (envWorld noDecls {[ "P" := "5" ]}) 1
    (AnyH (TPtr (Here CounterAndPointer)) (HPtr (0%nat, [])))
    [ HStruct [HInt 0; HPtr (0%nat, [0%nat])] ]
  = Returned [ HStruct [HInt 5; HPtr (0%nat, [0%nat])] ] None
  /\ LoadEnvH (envWorld noDecls {[ "VALUE" := "7" ]}) 2
       (AnyH (TPtr (Here HiddenAndShown)) (HPtr (0%nat, [])))
       [ HStruct [HStruct [HInt 1]; HPtr (0%nat, [0%nat])] ]
     = Returned [ HStruct [HStruct [HInt 7]; HPtr (0%nat, [0%nat])] ] None.
Proof. split; vm_compute; reflexivity. Qed.

(** X17. The bind writes the record, the objects that its pointers and
    slices lead to, and objects that it allocates; every other object of
    the heap is as it was, and no object is removed. *)
Theorem bind_writes_only_its_target w fuel r h l o v L h' err :
  h !! l = Some o -> repr h o v L -> NoDup (l :: L) ->
  LoadEnvH w fuel (AnyH (TPtr r) (HPtr (l, []))) h = Returned h' err ->
  (length h <= length h')%nat /\
  forall k, (k < length h)%nat -> k <> l -> k ∉ L -> h' !! k = h !! k.
Proof. apply LoadEnvH_frame. Qed.

Lemma bind_writes_only_its_target_witness :
  (3 <= 4)%nat /\
  forall k, (k < 3)%nat -> k <> 0%nat -> k ∉ [1%nat] ->
    [ HStruct [HPtr (1%nat, []); HPtr (3%nat, [])]; HInt 5; HString "other";
      HInt 5 ] !! k
    = [ HStruct [HPtr (1%nat, []); HNil]; HInt 0; HString "other" ] !! k.
Proof.
  apply (bind_writes_only_its_target
           (envWorld noDecls {[ "P" := "5" ]}) 1
           (Here (TStruct [ StructField "P" "" "P" (TPtr (Here (TInt 64)));
                            StructField "Q" "" "P" (TPtr (Here (TInt 64))) ]))
           [ HStruct [HPtr (1%nat, []); HNil]; HInt 0; HString "other" ]
           0%nat (HStruct [HPtr (1%nat, []); HNil])
           (VStruct [VPtr (VInt 0); VNil]) ((1%nat :: []) ++ [] ++ [])
           [ HStruct [HPtr (1%nat, []); HPtr (3%nat, [])]; HInt 5;
             HString "other"; HInt 5 ] None).
  - reflexivity.
  - repeat econstructor.
  - apply (bool_decide_unpack _). vm_compute. exact I.
  - vm_compute. reflexivity.
Defined.
